(** * CDP socket bridge: a shallow embedding of [CDPSocketServer] and [CDPSocket]

    The TypeScript classes [CDPSocketServer] (the namespace registry) and
    [CDPSocket] (the per-namespace bridge) are embedded as functions over an
    explicit store: registry nodes, bridges and CDP clients live in three
    arrays and refer to each other by index, so that object identity and
    aliasing are visible.  Promise continuations are kept in a job queue.  *)

From Stdlib Require Import ZArith Ascii String List Bool Lia.
From stdpp Require Import base option list gmap strings.

Local Open Scope string_scope.
Local Open Scope list_scope.

(** ** Strings: [String.prototype.replaceAll] and the escaping of line 118 *)

Module Js.

(** [s.startsWith(pat)] *)
Fixpoint starts_with (pat s : string) : bool :=
  match pat, s with
  | EmptyString, _ => true
  | String _ _, EmptyString => false
  | String a pat', String b s' => Ascii.eqb a b && starts_with pat' s'
  end.

(** [s.replaceAll(pat, rep)] with a string pattern: matches are found from
    left to right and do not overlap.  [skip] counts the characters of the
    current match that are still to be dropped.  For the empty pattern
    JavaScript puts [rep] before every character and at the end. *)
Fixpoint replaceAll_from (pat rep : string) (skip : nat) (s : string) : string :=
  match s with
  | EmptyString =>
      match pat with EmptyString => rep | _ => EmptyString end
  | String c s' =>
      match skip with
      | S k => replaceAll_from pat rep k s'
      | O =>
          if starts_with pat s then
            match pat with
            | EmptyString => rep +:+ String c (replaceAll_from pat rep 0 s')
            | String _ pat' => rep +:+ replaceAll_from pat rep (String.length pat') s'
            end
          else String c (replaceAll_from pat rep 0 s')
      end
  end.

Definition replaceAll (pat rep s : string) : string := replaceAll_from pat rep 0 s.

Definition backslash : ascii := ascii_of_nat 92.
Definition quote : ascii := ascii_of_nat 39.
Definition line_feed : ascii := ascii_of_nat 10.
Definition carriage_return : ascii := ascii_of_nat 13.

(** The literals of line 118: ['\\'], ['\\\\'], ['\''] and ['\\\'']. *)
Definition lit_backslash : string := String backslash EmptyString.
Definition lit_backslash2 : string := String backslash (String backslash EmptyString).
Definition lit_quote : string := String quote EmptyString.
Definition lit_backslash_quote : string := String backslash (String quote EmptyString).

(** [x.replaceAll('\\', '\\\\').replaceAll('\'', '\\\'')] *)
Definition escape_payload (x : string) : string :=
  replaceAll lit_quote lit_backslash_quote (replaceAll lit_backslash lit_backslash2 x).


(** How the page reads a single-quoted string literal (ECMAScript
    [StringLiteral], after the opening quote): characters up to the closing
    quote, where a backslash introduces an escape sequence and a raw line
    terminator is a syntax error.  Only the escape sequences the bridge
    produces, [\\] and [\'], are interpreted; any other is refused.  The
    result is the literal's value and the source text after the closing
    quote. *)
Fixpoint read_single_quoted (src : string) : option (string * string) :=
  match src with
  | EmptyString => None
  | String c rest =>
      if Ascii.eqb c quote then Some (EmptyString, rest)
      else if Ascii.eqb c backslash then
        match rest with
        | String d rest' =>
            if Ascii.eqb d backslash || Ascii.eqb d quote then
              match read_single_quoted rest' with
              | Some (v, after) => Some (String d v, after)
              | None => None
              end
            else None
        | EmptyString => None
        end
      else if Ascii.eqb c line_feed || Ascii.eqb c carriage_return then None
      else
        match read_single_quoted rest with
        | Some (v, after) => Some (String c v, after)
        | None => None
        end
  end.


(** [s.includes(c)] for a single character *)
Fixpoint contains_char (c : ascii) (s : string) : bool :=
  match s with
  | EmptyString => false
  | String d s' => Ascii.eqb d c || contains_char c s'
  end.

(** The member names that an object literal inherits from
    [Object.prototype].  The value of each is a function, that of
    ["__proto__"] is [Object.prototype] itself: every one is truthy. *)
Definition Object_prototype_names : list string :=
  ["constructor"; "__defineGetter__"; "__defineSetter__"; "hasOwnProperty";
   "__lookupGetter__"; "__lookupSetter__"; "isPrototypeOf"; "propertyIsEnumerable";
   "toString"; "valueOf"; "__proto__"; "toLocaleString"].

(** [key in {}]: the key names an inherited member. *)
Definition inherited (key : string) : bool :=
  existsb (String.eqb key) Object_prototype_names.

End Js.


(** ** Values, the external collaborators and the store *)

(** Functions are compared by identity.  A function is either supplied by
    the application ([UserFn], opaque) or the acknowledgement closure built
    at lines 155-157, which captures the bridge and [callbackEvent]. *)
Inductive func : Type :=
  | UserFn (id : nat)
  | AckFn (sock : nat) (callbackEvent : string).

#[local] Set Warnings "-register-all".

(** The values that travel as event arguments ([any] in the source). *)
Inductive value : Type :=
  | VUndefined
  | VNull
  | VBool (b : bool)
  | VNum (n : Z)
  | VStr (s : string)
  | VArr (xs : list value)
  | VFun (f : func).

(** The envelope [[event, callbackEvent, args]] of lines 115 and 153. *)
Definition envelope (event callbackEvent : string) (args : list value) : value :=
  VArr [VStr event; VStr callbackEvent; VArr args].

(** What the bridge imports and does not define: the codec of [./utils],
    [JSON.stringify], [JSON.parse] and [randomUUID].  A promise is
    represented by its settlement: [None] is a rejection (or, for the two
    JSON functions, a thrown error or an [undefined] result).
    [randomUUID n] is the value of the [n]-th draw. *)
Record Env : Type := mkEnv {
  encode : value -> string -> option value;
  decode : value -> option value;
  JSON_stringify : value -> option string;
  JSON_parse : string -> option value;
  randomUUID : nat -> string
}.

(** The CDP commands the bridge sends. *)
Inductive command : Type :=
  | Runtime_enable
  | Runtime_addBinding (name : string)
  | Runtime_evaluate (expression : string) (contextId : option Z).

(** [Protocol.Runtime.BindingCalledEvent] *)
Record BindingCalledEvent : Type := mkBindingCalled {
  name : string;
  payload : string;
  executionContextId : Z
}.

(** The remote client (external): the bridges whose handler is subscribed
    to ['Runtime.bindingCalled'], in subscription order, the commands sent
    so far, and whether the browser still answers commands. *)
Record Client : Type := mkClient {
  subscribers : list nat;
  sent : list command;
  responsive : bool
}.

(** An [EventEmitter] registration. *)
Record listener : Type := mkListener {
  l_event : string;
  l_fn : func;
  l_once : bool
}.

(** [class CDPSocket], lines 73-76, with the listeners it inherits from
    [EventEmitter] in registration order. *)
Record Socket : Type := mkSocket {
  _cdpClient : option nat;
  _namespace : string;
  _executionContextId : option Z;
  _listeners : list listener
}.

(** [class CDPSocketServer], lines 7-11.  [_namespaceMap] is the object
    literal used as a map from full namespaces to child nodes: the record
    holds its own properties; what a lookup finds besides them, the
    members inherited from [Object.prototype], is [Js.inherited].  The
    listeners of the node itself (it is an [EventEmitter]) are not part of
    the record. *)
Record Server : Type := mkServer {
  _cdpSocket : option nat;
  _fullNamespace : string;
  _path : string;
  _namespaceMap : gmap string nat
}.

(** Promise continuations waiting to run. *)
Inductive job : Type :=
  | AfterEncode (sock : nat) (encoded : option value)
  | AfterDecode (sock : nat) (decoded : option value).

(** The store: the three arrays of objects, the job queue, the number of
    uuids drawn so far, the calls received by functions of the
    application (latest last) and the number of promise rejections that
    nobody handled. *)
Record world : Type := mkWorld {
  servers : list Server;
  sockets : list Socket;
  clients : list Client;
  jobs : list job;
  uuids_drawn : nat;
  calls : list (nat * list value);
  rejections : nat
}.

Definition empty_world : world := mkWorld [] [] [] [] 0 [] 0.

Definition set_servers (l : list Server) (w : world) : world :=
  mkWorld l (sockets w) (clients w) (jobs w) (uuids_drawn w) (calls w) (rejections w).

Definition set_sockets (l : list Socket) (w : world) : world :=
  mkWorld (servers w) l (clients w) (jobs w) (uuids_drawn w) (calls w) (rejections w).

Definition set_clients (l : list Client) (w : world) : world :=
  mkWorld (servers w) (sockets w) l (jobs w) (uuids_drawn w) (calls w) (rejections w).

Definition set_jobs (l : list job) (w : world) : world :=
  mkWorld (servers w) (sockets w) (clients w) l (uuids_drawn w) (calls w) (rejections w).

Definition enqueue (j : job) (w : world) : world := set_jobs (jobs w ++ [j]) w.

Definition draw_uuid (w : world) : world :=
  mkWorld (servers w) (sockets w) (clients w) (jobs w) (S (uuids_drawn w)) (calls w) (rejections w).

Definition record_call (id : nat) (args : list value) (w : world) : world :=
  mkWorld (servers w) (sockets w) (clients w) (jobs w) (uuids_drawn w)
    (calls w ++ [(id, args)]) (rejections w).

(** A promise rejected with nobody to handle it. *)
Definition unhandled_rejection (w : world) : world :=
  mkWorld (servers w) (sockets w) (clients w) (jobs w) (uuids_drawn w) (calls w)
    (S (rejections w)).

(** ** The remote client *)

Inductive outcome : Type := Resolved | Rejected.

Module CDPClient.

Definition create (answers : bool) (w : world) : nat * world :=
  (length (clients w), set_clients (clients w ++ [mkClient [] [] answers]) w).

(** [cdpClient.send(method, params)]: the command is issued; the promise
    resolves if the browser answers. *)
Definition send (c : nat) (cmd : command) (w : world) : outcome * world :=
  match clients w !! c with
  | Some cl =>
      (if responsive cl then Resolved else Rejected,
       set_clients (<[c := mkClient (subscribers cl) (sent cl ++ [cmd]) (responsive cl)]> (clients w)) w)
  | None => (Rejected, w)
  end.

(** [cdpClient.on('Runtime.bindingCalled', handler)], the handler being the
    [processCDPRuntimeBinding] of bridge [s]. *)
Definition on (c s : nat) (w : world) : world :=
  match clients w !! c with
  | Some cl =>
      set_clients (<[c := mkClient (subscribers cl ++ [s]) (sent cl) (responsive cl)]> (clients w)) w
  | None => w
  end.

Fixpoint remove_first (s : nat) (l : list nat) : list nat :=
  match l with
  | [] => []
  | x :: l' => if Nat.eqb x s then l' else x :: remove_first s l'
  end.

(** [cdpClient.off('Runtime.bindingCalled', handler)]: one subscription of
    that handler is removed. *)
Definition off (c s : nat) (w : world) : world :=
  match clients w !! c with
  | Some cl =>
      set_clients (<[c := mkClient (remove_first s (subscribers cl)) (sent cl) (responsive cl)]> (clients w)) w
  | None => w
  end.

(** The page stops or resumes answering (navigation, crash). *)
Definition set_responsive (c : nat) (b : bool) (w : world) : world :=
  match clients w !! c with
  | Some cl => set_clients (<[c := mkClient (subscribers cl) (sent cl) b]> (clients w)) w
  | None => w
  end.

End CDPClient.

(** ** [class CDPSocket]: the bridge of one namespace *)

Module CDPSocket.

Definition set_socket (s : nat) (sk : Socket) (w : world) : world :=
  set_sockets (<[s := sk]> (sockets w)) w.

(** [`cypressSendToServer-${namespace}`], lines 91 and 144 *)
Definition binding_name (namespace : string) : string :=
  "cypressSendToServer-" +:+ namespace.

(** [constructor], lines 78-85: a new object, subscribed to the client. *)
Definition new (cdpClient : nat) (namespace : string) (w : world) : nat * world :=
  let s := length (sockets w) in
  let w1 := set_sockets (sockets w ++ [mkSocket (Some cdpClient) namespace None []]) w in
  (s, CDPClient.on cdpClient s w1).

(** [static async init], lines 87-95.  Each [await] of a rejected command
    rejects [init] before the bridge exists. *)
Definition init (cdpClient : nat) (namespace : string) (w : world) : option nat * world :=
  match CDPClient.send cdpClient Runtime_enable w with
  | (Rejected, w1) => (None, w1)
  | (Resolved, w1) =>
      match CDPClient.send cdpClient (Runtime_addBinding (binding_name namespace)) w1 with
      | (Rejected, w2) => (None, w2)
      | (Resolved, w2) =>
          let '(s, w3) := new cdpClient namespace w2 in (Some s, w3)
      end
  end.

(** [join], lines 97-99 *)
Definition join (s : nat) (room : string) (w : world) : world := w.

(** The listener registry inherited from [EventEmitter]: [on] and [once]
    append a registration.  The meta-events [newListener] and
    [removeListener] are not modelled. *)
Definition add_listener (s : nat) (l : listener) (w : world) : world :=
  match sockets w !! s with
  | Some sk =>
      set_socket s
        (mkSocket (_cdpClient sk) (_namespace sk) (_executionContextId sk) (_listeners sk ++ [l])) w
  | None => w
  end.

Definition on (s : nat) (event : string) (f : func) (w : world) : world :=
  add_listener s (mkListener event f false) w.

Definition once (s : nat) (event : string) (f : func) (w : world) : world :=
  add_listener s (mkListener event f true) w.

(** Lines 105-109: [typeof args[args.length - 1] === 'function'] and
    [args.pop()]. *)
Definition split_callback (args : list value) : option func * list value :=
  match last args with
  | Some (VFun f) => (Some f, removelast args)
  | _ => (None, args)
  end.

(** The template literal of lines 116-120. *)
Definition nl : string := String Js.line_feed EmptyString.

Definition window_socket (namespace : string) : string :=
  "window['cypressSocket-" +:+ namespace +:+ "']".

Definition expression_head (namespace : string) : string :=
  nl +:+ "        if (" +:+ window_socket namespace +:+ " && " +:+ window_socket namespace
     +:+ ".send) {" +:+ nl +:+ "          " +:+ window_socket namespace +:+ ".send('".

Definition expression_tail : string :=
  ")" +:+ nl +:+ "        }" +:+ nl +:+ "      ".

Definition evaluate_expression (namespace literal : string) : string :=
  expression_head namespace +:+ literal +:+ "'" +:+ expression_tail.

(** The page side of the contract: the argument handed to [send] when the
    expression runs, read back from the string literal that follows
    [expression_head]. *)
Fixpoint drop_string (n : nat) (s : string) : string :=
  match n, s with
  | O, _ => s
  | S _, EmptyString => EmptyString
  | S n', String _ s' => drop_string n' s'
  end.

Definition embedded_payload (namespace expression : string) : option string :=
  if Js.starts_with (expression_head namespace) expression then
    match Js.read_single_quoted (drop_string (String.length (expression_head namespace)) expression) with
    | Some (v, _) => Some v
    | None => None
    end
  else None.

(** [.catch(() => {})], line 122: whatever the outcome, the promise
    settles. *)
Definition catch_ignore (r : outcome * world) : world := snd r.

Section WithEnv.

Context (E : Env).

(** [emit], lines 101-126.  The result is the returned boolean. *)
Definition emit (s : nat) (event : string) (args : list value) (w : world) : bool * world :=
  match sockets w !! s with
  | Some sk =>
      let uuid := randomUUID E (uuids_drawn w) in
      let w0 := draw_uuid w in
      let callbackEvent := event +:+ "-" +:+ uuid in
      let '(callback, args') := split_callback args in
      let w1 := match callback with
                | Some f => once s callbackEvent f w0
                | None => w0
                end in
      let promise := encode E (envelope event callbackEvent args') (_namespace sk) in
      (true, enqueue (AfterEncode s promise) w1)
  | None => (true, w)
  end.

(** The continuation of lines 115-123. *)
Definition after_encode (s : nat) (encoded : value) (w : world) : world :=
  match sockets w !! s with
  | Some sk =>
      match JSON_stringify E encoded with
      | Some json =>
          let expression := evaluate_expression (_namespace sk) (Js.escape_payload json) in
          match _cdpClient sk with
          | Some c =>
              catch_ignore
                (CDPClient.send c (Runtime_evaluate expression (_executionContextId sk)) w)
          | None => w
          end
      | None => unhandled_rejection w
      end
  | None => unhandled_rejection w
  end.

(** [close], lines 136-139, and [disconnect], lines 128-130 *)
Definition close (s : nat) (w : world) : world :=
  match sockets w !! s with
  | Some sk =>
      let w1 := match _cdpClient sk with
                | Some c => CDPClient.off c s w
                | None => w
                end in
      set_socket s (mkSocket None (_namespace sk) (_executionContextId sk) (_listeners sk)) w1
  | None => w
  end.

Definition disconnect (s : nat) (w : world) : world := close s w.

(** [get connected], lines 132-134 *)
Definition connected (s : nat) (w : world) : bool :=
  match sockets w !! s with
  | Some sk => match _cdpClient sk with Some _ => true | None => false end
  | None => false
  end.

(** Calling a function value: an application function is recorded with
    the arguments it receives; the acknowledgement closure of lines
    155-157 runs [this.emit(callbackEvent, ...callbackArgs)]. *)
Definition invoke (f : func) (args : list value) (w : world) : world :=
  match f with
  | UserFn id => record_call id args w
  | AckFn s callbackEvent => snd (emit s callbackEvent args w)
  end.

Definition listens_to (event : string) (l : listener) : bool :=
  String.eqb (l_event l) event.

Definition survives (event : string) (l : listener) : bool :=
  negb (String.eqb (l_event l) event && l_once l).

(** [super.emit(event, ...args)], the [EventEmitter] dispatch: the
    listeners registered for [event] are called in registration order, the
    one-shot ones leaving the registry; an ['error'] event without a
    listener throws ([None]). *)
Definition super_emit (s : nat) (event : string) (args : list value) (w : world) : option world :=
  match sockets w !! s with
  | Some sk =>
      match List.filter (listens_to event) (_listeners sk) with
      | [] => if String.eqb event "error" then None else Some w
      | fired =>
          let sk' := mkSocket (_cdpClient sk) (_namespace sk) (_executionContextId sk)
                       (List.filter (survives event) (_listeners sk)) in
          Some (fold_left (fun w' l => invoke (l_fn l) args w') fired (set_socket s sk' w))
      end
  | None => None
  end.

(** The continuation of lines 152-160, for a decoded value that is an
    array starting with two strings and an array.  Every other decoded
    value stands here as a continuation that throws; the source throws
    for a value that cannot be destructured or an argument list that
    cannot be spread, coerces an event name that is no string and spreads
    a string into its characters. *)
Definition after_decode (s : nat) (decoded : value) (w : world) : world :=
  match decoded with
  | VArr (VStr event :: VStr callbackEvent :: VArr args :: _) =>
      match super_emit s event (args ++ [VFun (AckFn s callbackEvent)]) w with
      | Some w' => w'
      | None => unhandled_rejection w
      end
  | _ => unhandled_rejection w
  end.

(** [processCDPRuntimeBinding], lines 141-161 *)
Definition processCDPRuntimeBinding (s : nat) (ev : BindingCalledEvent) (w : world) : world :=
  match sockets w !! s with
  | Some sk =>
      if negb (String.eqb (name ev) (binding_name (_namespace sk))) then w
      else
        let w1 := set_socket s
                    (mkSocket (_cdpClient sk) (_namespace sk) (Some (executionContextId ev))
                       (_listeners sk)) w in
        match JSON_parse E (payload ev) with
        | Some data => enqueue (AfterDecode s (decode E data)) w1
        | None => unhandled_rejection w1
        end
  | None => w
  end.

(** The client delivers a ['Runtime.bindingCalled'] notification to every
    subscribed handler. *)
Definition notify (c : nat) (ev : BindingCalledEvent) (w : world) : world :=
  match clients w !! c with
  | Some cl => fold_left (fun w' s => processCDPRuntimeBinding s ev w') (subscribers cl) w
  | None => w
  end.

(** The page side of the contract, continued: the envelope the page gets
    from the argument of [send] with the same JSON parser and codec. *)
Definition page_decodes (namespace expression : string) : option value :=
  match embedded_payload namespace expression with
  | Some json =>
      match JSON_parse E json with
      | Some data => decode E data
      | None => None
      end
  | None => None
  end.

(** One turn of the job queue. *)
Definition run_job (j : job) (w : world) : world :=
  match j with
  | AfterEncode s (Some encoded) => after_encode s encoded w
  | AfterEncode _ None => unhandled_rejection w
  | AfterDecode s (Some decoded) => after_decode s decoded w
  | AfterDecode _ None => unhandled_rejection w
  end.

Definition tick (w : world) : world :=
  match jobs w with
  | [] => w
  | j :: rest => run_job j (set_jobs rest w)
  end.

End WithEnv.

End CDPSocket.

(** ** [class CDPSocketServer]: the namespace registry *)

(** What [this._namespaceMap[fullNamespace]] can be: a registry node, or
    the value of the member of that name that the object literal inherits
    ([Object] for ["constructor"], and so on). *)
Inductive jsref : Type :=
  | Node (c : nat)
  | Builtin (name : string).

(** How a call completes. *)
Inductive completion (A : Type) : Type :=
  | Returns (a : A)
  | Throws_TypeError.

Arguments Returns {A} a.
Arguments Throws_TypeError {A}.

Module CDPSocketServer.

(** [constructor], lines 13-18, with its two defaults *)
Definition new (path namespace : option string) (w : world) : nat * world :=
  let p := default EmptyString path in
  let n := default "/default" namespace in
  (length (servers w), set_servers (servers w ++ [mkServer None (p +:+ n) p ∅]) w).

Definition set_server (r : nat) (sv : Server) (w : world) : world :=
  set_servers (<[r := sv]> (servers w)) w.

(** [of], lines 36-44 ([of] is a keyword here).  The result is what the
    call returns and the store after the call; [None] stands for a
    receiver that is not in the store.  Line 39 tests the truthiness of
    [this._namespaceMap[fullNamespace]]: an own property is a node; with
    no own property the lookup goes on to the inherited members, which are
    truthy, so that nothing is created and line 43 returns the member;
    otherwise the child is created and stored. *)
Definition of_ (r : nat) (namespace : string) (w : world) : option (jsref * world) :=
  match servers w !! r with
  | Some sv =>
      let fullNamespace := _path sv +:+ namespace in
      match _namespaceMap sv !! fullNamespace with
      | Some c => Some (Node c, w)
      | None =>
          if Js.inherited fullNamespace then Some (Builtin fullNamespace, w)
          else
            let '(c, w1) := new (Some (_path sv)) (Some namespace) w in
            Some (Node c,
                  set_server r
                    (mkServer (_cdpSocket sv) (_fullNamespace sv) (_path sv)
                       (<[fullNamespace := c]> (_namespaceMap sv))) w1)
      end
  | None => None
  end.

(** [r.of(a).of(b)].  None of the inherited members has a member [of]:
    calling it on one of them throws a [TypeError]. *)
Definition of_of (r : nat) (a b : string) (w : world)
  : option (completion (jsref * world)) :=
  match of_ r a w with
  | Some (Node c, w1) =>
      match of_ c b w1 with
      | Some res => Some (Returns res)
      | None => None
      end
  | Some (Builtin _, _) => Some Throws_TypeError
  | None => None
  end.

(** [x._fullNamespace] *)
Definition fullNamespace_of (x : nat) (w : world) : option string :=
  _fullNamespace <$> (servers w !! x).

(** [to], lines 46-48 ([to] is a keyword here) *)
Definition to_ (r : nat) (room : string) (w : world) : nat * world := (r, w).

(** [attachCDPClient], line 21, for the node itself: the bridge made by
    [CDPSocket.init] is stored; a rejected [init] leaves the node as it
    was.  The fan-out to the children (lines 23-25) and the ['connection']
    event (line 27) are outside this development. *)
Definition attach_node (r cdpClient : nat) (w : world) : world :=
  match servers w !! r with
  | Some sv =>
      match CDPSocket.init cdpClient (_fullNamespace sv) w with
      | (Some s, w1) =>
          set_server r (mkServer (Some s) (_fullNamespace sv) (_path sv) (_namespaceMap sv)) w1
      | (None, w1) => w1
      end
  | None => w
  end.

(** [close], lines 51-54, and [disconnectSockets], lines 62-65, for the
    node itself: its bridge is closed and dropped.  Line 53 also removes
    the listeners of the node itself, which the store does not hold.
    Lines 56-58 and 67-69 make the same call on every child. *)
Definition close_node (r : nat) (w : world) : world :=
  match servers w !! r with
  | Some sv =>
      let w1 := match _cdpSocket sv with
                | Some s => CDPSocket.close s w
                | None => w
                end in
      set_server r (mkServer None (_fullNamespace sv) (_path sv) (_namespaceMap sv)) w1
  | None => w
  end.

(** [emit], lines 30-34 *)
Definition emit (E : Env) (r : nat) (event : string) (args : list value) (w : world)
  : bool * world :=
  match servers w !! r with
  | Some sv =>
      match _cdpSocket sv with
      | Some s => (true, snd (CDPSocket.emit E s event args w))
      | None => (true, w)
      end
  | None => (true, w)
  end.

End CDPSocketServer.

(** ** Runs: what the application, the page and the scheduler can do

    A run is a sequence of calls of the methods above, of notifications
    from the page and of turns of the job queue.  The registry's
    [attachCDPClient], [close] and [disconnectSockets] appear node by
    node. *)

Inductive op : Type :=
  | OpNewClient (answers : bool)
  | OpSetResponsive (c : nat) (answers : bool)
  | OpNewServer (path namespace : option string)
  | OpOf (r : nat) (namespace : string)
  | OpTo (r : nat) (room : string)
  | OpAttach (r c : nat)
  | OpServerEmit (r : nat) (event : string) (args : list value)
  | OpServerClose (r : nat)
  | OpInit (c : nat) (namespace : string)
  | OpJoin (s : nat) (room : string)
  | OpOn (s : nat) (event : string) (f : func)
  | OpOnce (s : nat) (event : string) (f : func)
  | OpEmit (s : nat) (event : string) (args : list value)
  | OpClose (s : nat)
  | OpDisconnect (s : nat)
  | OpNotify (c : nat) (ev : BindingCalledEvent)
  | OpInvoke (f : func) (args : list value)
  | OpTick.

Definition run_op (E : Env) (o : op) (w : world) : world :=
  match o with
  | OpNewClient b => snd (CDPClient.create b w)
  | OpSetResponsive c b => CDPClient.set_responsive c b w
  | OpNewServer p n => snd (CDPSocketServer.new p n w)
  | OpOf r n => match CDPSocketServer.of_ r n w with Some (_, w') => w' | None => w end
  | OpTo r room => snd (CDPSocketServer.to_ r room w)
  | OpAttach r c => CDPSocketServer.attach_node r c w
  | OpServerEmit r event args => snd (CDPSocketServer.emit E r event args w)
  | OpServerClose r => CDPSocketServer.close_node r w
  | OpInit c n => snd (CDPSocket.init c n w)
  | OpJoin s room => CDPSocket.join s room w
  | OpOn s event f => CDPSocket.on s event f w
  | OpOnce s event f => CDPSocket.once s event f w
  | OpEmit s event args => snd (CDPSocket.emit E s event args w)
  | OpClose s => CDPSocket.close s w
  | OpDisconnect s => CDPSocket.disconnect s w
  | OpNotify c ev => CDPSocket.notify E c ev w
  | OpInvoke f args => CDPSocket.invoke E f args w
  | OpTick => CDPSocket.tick E w
  end.

Definition run (E : Env) (ops : list op) (w : world) : world :=
  fold_left (fun w' o => run_op E o w') ops w.

(** The stores that a run from the empty store can reach. *)
Definition reachable (E : Env) (w : world) : Prop :=
  exists ops : list op, w = run E ops empty_world.

(** ** Invariants of the store *)

(** Every entry of a node's [_namespaceMap] is a node of the store that
    shares the parent's path and whose full namespace is the entry's key. *)
Definition registry_ok (w : world) : Prop :=
  forall (r : nat) (sv : Server) (key : string) (c : nat),
    servers w !! r = Some sv ->
    _namespaceMap sv !! key = Some c ->
    exists ch : Server,
      servers w !! c = Some ch /\ _path ch = _path sv /\ _fullNamespace ch = key.

(** No entry of a node's [_namespaceMap] is under the name of an
    inherited member. *)
Definition own_keys_ok (w : world) : Prop :=
  forall (r : nat) (sv : Server) (key : string) (c : nat),
    servers w !! r = Some sv ->
    _namespaceMap sv !! key = Some c ->
    Js.inherited key = false.

(** From [w] to [w'] the registry only grows: every node is still there
    with its path, its full namespace and every entry of its map. *)
Definition registry_grows (w w' : world) : Prop :=
  forall (r : nat) (sv : Server),
    servers w !! r = Some sv ->
    exists sv' : Server,
      servers w' !! r = Some sv' /\ _path sv' = _path sv /\
      _fullNamespace sv' = _fullNamespace sv /\
      forall (key : string) (c : nat),
        _namespaceMap sv !! key = Some c -> _namespaceMap sv' !! key = Some c.

(** Who is linked to whom: the subscriptions of every client and the
    client reference of every bridge. *)
Definition links (w : world) : list (list nat) * list (option nat) :=
  (subscribers <$> clients w, _cdpClient <$> sockets w).

(** No handler is subscribed twice, and every subscription on a client is
    that of a bridge holding this client. *)
Definition subscriptions_ok (w : world) : Prop :=
  forall (c : nat) (cl : Client),
    clients w !! c = Some cl ->
    NoDup (subscribers cl) /\
    forall s : nat, s ∈ subscribers cl ->
      exists sk : Socket, sockets w !! s = Some sk /\ _cdpClient sk = Some c.

(** Bridge [s] is subscribed to no client. *)
Definition unsubscribed (s : nat) (w : world) : Prop :=
  forall (c : nat) (cl : Client), clients w !! c = Some cl -> s ∉ subscribers cl.

(** Bridge [s] holds no client. *)
Definition released (s : nat) (w : world) : Prop :=
  exists sk : Socket, sockets w !! s = Some sk /\ _cdpClient sk = None.

(** The jobs of bridge [s] that wait for a decoded inbound message. *)
Definition inbound_of (s : nat) (j : job) : bool :=
  match j with
  | AfterDecode s' _ => Nat.eqb s' s
  | AfterEncode _ _ => false
  end.

(** A small world for examples: the codec keeps the envelope as it is,
    [JSON.stringify] and [JSON.parse] are tabulated on two envelopes, and
    the n-th uuid is ["u"] followed by n strokes. *)
Module Sample.

Fixpoint strokes (n : nat) : string :=
  match n with
  | O => EmptyString
  | S n' => String "|" (strokes n')
  end.

Definition ping : value := envelope "ping" "ping-u" [VNum 1; VNum 2].
Definition ack : value := envelope "ping-u" "ack1" [VStr "ok"].

Definition dq : string := String (ascii_of_nat 34) EmptyString.

Definition quoted (s : string) : string := dq +:+ s +:+ dq.

Definition ping_json : string :=
  Eval cbv in "[" +:+ quoted "ping" +:+ "," +:+ quoted "ping-u" +:+ ",[1,2]]".

Definition ack_json : string :=
  Eval cbv in "[" +:+ quoted "ping-u" +:+ "," +:+ quoted "ack1" +:+ ",[" +:+ quoted "ok" +:+ "]]".

Definition value_is (a b : value) : bool :=
  match a, b with
  | VArr [VStr e1; VStr c1; VArr [VNum x1; VNum y1]],
    VArr [VStr e2; VStr c2; VArr [VNum x2; VNum y2]] =>
      String.eqb e1 e2 && String.eqb c1 c2 && Z.eqb x1 x2 && Z.eqb y1 y2
  | VArr [VStr e1; VStr c1; VArr [VStr x1]],
    VArr [VStr e2; VStr c2; VArr [VStr x2]] =>
      String.eqb e1 e2 && String.eqb c1 c2 && String.eqb x1 x2
  | _, _ => false
  end.

Definition env : Env :=
  mkEnv (fun v _ => Some v)
        (fun v => Some v)
        (fun v => if value_is v ping then Some ping_json
                  else if value_is v ack then Some ack_json else None)
        (fun s => if String.eqb s ping_json then Some ping
                  else if String.eqb s ack_json then Some ack else None)
        (fun n => "u" +:+ strokes n).

(** A client that answers and one bridge on ["/default"]. *)
Definition connected_world : world :=
  snd (CDPSocket.init 0 "/default" (snd (CDPClient.create true empty_world))).

(** A client that answers and two bridges, on ["/a"] and on ["/b"]. *)
Definition two_bridges : world :=
  snd (CDPSocket.init 0 "/b"
         (snd (CDPSocket.init 0 "/a" (snd (CDPClient.create true empty_world))))).


(** The bridge on ["/default"] with a listener for ["greet"]. *)
Definition listening_world : world :=
  CDPSocket.on 0 "greet" (UserFn 1) connected_world.

End Sample.


(** ** More small worlds for examples *)

Module Scenes.


(** The bridge with one listener for ["ping"]. *)
Definition ping_listener_world : world :=
  CDPSocket.on 0 "ping" (UserFn 1) Sample.connected_world.


(** The page sends ["ping"] with [[1, 2]] from execution context 7. *)
Definition ping_notification : BindingCalledEvent :=
  mkBindingCalled "cypressSendToServer-/default" Sample.ping_json 7.

(** The page calls the binding with a text that is no JSON. *)
Definition garbage_notification : BindingCalledEvent :=
  mkBindingCalled "cypressSendToServer-/default" "{" 7.


(** A registry on ["/__socket"] and a client that answers, not attached. *)
Definition registry_world : world :=
  snd (CDPSocketServer.new (Some "/__socket") None (snd (CDPClient.create true empty_world))).

(** The same with a client that does not answer. *)
Definition silent_registry_world : world :=
  snd (CDPSocketServer.new (Some "/__socket") None (snd (CDPClient.create false empty_world))).

(** A registry on ["/s"] with the namespaces ["/a"] and ["/b"] and, below
    ["/a"], ["/c"]; the four nodes are attached to one client, node [i]
    holding bridge [i]. *)
Definition tree_ops : list op :=
  [OpNewClient true; OpNewServer (Some "/s") None;
   OpOf 0 "/a"; OpOf 0 "/b"; OpOf 1 "/c";
   OpAttach 0 0; OpAttach 1 0; OpAttach 2 0; OpAttach 3 0].

Definition tree_world : world := run Sample.env tree_ops empty_world.

End Scenes.

(** ** The registry's [close] and [disconnectSockets] with their recursion *)

From stdpp Require Import sorting.

Module Registry.

(** The children of a node by index, that is in the order of their
    creation: one enumeration of the values of its [_namespaceMap]. *)
Definition children (m : gmap string nat) : list nat :=
  merge_sort Nat.le ((map_to_list m).*2).

Section Values.

(** [Object.values(this._namespaceMap)]: the values of the object's own
    properties, each once.  Their order (integer-like keys first, then the
    others as they were put in) is left open. *)
Variable values : gmap string nat -> list nat.

(** [close], lines 51-59: the node itself (lines 52-54, see
    [CDPSocketServer.close_node]), then each child.  The recursion follows
    the tree of nodes; [fuel] bounds its depth.  The registry's own
    listeners, which line 53 removes, are not part of the store. *)
Fixpoint close_tree (fuel : nat) (r : nat) (w : world) : world :=
  match fuel with
  | O => w
  | S fuel' =>
      match servers w !! r with
      | Some sv =>
          fold_left (fun w' c => close_tree fuel' c w') (values (_namespaceMap sv))
            (CDPSocketServer.close_node r w)
      | None => w
      end
  end.

(** A tree of nodes in a store is less deep than the store has nodes. *)
Definition close (r : nat) (w : world) : world :=
  close_tree (length (servers w)) r w.

(** [disconnectSockets], lines 62-70: the same steps; the argument is not
    used, and the children are called without one. *)
Fixpoint disconnect_tree (fuel : nat) (r : nat) (close : option bool) (w : world) : world :=
  match fuel with
  | O => w
  | S fuel' =>
      match servers w !! r with
      | Some sv =>
          fold_left (fun w' c => disconnect_tree fuel' c None w') (values (_namespaceMap sv))
            (CDPSocketServer.close_node r w)
      | None => w
      end
  end.

Definition disconnectSockets (r : nat) (close : option bool) (w : world) : world :=
  disconnect_tree (length (servers w)) r close w.

End Values.

(** [values] lists the values of a map, each entry once. *)
Definition lists_values (values : gmap string nat -> list nat) : Prop :=
  forall m : gmap string nat, values m ≡ₚ (map_to_list m).*2.

End Registry.

(** ** The tree of registry nodes *)

(** [descends w n r d]: node [d] is [n] levels below node [r]. *)
Inductive descends (w : world) : nat -> nat -> nat -> Prop :=
  | descends_self (r : nat) (sv : Server) :
      servers w !! r = Some sv -> descends w 0 r r
  | descends_child (n r : nat) (sv : Server) (key : string) (c d : nat) :
      servers w !! r = Some sv ->
      _namespaceMap sv !! key = Some c ->
      descends w n c d ->
      descends w (S n) r d.

(** Node [d] is [r] or below [r]. *)
Definition in_subtree (w : world) (r d : nat) : Prop := exists n : nat, descends w n r d.

(** Children are created after their parent, and exist. *)
Definition tree_ok (w : world) : Prop :=
  forall (r : nat) (sv : Server) (key : string) (c : nat),
    servers w !! r = Some sv ->
    _namespaceMap sv !! key = Some c ->
    r < c /\ c < length (servers w).

(** No node is entered twice, in one map or in two. *)
Definition single_parent (w : world) : Prop :=
  forall (r1 r2 : nat) (sv1 sv2 : Server) (k1 k2 : string) (c : nat),
    servers w !! r1 = Some sv1 -> _namespaceMap sv1 !! k1 = Some c ->
    servers w !! r2 = Some sv2 -> _namespaceMap sv2 !! k2 = Some c ->
    r1 = r2 /\ k1 = k2.

(** The namespace maps of all nodes. *)
Definition maps (w : world) : list (gmap string nat) := _namespaceMap <$> servers w.

(** From [w] to [w'] bridges were closed and dropped, and nothing else
    happened: the registry keeps its shape, a node keeps its bridge or has
    none any more, in which case that bridge holds no client; a bridge
    keeps its client or has none any more, and keeps everything else; a
    client keeps its log and loses subscriptions at most, the others
    staying in their order. *)
Definition only_closes (w w' : world) : Prop :=
  length (servers w') = length (servers w)
  /\ (forall (d : nat) (sv : Server),
        servers w !! d = Some sv ->
        exists sv' : Server,
          servers w' !! d = Some sv'
          /\ _path sv' = _path sv /\ _fullNamespace sv' = _fullNamespace sv
          /\ _namespaceMap sv' = _namespaceMap sv
          /\ (_cdpSocket sv' = _cdpSocket sv
              \/ (_cdpSocket sv' = None
                  /\ forall (s : nat) (sk' : Socket),
                       _cdpSocket sv = Some s -> sockets w' !! s = Some sk' ->
                       _cdpClient sk' = None)))
  /\ length (sockets w') = length (sockets w)
  /\ (forall (b : nat) (sk : Socket),
        sockets w !! b = Some sk ->
        exists sk' : Socket,
          sockets w' !! b = Some sk'
          /\ _namespace sk' = _namespace sk
          /\ _executionContextId sk' = _executionContextId sk
          /\ _listeners sk' = _listeners sk
          /\ (_cdpClient sk' = _cdpClient sk \/ _cdpClient sk' = None))
  /\ length (clients w') = length (clients w)
  /\ (forall (c : nat) (cl : Client),
        clients w !! c = Some cl ->
        exists cl' : Client,
          clients w' !! c = Some cl'
          /\ sent cl' = sent cl /\ responsive cl' = responsive cl
          /\ subscribers cl' `sublist_of` subscribers cl)
  /\ jobs w' = jobs w /\ calls w' = calls w
  /\ rejections w' = rejections w /\ uuids_drawn w' = uuids_drawn w.

(** Node [r] of [ms] has an entry [key], which is node [c]. *)
Definition entry (ms : list (gmap string nat)) (r : nat) (key : string) (c : nat) : Prop :=
  exists m : gmap string nat, ms !! r = Some m /\ m !! key = Some c.

(** The maps make a forest: children come after their parent and exist,
    and no node is entered twice. *)
Definition forest (ms : list (gmap string nat)) : Prop :=
  (forall (r : nat) (key : string) (c : nat), entry ms r key c -> r < c /\ c < length ms)
  /\ (forall (r1 r2 : nat) (k1 k2 : string) (c : nat),
        entry ms r1 k1 c -> entry ms r2 k2 c -> r1 = r2 /\ k1 = k2).

(** Node [r] holds bridge [s]. *)
Definition holds (w : world) (r s : nat) : Prop :=
  exists sv : Server, servers w !! r = Some sv /\ _cdpSocket sv = Some s.

(** Every bridge that a node holds is in the store, and no two nodes hold
    the same. *)
Definition bridges_ok (w : world) : Prop :=
  (forall r s : nat, holds w r s -> s < length (sockets w))
  /\ (forall r1 r2 s : nat, holds w r1 s -> holds w r2 s -> r1 = r2).

(** From [w] to [w'] bridge [b] keeps its state and its subscriptions. *)
Definition keeps_bridge (b : nat) (w w' : world) : Prop :=
  sockets w' !! b = sockets w !! b
  /\ forall (c : nat) (cl : Client),
       clients w !! c = Some cl ->
       exists cl' : Client,
         clients w' !! c = Some cl' /\ (b ∈ subscribers cl' <-> b ∈ subscribers cl).
(** * Properties *)

(** ** Strings *)

Section StringFacts.

Lemma append_cons (x : ascii) (a b : string) : String x a +:+ b = String x (a +:+ b).
Proof. reflexivity. Qed.


Lemma append_assoc (a b c : string) : (a +:+ b) +:+ c = a +:+ (b +:+ c).
Proof.
  induction a as [|x a IH]; [reflexivity|].
  rewrite !append_cons. f_equal. exact IH.
Qed.

Lemma string_length_append (a b : string) :
  String.length (a +:+ b) = String.length a + String.length b.
Proof.
  induction a as [|x a IH]; [reflexivity|]. rewrite append_cons. simpl. now rewrite IH.
Qed.

Lemma append_inj_l (p a b : string) : p +:+ a = p +:+ b -> a = b.
Proof.
  induction p as [|x p IH]; intros H; [exact H|].
  rewrite !append_cons in H. injection H as H. now apply IH.
Qed.




Lemma replaceAll_char_nil (c : ascii) (rep : string) :
  Js.replaceAll (String c EmptyString) rep EmptyString = EmptyString.
Proof. reflexivity. Qed.





End StringFacts.

Example replaceAll_nonoverlapping : Js.replaceAll "aa" "b" "aaa" = "ba".
Proof. reflexivity. Qed.

Example replaceAll_every_match : Js.replaceAll "ab" "X" "abcabab" = "XcXX".
Proof. reflexivity. Qed.

Example replaceAll_empty_pattern : Js.replaceAll EmptyString "-" "abc" = "-a-b-c-".
Proof. reflexivity. Qed.

Example escape_payload_sample : Js.escape_payload "it's a\b" = "it\'s a\\b".
Proof. reflexivity. Qed.



(** ** The registry *)

Section RegistryFacts.


(** [of] on a key that the node already holds returns the stored child and
    changes nothing. *)
Lemma of_existing (w : world) (r : nat) (sv : Server) (namespace : string) (c : nat) :
  servers w !! r = Some sv ->
  _namespaceMap sv !! (_path sv +:+ namespace) = Some c ->
  CDPSocketServer.of_ r namespace w = Some (Node c, w).
Proof.
  intros Hr Hc. unfold CDPSocketServer.of_. rewrite Hr.
  cbv zeta. now rewrite Hc.
Qed.

(** A key that contains a slash names no inherited member. *)
Lemma slash_not_inherited (key : string) :
  Js.contains_char "/" key = true -> Js.inherited key = false.
Proof.
  intros Hslash. unfold Js.inherited, Js.Object_prototype_names. simpl.
  repeat match goal with
         | |- context [String.eqb key ?n] =>
             destruct (String.eqb_spec key n) as [->|_]; [discriminate Hslash|]
         end.
  reflexivity.
Qed.

(** [of] on a key that the node does not hold and that names an inherited
    member creates nothing and returns the member. *)
Lemma of_inherited (w : world) (r : nat) (sv : Server) (namespace : string) :
  servers w !! r = Some sv ->
  _namespaceMap sv !! (_path sv +:+ namespace) = None ->
  Js.inherited (_path sv +:+ namespace) = true ->
  CDPSocketServer.of_ r namespace w = Some (Builtin (_path sv +:+ namespace), w).
Proof.
  intros Hr Hn Hi. unfold CDPSocketServer.of_. rewrite Hr.
  cbv zeta. now rewrite Hn, Hi.
Qed.

(** [of] on a key that the node does not hold and that names no inherited
    member creates the child. *)
Lemma of_fresh (w : world) (r : nat) (sv : Server) (namespace : string) :
  servers w !! r = Some sv ->
  _namespaceMap sv !! (_path sv +:+ namespace) = None ->
  Js.inherited (_path sv +:+ namespace) = false ->
  CDPSocketServer.of_ r namespace w =
    Some (Node (length (servers w)),
          CDPSocketServer.set_server r
            (mkServer (_cdpSocket sv) (_fullNamespace sv) (_path sv)
               (<[_path sv +:+ namespace := length (servers w)]> (_namespaceMap sv)))
            (set_servers
               (servers w ++ [mkServer None (_path sv +:+ namespace) (_path sv) ∅]) w)).
Proof.
  intros Hr Hn Hi. unfold CDPSocketServer.of_. rewrite Hr.
  cbv zeta. rewrite Hn, Hi. reflexivity.
Qed.

Lemma registry_ok_empty : registry_ok empty_world.
Proof. intros r sv key c Hr. destruct r; discriminate Hr. Qed.

Lemma registry_ok_new (w : world) (path namespace : option string) :
  registry_ok w -> registry_ok (snd (CDPSocketServer.new path namespace w)).
Proof.
  intros Hok r sv key c Hr Hc. simpl in Hr.
  apply lookup_app_Some in Hr as [Hr | [Hlen Hr]].
  - destruct (Hok r sv key c Hr Hc) as [ch [Hch [Hp Hf]]].
    exists ch. simpl. rewrite lookup_app_l; [auto|].
    now apply lookup_lt_Some in Hch.
  - apply list_lookup_singleton_Some in Hr as [_ <-]. simpl in Hc.
    rewrite lookup_empty in Hc. discriminate.
Qed.

(** Replacing a node by one with the same path, full namespace and map
    keeps the registry well formed. *)
Lemma registry_ok_same_map (w : world) (r : nat) (sv sv' : Server) :
  registry_ok w ->
  servers w !! r = Some sv ->
  _path sv' = _path sv -> _fullNamespace sv' = _fullNamespace sv ->
  _namespaceMap sv' = _namespaceMap sv ->
  registry_ok (CDPSocketServer.set_server r sv' w).
Proof.
  intros Hok Hr Hp Hf Hm r0 sv0 key c Hr0 Hc. simpl in Hr0.
  assert (Hlt : r < length (servers w)) by now apply lookup_lt_Some in Hr.
  assert (Hold : exists sv1, servers w !! r0 = Some sv1 /\ _path sv1 = _path sv0
                             /\ _namespaceMap sv1 = _namespaceMap sv0).
  { destruct (decide (r = r0)) as [->|Hne].
    - rewrite list_lookup_insert_eq in Hr0 by exact Hlt. injection Hr0 as <-.
      exists sv. auto.
    - rewrite list_lookup_insert_ne in Hr0 by exact Hne. exists sv0. auto. }
  destruct Hold as [sv1 [Hr1 [Hp1 Hm1]]]. rewrite <- Hm1 in Hc.
  destruct (Hok r0 sv1 key c Hr1 Hc) as [ch [Hch [Hpc Hfc]]].
  simpl.
  destruct (decide (r = c)) as [->|Hne].
  - exists sv'. rewrite list_lookup_insert_eq by exact Hlt.
    rewrite Hr in Hch. injection Hch as <-. repeat split; congruence.
  - exists ch. rewrite list_lookup_insert_ne by exact Hne. repeat split; congruence.
Qed.

Lemma registry_ok_servers (w w' : world) :
  servers w' = servers w -> registry_ok w -> registry_ok w'.
Proof. intros Heq Hok r sv key c. rewrite Heq. apply Hok. Qed.

Lemma registry_ok_of (w w' : world) (r : nat) (namespace : string) (x : jsref) :
  registry_ok w ->
  CDPSocketServer.of_ r namespace w = Some (x, w') ->
  registry_ok w'.
Proof.
  intros Hok Hof. unfold CDPSocketServer.of_ in Hof.
  destruct (servers w !! r) as [sv|] eqn:Hr; [|discriminate]. cbv zeta in Hof.
  destruct (_namespaceMap sv !! (_path sv +:+ namespace)) as [y|] eqn:Hn.
  { injection Hof as _ <-. exact Hok. }
  destruct (Js.inherited (_path sv +:+ namespace)).
  { injection Hof as _ <-. exact Hok. }
  simpl in Hof. injection Hof as _ <-.
  assert (Hlt : r < length (servers w)) by now apply lookup_lt_Some in Hr.
  intros r0 sv0 key c Hr0 Hc. simpl in Hr0. simpl.
  (* the node [r0] as it was, and what its map gained *)
  assert (Hcases :
    (key = _path sv +:+ namespace /\ c = length (servers w) /\ _path sv0 = _path sv) \/
    (exists sv1, servers w !! r0 = Some sv1 /\ _path sv1 = _path sv0
                 /\ _namespaceMap sv1 !! key = Some c)).
  { destruct (decide (r = r0)) as [->|Hne].
    - rewrite list_lookup_insert_eq in Hr0 by (rewrite length_app; simpl; lia).
      injection Hr0 as <-. simpl in Hc.
      destruct (decide (_path sv +:+ namespace = key)) as [<-|Hk].
      + rewrite lookup_insert_eq in Hc. injection Hc as <-. left. auto.
      + rewrite lookup_insert_ne in Hc by exact Hk. right. exists sv. auto.
    - rewrite list_lookup_insert_ne in Hr0 by exact Hne.
      apply lookup_app_Some in Hr0 as [Hr0 | [_ Hr0]].
      + right. exists sv0. auto.
      + apply list_lookup_singleton_Some in Hr0 as [_ <-]. simpl in Hc.
        rewrite lookup_empty in Hc. discriminate. }
  destruct Hcases as [[-> [-> Hp]] | [sv1 [Hr1 [Hp1 Hc1]]]].
  - exists (mkServer None (_path sv +:+ namespace) (_path sv) ∅).
    rewrite list_lookup_insert_ne by lia.
    rewrite lookup_app_r by lia. rewrite Nat.sub_diag. simpl. auto.
  - destruct (Hok r0 sv1 key c Hr1 Hc1) as [ch [Hch [Hpc Hfc]]].
    assert (Hc_lt : c < length (servers w)) by now apply lookup_lt_Some in Hch.
    destruct (decide (r = c)) as [->|Hne].
    + eexists. rewrite list_lookup_insert_eq by (rewrite length_app; simpl; lia).
      rewrite Hr in Hch. injection Hch as <-.
      split; [reflexivity|]. simpl. split; congruence.
    + exists ch. rewrite list_lookup_insert_ne by exact Hne.
      rewrite lookup_app_l by exact Hc_lt. repeat split; congruence.
Qed.

End RegistryFacts.

(** ** What the bridge and the client leave alone *)

Ltac break_match :=
  match goal with
  | |- context [match ?x with _ => _ end] => destruct x eqn:?
  end.

Ltac crunch := simpl; repeat (break_match; simpl); try reflexivity.

Section ServersFrame.

Context (E : Env).

Lemma fold_left_preserves {A B : Type} (proj : world -> B) (f : world -> A -> world)
      (l : list A) (w : world) :
  (forall w' a, proj (f w' a) = proj w') -> proj (fold_left f l w) = proj w.
Proof.
  intros Hf. revert w. induction l as [|a l IH]; intros w; simpl; [reflexivity|].
  rewrite IH. apply Hf.
Qed.

Lemma servers_send (c : nat) (cmd : command) (w : world) :
  servers (snd (CDPClient.send c cmd w)) = servers w.
Proof. unfold CDPClient.send. crunch. Qed.

Lemma servers_client_on (c s : nat) (w : world) : servers (CDPClient.on c s w) = servers w.
Proof. unfold CDPClient.on. crunch. Qed.

Lemma servers_client_off (c s : nat) (w : world) : servers (CDPClient.off c s w) = servers w.
Proof. unfold CDPClient.off. crunch. Qed.

Lemma servers_set_responsive (c : nat) (b : bool) (w : world) :
  servers (CDPClient.set_responsive c b w) = servers w.
Proof. unfold CDPClient.set_responsive. crunch. Qed.

Lemma servers_socket_new (c : nat) (namespace : string) (w : world) :
  servers (snd (CDPSocket.new c namespace w)) = servers w.
Proof. unfold CDPSocket.new. simpl. now rewrite servers_client_on. Qed.

Lemma servers_init (c : nat) (namespace : string) (w : world) :
  servers (snd (CDPSocket.init c namespace w)) = servers w.
Proof.
  unfold CDPSocket.init.
  destruct (CDPClient.send c Runtime_enable w) as [o1 w1] eqn:H1.
  assert (Hs1 : servers w1 = servers w)
    by (change w1 with (snd (o1, w1)); rewrite <- H1; apply servers_send).
  destruct o1; [|exact Hs1].
  destruct (CDPClient.send c _ w1) as [o2 w2] eqn:H2.
  assert (Hs2 : servers w2 = servers w1)
    by (change w2 with (snd (o2, w2)); rewrite <- H2; apply servers_send).
  destruct o2; [|simpl; congruence].
  pose proof (servers_socket_new c namespace w2) as Hs3.
  destruct (CDPSocket.new c namespace w2) as [s w3]. simpl in *. congruence.
Qed.

Lemma servers_add_listener (s : nat) (l : listener) (w : world) :
  servers (CDPSocket.add_listener s l w) = servers w.
Proof. unfold CDPSocket.add_listener. crunch. Qed.

Lemma servers_emit (s : nat) (event : string) (args : list value) (w : world) :
  servers (snd (CDPSocket.emit E s event args w)) = servers w.
Proof.
  unfold CDPSocket.emit. destruct (sockets w !! s); [|reflexivity].
  cbv zeta. destruct (CDPSocket.split_callback args) as [[f|] args']; simpl;
    [unfold CDPSocket.once; now rewrite servers_add_listener | reflexivity].
Qed.

Lemma servers_invoke (f : func) (args : list value) (w : world) :
  servers (CDPSocket.invoke E f args w) = servers w.
Proof. destruct f; simpl; [reflexivity | apply servers_emit]. Qed.

Lemma servers_super_emit (s : nat) (event : string) (args : list value) (w w' : world) :
  CDPSocket.super_emit E s event args w = Some w' -> servers w' = servers w.
Proof.
  unfold CDPSocket.super_emit. destruct (sockets w !! s) as [sk|]; [|discriminate].
  destruct (List.filter _ (_listeners sk)) as [|l fired].
  - destruct (String.eqb event "error"); [discriminate|]. now intros [= <-].
  - intros Heq. injection Heq as <-.
    apply (fold_left_preserves servers
             (fun w0 l0 => CDPSocket.invoke E (l_fn l0) args w0) (l :: fired)
             (CDPSocket.set_socket s _ w)).
    intros; apply servers_invoke.
Qed.

Lemma servers_after_decode (s : nat) (decoded : value) (w : world) :
  servers (CDPSocket.after_decode E s decoded w) = servers w.
Proof.
  unfold CDPSocket.after_decode.
  repeat (break_match; try reflexivity).
  eapply servers_super_emit; eassumption.
Qed.

Lemma servers_after_encode (s : nat) (encoded : value) (w : world) :
  servers (CDPSocket.after_encode E s encoded w) = servers w.
Proof.
  unfold CDPSocket.after_encode, CDPSocket.catch_ignore.
  repeat (break_match; try reflexivity). apply servers_send.
Qed.

Lemma servers_run_job (j : job) (w : world) :
  servers (CDPSocket.run_job E j w) = servers w.
Proof.
  destruct j as [s [v|] | s [v|]]; simpl;
    [apply servers_after_encode | reflexivity | apply servers_after_decode | reflexivity].
Qed.

Lemma servers_tick (w : world) : servers (CDPSocket.tick E w) = servers w.
Proof.
  unfold CDPSocket.tick. destruct (jobs w); [reflexivity|].
  now rewrite servers_run_job.
Qed.

Lemma servers_process (s : nat) (ev : BindingCalledEvent) (w : world) :
  servers (CDPSocket.processCDPRuntimeBinding E s ev w) = servers w.
Proof. unfold CDPSocket.processCDPRuntimeBinding. crunch. Qed.

Lemma servers_notify (c : nat) (ev : BindingCalledEvent) (w : world) :
  servers (CDPSocket.notify E c ev w) = servers w.
Proof.
  unfold CDPSocket.notify. destruct (clients w !! c); [|reflexivity].
  apply (fold_left_preserves servers). intros; apply servers_process.
Qed.

Lemma servers_close (s : nat) (w : world) : servers (CDPSocket.close s w) = servers w.
Proof.
  unfold CDPSocket.close. destruct (sockets w !! s) as [sk|]; [|reflexivity].
  simpl. destruct (_cdpClient sk); [apply servers_client_off | reflexivity].
Qed.

Lemma registry_ok_attach (r c : nat) (w : world) :
  registry_ok w -> registry_ok (CDPSocketServer.attach_node r c w).
Proof.
  intros Hok. unfold CDPSocketServer.attach_node.
  destruct (servers w !! r) as [sv|] eqn:Hr; [|exact Hok].
  pose proof (servers_init c (_fullNamespace sv) w) as Hs.
  destruct (CDPSocket.init c (_fullNamespace sv) w) as [[s|] w1]; simpl in Hs.
  - apply (registry_ok_same_map w1 r sv); try reflexivity.
    + now apply (registry_ok_servers w).
    + now rewrite Hs.
  - now apply (registry_ok_servers w).
Qed.

Lemma registry_ok_close_node (r : nat) (w : world) :
  registry_ok w -> registry_ok (CDPSocketServer.close_node r w).
Proof.
  intros Hok. unfold CDPSocketServer.close_node.
  destruct (servers w !! r) as [sv|] eqn:Hr; [|exact Hok].
  destruct (_cdpSocket sv) as [s|].
  - apply (registry_ok_same_map _ r sv); try reflexivity.
    + apply (registry_ok_servers w); [apply servers_close | exact Hok].
    + now rewrite servers_close.
  - now apply (registry_ok_same_map _ r sv).
Qed.

Lemma registry_ok_run_op (o : op) (w : world) :
  registry_ok w -> registry_ok (run_op E o w).
Proof.
  intros Hok.
  assert (Hsame : forall w', servers w' = servers w -> registry_ok w')
    by (intros w' Heq; now apply (registry_ok_servers w)).
  destruct o; simpl.
  - now apply Hsame.
  - apply Hsame, servers_set_responsive.
  - now apply registry_ok_new.
  - destruct (CDPSocketServer.of_ r namespace w) as [[x w']|] eqn:Hof; [|exact Hok].
    now apply (registry_ok_of w w' r namespace x).
  - exact Hok.
  - now apply registry_ok_attach.
  - apply Hsame. unfold CDPSocketServer.emit. repeat (break_match; try reflexivity).
    apply servers_emit.
  - now apply registry_ok_close_node.
  - apply Hsame, servers_init.
  - exact Hok.
  - apply Hsame, servers_add_listener.
  - apply Hsame, servers_add_listener.
  - apply Hsame, servers_emit.
  - apply Hsame, servers_close.
  - apply Hsame, servers_close.
  - apply Hsame, servers_notify.
  - apply Hsame, servers_invoke.
  - apply Hsame, servers_tick.
Qed.

Lemma registry_ok_run (ops : list op) (w : world) :
  registry_ok w -> registry_ok (run E ops w).
Proof.
  revert w. induction ops as [|o ops IH]; intros w Hok; [exact Hok|].
  simpl. apply IH. now apply registry_ok_run_op.
Qed.

End ServersFrame.

Section RegistryGrows.

Context (E : Env).

Lemma grows_refl (w : world) : registry_grows w w.
Proof. intros r sv Hr. exists sv. auto. Qed.

Lemma grows_trans (w1 w2 w3 : world) :
  registry_grows w1 w2 -> registry_grows w2 w3 -> registry_grows w1 w3.
Proof.
  intros H12 H23 r sv Hr.
  destruct (H12 r sv Hr) as [sv2 [Hr2 [Hp2 [Hf2 Hm2]]]].
  destruct (H23 r sv2 Hr2) as [sv3 [Hr3 [Hp3 [Hf3 Hm3]]]].
  exists sv3. repeat split; try congruence. auto.
Qed.

Lemma grows_servers (w w' : world) : servers w' = servers w -> registry_grows w w'.
Proof. intros Heq r sv Hr. exists sv. rewrite Heq. auto. Qed.

Lemma grows_new (w : world) (path namespace : option string) :
  registry_grows w (snd (CDPSocketServer.new path namespace w)).
Proof.
  intros r sv Hr. exists sv. simpl. rewrite lookup_app_l; [auto|].
  now apply lookup_lt_Some in Hr.
Qed.

Lemma grows_set_server (w : world) (r : nat) (sv sv' : Server) :
  servers w !! r = Some sv ->
  _path sv' = _path sv -> _fullNamespace sv' = _fullNamespace sv ->
  (forall key c, _namespaceMap sv !! key = Some c -> _namespaceMap sv' !! key = Some c) ->
  registry_grows w (CDPSocketServer.set_server r sv' w).
Proof.
  intros Hr Hp Hf Hm r0 sv0 Hr0. simpl.
  assert (Hlt : r < length (servers w)) by now apply lookup_lt_Some in Hr.
  destruct (decide (r = r0)) as [->|Hne].
  - exists sv'. rewrite list_lookup_insert_eq by exact Hlt.
    rewrite Hr in Hr0. injection Hr0 as <-. auto.
  - exists sv0. rewrite list_lookup_insert_ne by exact Hne. auto.
Qed.

Lemma grows_of (w w' : world) (r : nat) (namespace : string) (x : jsref) :
  CDPSocketServer.of_ r namespace w = Some (x, w') -> registry_grows w w'.
Proof.
  intros Hof. unfold CDPSocketServer.of_ in Hof.
  destruct (servers w !! r) as [sv|] eqn:Hr; [|discriminate]. cbv zeta in Hof.
  destruct (_namespaceMap sv !! (_path sv +:+ namespace)) as [y|] eqn:Hn.
  { injection Hof as _ <-. apply grows_refl. }
  destruct (Js.inherited (_path sv +:+ namespace)).
  { injection Hof as _ <-. apply grows_refl. }
  injection Hof as _ <-.
  eapply grows_trans; [apply (grows_new w (Some (_path sv)) (Some namespace))|].
  apply (grows_set_server _ r sv); try reflexivity.
  - simpl. rewrite lookup_app_l; [exact Hr|]. now apply lookup_lt_Some in Hr.
  - intros key c Hc. simpl.
    rewrite lookup_insert_ne; [exact Hc|]. intros <-. congruence.
Qed.

Lemma grows_attach (r c : nat) (w : world) :
  registry_grows w (CDPSocketServer.attach_node r c w).
Proof.
  unfold CDPSocketServer.attach_node.
  destruct (servers w !! r) as [sv|] eqn:Hr; [|apply grows_refl].
  pose proof (servers_init c (_fullNamespace sv) w) as Hs.
  destruct (CDPSocket.init c (_fullNamespace sv) w) as [[s|] w1]; simpl in Hs.
  - eapply grows_trans; [apply (grows_servers w w1 Hs)|].
    apply (grows_set_server w1 r sv); auto. now rewrite Hs.
  - now apply grows_servers.
Qed.

Lemma grows_close_node (r : nat) (w : world) :
  registry_grows w (CDPSocketServer.close_node r w).
Proof.
  unfold CDPSocketServer.close_node.
  destruct (servers w !! r) as [sv|] eqn:Hr; [|apply grows_refl].
  destruct (_cdpSocket sv) as [s|].
  - eapply grows_trans; [apply (grows_servers w _ (servers_close s w))|].
    apply (grows_set_server _ r sv); auto. now rewrite servers_close.
  - apply (grows_set_server _ r sv); auto.
Qed.

Lemma grows_run_op (o : op) (w : world) : registry_grows w (run_op E o w).
Proof.
  destruct o; simpl.
  - now apply grows_servers.
  - apply grows_servers, servers_set_responsive.
  - apply grows_new.
  - destruct (CDPSocketServer.of_ r namespace w) as [[x w']|] eqn:Hof; [|apply grows_refl].
    now apply (grows_of w w' r namespace x).
  - apply grows_refl.
  - apply grows_attach.
  - apply grows_servers. unfold CDPSocketServer.emit.
    repeat (break_match; try reflexivity). apply servers_emit.
  - apply grows_close_node.
  - apply grows_servers, servers_init.
  - apply grows_refl.
  - apply grows_servers, servers_add_listener.
  - apply grows_servers, servers_add_listener.
  - apply grows_servers, servers_emit.
  - apply grows_servers, servers_close.
  - apply grows_servers, servers_close.
  - apply grows_servers, servers_notify.
  - apply grows_servers, servers_invoke.
  - apply grows_servers, servers_tick.
Qed.

Lemma grows_run (ops : list op) (w : world) : registry_grows w (run E ops w).
Proof.
  revert w. induction ops as [|o ops IH]; intros w; [apply grows_refl|].
  simpl. eapply grows_trans; [apply grows_run_op | apply IH].
Qed.

(** What [of] returns: a child with the parent's path and the key as full
    namespace, stored under that key; a new node if the key was not held. *)
Lemma of_child (w : world) (r : nat) (sv : Server) (namespace : string) :
  registry_ok w ->
  servers w !! r = Some sv ->
  Js.inherited (_path sv +:+ namespace) = false ->
  exists (c : nat) (w' : world) (sv' ch : Server),
    CDPSocketServer.of_ r namespace w = Some (Node c, w') /\
    registry_ok w' /\ registry_grows w w' /\
    servers w' !! r = Some sv' /\ _path sv' = _path sv /\
    _namespaceMap sv' !! (_path sv +:+ namespace) = Some c /\
    servers w' !! c = Some ch /\ _path ch = _path sv /\
    _fullNamespace ch = _path sv +:+ namespace /\
    (_namespaceMap sv !! (_path sv +:+ namespace) = None ->
       c = length (servers w) /\ length (servers w') = S (length (servers w))).
Proof.
  intros Hok Hr Hi.
  destruct (_namespaceMap sv !! (_path sv +:+ namespace)) as [c|] eqn:Hc.
  - destruct (Hok r sv _ c Hr Hc) as [ch [Hch [Hp Hf]]].
    exists c, w, sv, ch. rewrite (of_existing w r sv namespace c Hr Hc).
    repeat (split; [solve [auto using grows_refl]|]). discriminate.
  - pose proof (of_fresh w r sv namespace Hr Hc Hi) as Hof.
    pose proof (registry_ok_of _ _ _ _ _ Hok Hof) as Hok'.
    pose proof (grows_of _ _ _ _ _ Hof) as Hg.
    assert (Hlt : r < length (servers w)) by now apply lookup_lt_Some in Hr.
    eexists _, _, _, _. split; [exact Hof|].
    split; [exact Hok'|]. split; [exact Hg|].
    split. { simpl. apply list_lookup_insert_eq. rewrite length_app. simpl. lia. }
    split; [reflexivity|].
    split. { simpl. apply lookup_insert_eq. }
    split. { simpl. rewrite list_lookup_insert_ne by lia.
             rewrite lookup_app_r by lia. rewrite Nat.sub_diag. reflexivity. }
    split; [reflexivity|]. split; [reflexivity|].
    intros _. split; [reflexivity|]. simpl.
    rewrite length_insert, length_app. simpl. lia.
Qed.

End RegistryGrows.

Section RegistryClaims.

(** [r.of(a).of(b)]: the grandchild carries the root's path followed by
    [b] alone. *)
Lemma of_of_child (w : world) (r : nat) (sv : Server) (a b : string) :
  registry_ok w ->
  servers w !! r = Some sv ->
  Js.inherited (_path sv +:+ a) = false ->
  Js.inherited (_path sv +:+ b) = false ->
  exists (x : nat) (w' : world) (ch : Server),
    CDPSocketServer.of_of r a b w = Some (Returns (Node x, w')) /\
    registry_ok w' /\ registry_grows w w' /\
    servers w' !! x = Some ch /\ _path ch = _path sv /\
    _fullNamespace ch = _path sv +:+ b.
Proof.
  intros Hok Hr Hia Hib.
  destruct (of_child w r sv a Hok Hr Hia)
    as (c & w1 & sv1 & ch1 & Hof1 & Hok1 & Hg1 & _ & _ & _ & Hc1 & Hp1 & _ & _).
  assert (Hib1 : Js.inherited (_path ch1 +:+ b) = false) by now rewrite Hp1.
  destruct (of_child w1 c ch1 b Hok1 Hc1 Hib1)
    as (x & w2 & sv2 & ch2 & Hof2 & Hok2 & Hg2 & _ & _ & _ & Hx & Hp2 & Hf2 & _).
  exists x, w2, ch2. unfold CDPSocketServer.of_of. rewrite Hof1, Hof2.
  split; [reflexivity|]. split; [exact Hok2|].
  split; [eapply grows_trans; eassumption|].
  split; [exact Hx|]. split; congruence.
Qed.

Lemma reachable_registry_ok (E : Env) (w : world) : reachable E w -> registry_ok w.
Proof. intros [ops ->]. apply registry_ok_run, registry_ok_empty. Qed.

End RegistryClaims.

Section OwnKeys.

Variable E : Env.

Lemma own_keys_ok_empty : own_keys_ok empty_world.
Proof. intros r sv key c Hr. destruct r; discriminate Hr. Qed.

Lemma own_keys_ok_servers (w w' : world) :
  servers w' = servers w -> own_keys_ok w -> own_keys_ok w'.
Proof. intros Heq Hok r sv key c. rewrite Heq. apply Hok. Qed.

Lemma own_keys_ok_same_map (w : world) (r : nat) (sv sv' : Server) :
  own_keys_ok w -> servers w !! r = Some sv -> _namespaceMap sv' = _namespaceMap sv ->
  own_keys_ok (CDPSocketServer.set_server r sv' w).
Proof.
  intros Hok Hr Hm r0 sv0 key c Hr0 Hc. simpl in Hr0.
  assert (Hlt : r < length (servers w)) by now apply lookup_lt_Some in Hr.
  destruct (decide (r = r0)) as [->|Hne].
  - rewrite list_lookup_insert_eq in Hr0 by exact Hlt. injection Hr0 as <-.
    rewrite Hm in Hc. exact (Hok r0 sv key c Hr Hc).
  - rewrite list_lookup_insert_ne in Hr0 by exact Hne. exact (Hok r0 sv0 key c Hr0 Hc).
Qed.

Lemma own_keys_ok_new (w : world) (path namespace : option string) :
  own_keys_ok w -> own_keys_ok (snd (CDPSocketServer.new path namespace w)).
Proof.
  intros Hok r sv key c Hr Hc. simpl in Hr.
  apply lookup_app_Some in Hr as [Hr | [_ Hr]].
  - exact (Hok r sv key c Hr Hc).
  - apply list_lookup_singleton_Some in Hr as [_ <-]. simpl in Hc.
    rewrite lookup_empty in Hc. discriminate.
Qed.

Lemma own_keys_ok_of (w w' : world) (r : nat) (namespace : string) (x : jsref) :
  own_keys_ok w -> CDPSocketServer.of_ r namespace w = Some (x, w') -> own_keys_ok w'.
Proof.
  intros Hok Hof. unfold CDPSocketServer.of_ in Hof.
  destruct (servers w !! r) as [sv|] eqn:Hr; [|discriminate]. cbv zeta in Hof.
  destruct (_namespaceMap sv !! (_path sv +:+ namespace)) as [y|] eqn:Hn.
  { injection Hof as _ <-. exact Hok. }
  destruct (Js.inherited (_path sv +:+ namespace)) eqn:Hi.
  { injection Hof as _ <-. exact Hok. }
  simpl in Hof. injection Hof as _ <-.
  assert (Hlt : r < length (servers w)) by now apply lookup_lt_Some in Hr.
  intros r0 sv0 key c Hr0 Hc. simpl in Hr0.
  destruct (decide (r = r0)) as [->|Hne].
  - rewrite list_lookup_insert_eq in Hr0 by (rewrite length_app; simpl; lia).
    injection Hr0 as <-. simpl in Hc.
    destruct (decide (_path sv +:+ namespace = key)) as [<-|Hk]; [exact Hi|].
    rewrite lookup_insert_ne in Hc by exact Hk. exact (Hok r0 sv key c Hr Hc).
  - rewrite list_lookup_insert_ne in Hr0 by exact Hne.
    apply lookup_app_Some in Hr0 as [Hr0 | [_ Hr0]].
    + exact (Hok r0 sv0 key c Hr0 Hc).
    + apply list_lookup_singleton_Some in Hr0 as [_ <-]. simpl in Hc.
      rewrite lookup_empty in Hc. discriminate.
Qed.

Lemma own_keys_ok_run_op (o : op) (w : world) : own_keys_ok w -> own_keys_ok (run_op E o w).
Proof.
  intros Hok.
  assert (Hsame : forall w', servers w' = servers w -> own_keys_ok w')
    by (intros w' Heq; now apply (own_keys_ok_servers w)).
  destruct o; simpl.
  - now apply Hsame.
  - apply Hsame, servers_set_responsive.
  - now apply own_keys_ok_new.
  - destruct (CDPSocketServer.of_ r namespace w) as [[x w']|] eqn:Hof; [|exact Hok].
    now apply (own_keys_ok_of w w' r namespace x).
  - exact Hok.
  - unfold CDPSocketServer.attach_node.
    destruct (servers w !! r) as [sv|] eqn:Hr; [|exact Hok].
    pose proof (servers_init c (_fullNamespace sv) w) as Hs.
    destruct (CDPSocket.init c (_fullNamespace sv) w) as [[s|] w1]; simpl in Hs.
    + apply (own_keys_ok_same_map w1 r sv); [now apply Hsame | now rewrite Hs | reflexivity].
    + now apply Hsame.
  - apply Hsame. unfold CDPSocketServer.emit. repeat (break_match; try reflexivity).
    apply servers_emit.
  - unfold CDPSocketServer.close_node.
    destruct (servers w !! r) as [sv|] eqn:Hr; [|exact Hok].
    destruct (_cdpSocket sv) as [s|].
    + apply (own_keys_ok_same_map _ r sv); [|now rewrite servers_close | reflexivity].
      apply Hsame, servers_close.
    + now apply (own_keys_ok_same_map _ r sv).
  - apply Hsame, servers_init.
  - exact Hok.
  - apply Hsame, servers_add_listener.
  - apply Hsame, servers_add_listener.
  - apply Hsame, servers_emit.
  - apply Hsame, servers_close.
  - apply Hsame, servers_close.
  - apply Hsame, servers_notify.
  - apply Hsame, servers_invoke.
  - apply Hsame, servers_tick.
Qed.

Lemma reachable_own_keys_ok (w : world) : reachable E w -> own_keys_ok w.
Proof.
  intros [ops ->]. unfold run. generalize empty_world, own_keys_ok_empty.
  induction ops as [|o ops IH]; intros w Hok; [exact Hok|].
  simpl. apply IH. now apply own_keys_ok_run_op.
Qed.

(** Where [of] returns a node, the key names no inherited member. *)
Lemma of_node_not_inherited (w w' : world) (r : nat) (sv : Server) (namespace : string)
      (c : nat) :
  own_keys_ok w ->
  servers w !! r = Some sv ->
  CDPSocketServer.of_ r namespace w = Some (Node c, w') ->
  Js.inherited (_path sv +:+ namespace) = false.
Proof.
  intros Hok Hr Hof. unfold CDPSocketServer.of_ in Hof. rewrite Hr in Hof. cbv zeta in Hof.
  destruct (_namespaceMap sv !! (_path sv +:+ namespace)) as [y|] eqn:Hn.
  - exact (Hok r sv _ y Hr Hn).
  - destruct (Js.inherited (_path sv +:+ namespace)); [discriminate Hof | reflexivity].
Qed.

(** In a reachable store [of] on a key that names an inherited member
    creates nothing and returns the member. *)
Lemma of_builtin (w : world) (r : nat) (sv : Server) (namespace : string) :
  reachable E w ->
  servers w !! r = Some sv ->
  Js.inherited (_path sv +:+ namespace) = true ->
  CDPSocketServer.of_ r namespace w = Some (Builtin (_path sv +:+ namespace), w).
Proof.
  intros Hreach Hr Hi. apply (of_inherited w r sv namespace Hr); [|exact Hi].
  destruct (_namespaceMap sv !! (_path sv +:+ namespace)) as [c|] eqn:Hc; [|reflexivity].
  pose proof (reachable_own_keys_ok w Hreach r sv _ c Hr Hc). congruence.
Qed.

End OwnKeys.

Example of_of_sample :
  exists w', CDPSocketServer.of_of 0 "/a" "/b"
               (snd (CDPSocketServer.new (Some "/__socket") None empty_world))
             = Some (Returns (Node 2, w'))
             /\ CDPSocketServer.fullNamespace_of 2 w' = Some "/__socket/b".
Proof. eexists. split; [vm_compute; reflexivity | reflexivity]. Qed.

(** C7. The claim fails on the code where the key names a member that the
    map object inherits: on every registry node of a reachable store and
    for every suffix such that the node's path followed by the suffix is
    such a name, [of] creates no child; it returns the inherited member
    and leaves the store as it is, the first time and every time. *)
Theorem of_on_inherited_member_name_creates_no_child
        (E : Env) (w : world) (r : nat) (sv : Server) (s : string) :
  reachable E w ->
  servers w !! r = Some sv ->
  Js.inherited (_path sv +:+ s) = true ->
  CDPSocketServer.of_ r s w = Some (Builtin (_path sv +:+ s), w)
  /\ forall ops : list op,
       exists sv' : Server,
         servers (run E ops w) !! r = Some sv'
         /\ _namespaceMap sv' !! (_path sv +:+ s) = None
         /\ CDPSocketServer.of_ r s (run E ops w)
            = Some (Builtin (_path sv +:+ s), run E ops w).
Proof.
  intros Hreach Hr Hi. split; [now apply (of_builtin E)|].
  intros ops. destruct (grows_run E ops w r sv Hr) as (sv' & Hr' & Hp' & _ & _).
  assert (Hreach' : reachable E (run E ops w)).
  { destruct Hreach as [ops0 ->]. exists (ops0 ++ ops). unfold run. now rewrite fold_left_app. }
  exists sv'. split; [exact Hr'|]. split.
  - destruct (_namespaceMap sv' !! (_path sv +:+ s)) as [c|] eqn:Hc; [|reflexivity].
    pose proof (reachable_own_keys_ok E _ Hreach' r sv' _ c Hr' Hc). congruence.
  - rewrite <- Hp'. apply (of_builtin E _ r sv' s Hreach' Hr'). now rewrite Hp'.
Qed.

Lemma of_on_inherited_member_name_creates_no_child_witness :
  let w := snd (CDPSocketServer.new None None empty_world) in
  CDPSocketServer.of_ 0 "constructor" w = Some (Builtin "constructor", w)
  /\ servers w = [mkServer None "/default" EmptyString ∅].
Proof.
  split; [|reflexivity].
  apply (of_on_inherited_member_name_creates_no_child Sample.env
           (snd (CDPSocketServer.new None None empty_world)) 0
           (mkServer None "/default" EmptyString ∅) "constructor").
  - exists [OpNewServer None None]. reflexivity.
  - reflexivity.
  - reflexivity.
Defined.

(** C8, as the code has it.  On every registry node of a reachable store,
    whatever its path, and for suffixes [a] and [b] that differ (and whose
    keys name no inherited member), the node reached by [of(a).of(b)] and
    the one reached by [of(b).of(a)] have different full namespaces: the
    first is the path followed by [b], the second the path followed by
    [a].  Only the last suffix counts: neither namespace is the path
    followed by both suffixes. *)
Theorem of_a_of_b_differs_from_of_b_of_a
        (E : Env) (w : world) (r : nat) (sv : Server) (a b : string) :
  reachable E w ->
  servers w !! r = Some sv ->
  Js.inherited (_path sv +:+ a) = false ->
  Js.inherited (_path sv +:+ b) = false ->
  a <> b ->
  exists (x y : nat) (w1 w2 : world) (nx ny : string),
    CDPSocketServer.of_of r a b w = Some (Returns (Node x, w1)) /\
    CDPSocketServer.of_of r b a w1 = Some (Returns (Node y, w2)) /\
    CDPSocketServer.fullNamespace_of x w2 = Some nx /\
    CDPSocketServer.fullNamespace_of y w2 = Some ny /\
    nx = _path sv +:+ b /\ ny = _path sv +:+ a /\ nx <> ny /\
    (a <> EmptyString -> nx <> (_path sv +:+ a) +:+ b) /\
    (b <> EmptyString -> ny <> (_path sv +:+ b) +:+ a).
Proof.
  intros Hreach Hr Hia Hib Hab. pose proof (reachable_registry_ok E w Hreach) as Hok.
  destruct (of_of_child w r sv a b Hok Hr Hia Hib)
    as (x & w1 & chx & Hofab & Hok1 & Hg1 & Hx & _ & Hfx).
  destruct (Hg1 r sv Hr) as (sv1 & Hr1 & Hp1 & _ & _).
  assert (Hib1 : Js.inherited (_path sv1 +:+ b) = false) by now rewrite Hp1.
  assert (Hia1 : Js.inherited (_path sv1 +:+ a) = false) by now rewrite Hp1.
  destruct (of_of_child w1 r sv1 b a Hok1 Hr1 Hib1 Hia1)
    as (y & w2 & chy & Hofba & _ & Hg2 & Hy & _ & Hfy).
  destruct (Hg2 x chx Hx) as (chx2 & Hx2 & _ & Hfx2 & _).
  assert (Hgrow : forall p q : string, q <> EmptyString -> p +:+ b <> (p +:+ q) +:+ b).
  { intros p q Hq Heq. rewrite append_assoc in Heq. apply append_inj_l in Heq.
    apply (f_equal String.length) in Heq. rewrite string_length_append in Heq.
    destruct q; [now apply Hq | simpl in Heq; lia]. }
  assert (Hgrow' : forall p q : string, q <> EmptyString -> p +:+ a <> (p +:+ q) +:+ a).
  { intros p q Hq Heq. rewrite append_assoc in Heq. apply append_inj_l in Heq.
    apply (f_equal String.length) in Heq. rewrite string_length_append in Heq.
    destruct q; [now apply Hq | simpl in Heq; lia]. }
  exists x, y, w1, w2, (_path sv +:+ b), (_path sv +:+ a).
  split; [exact Hofab|]. split; [exact Hofba|].
  unfold CDPSocketServer.fullNamespace_of. rewrite Hx2, Hy. simpl.
  split; [congruence|]. split; [congruence|].
  split; [reflexivity|]. split; [reflexivity|].
  split; [|split].
  - intros Heq. apply append_inj_l in Heq. congruence.
  - now apply Hgrow.
  - now apply Hgrow'.
Qed.

Lemma of_a_of_b_differs_from_of_b_of_a_witness :
  exists (x y : nat) (w1 w2 : world) (nx ny : string),
    CDPSocketServer.of_of 0 "/a" "/b"
      (snd (CDPSocketServer.new (Some "/__socket") None empty_world))
      = Some (Returns (Node x, w1)) /\
    CDPSocketServer.of_of 0 "/b" "/a" w1 = Some (Returns (Node y, w2)) /\
    CDPSocketServer.fullNamespace_of x w2 = Some nx /\
    CDPSocketServer.fullNamespace_of y w2 = Some ny /\
    nx = "/__socket" +:+ "/b" /\ ny = "/__socket" +:+ "/a" /\ nx <> ny.
Proof.
  destruct (of_a_of_b_differs_from_of_b_of_a Sample.env
              (snd (CDPSocketServer.new (Some "/__socket") None empty_world)) 0
              (mkServer None "/__socket/default" "/__socket" ∅) "/a" "/b")
    as (x & y & w1 & w2 & nx & ny & H1 & H2 & H3 & H4 & H5 & H6 & H7 & _).
  - exists [OpNewServer (Some "/__socket") None]. reflexivity.
  - reflexivity.
  - reflexivity.
  - reflexivity.
  - discriminate.
  - exists x, y, w1, w2, nx, ny. auto 10.
Defined.

(** C8 as stated fails: the suffixes are not concatenated.  On a registry
    with path ["/__socket"] the node reached by [of("/a").of("/b")] has
    the full namespace ["/__socket/b"], in which ["/a"] has left no trace,
    the same as the node reached by [of("/c").of("/b")]. *)
Lemma of_of_does_not_concatenate :
  let w := snd (CDPSocketServer.new (Some "/__socket") None empty_world) in
  exists w1 w2 : world,
    CDPSocketServer.of_of 0 "/a" "/b" w = Some (Returns (Node 2, w1))
    /\ CDPSocketServer.fullNamespace_of 2 w1 = Some "/__socket/b"
    /\ CDPSocketServer.fullNamespace_of 2 w1 <> Some "/__socket/a/b"
    /\ CDPSocketServer.of_of 0 "/c" "/b" w1 = Some (Returns (Node 4, w2))
    /\ CDPSocketServer.fullNamespace_of 4 w2 = CDPSocketServer.fullNamespace_of 2 w2.
Proof.
  eexists _, _. split; [vm_compute; reflexivity|]. split; [reflexivity|].
  split; [discriminate|]. split; [vm_compute; reflexivity | reflexivity].
Qed.

(** C10. The claim fails on the code where the first suffix makes a key
    that names an inherited member: on every registry node of a reachable
    store, for such a suffix [a] and every [b], [r.of(a)] is the inherited
    member, which has no [of], and [r.of(a).of(b)] throws. *)
Theorem nested_of_on_inherited_member_name_throws
        (E : Env) (w : world) (r : nat) (sv : Server) (a b : string) :
  reachable E w ->
  servers w !! r = Some sv ->
  Js.inherited (_path sv +:+ a) = true ->
  CDPSocketServer.of_ r a w = Some (Builtin (_path sv +:+ a), w)
  /\ CDPSocketServer.of_of r a b w = Some Throws_TypeError.
Proof.
  intros Hreach Hr Hi. pose proof (of_builtin E w r sv a Hreach Hr Hi) as Hof.
  split; [exact Hof|]. unfold CDPSocketServer.of_of. now rewrite Hof.
Qed.

Lemma nested_of_on_inherited_member_name_throws_witness :
  let w := snd (CDPSocketServer.new None None empty_world) in
  CDPSocketServer.of_of 0 "constructor" "/b" w = Some Throws_TypeError
  /\ exists w' : world,
       CDPSocketServer.of_ 0 "/b" w = Some (Node 1, w')
       /\ CDPSocketServer.fullNamespace_of 1 w' = Some "/b".
Proof.
  split.
  - apply (nested_of_on_inherited_member_name_throws Sample.env
             (snd (CDPSocketServer.new None None empty_world)) 0
             (mkServer None "/default" EmptyString ∅) "constructor" "/b").
    + exists [OpNewServer None None]. reflexivity.
    + reflexivity.
    + reflexivity.
  - eexists. split; reflexivity.
Defined.

(** ** The bridge *)

Section BridgeFacts.

Context (E : Env).

Lemma binding_name_inj (a b : string) :
  CDPSocket.binding_name a = CDPSocket.binding_name b -> a = b.
Proof. unfold CDPSocket.binding_name. apply append_inj_l. Qed.


Lemma lookup_set_socket_ne (w : world) (s b : nat) (sk' : Socket) :
  s <> b -> sockets (CDPSocket.set_socket s sk' w) !! b = sockets w !! b.
Proof. intros Hne. simpl. now apply list_lookup_insert_ne. Qed.

(** A notification under another binding name is ignored. *)
Lemma process_mismatch (w : world) (b : nat) (skb : Socket) (ev : BindingCalledEvent) :
  sockets w !! b = Some skb ->
  name ev <> CDPSocket.binding_name (_namespace skb) ->
  CDPSocket.processCDPRuntimeBinding E b ev w = w.
Proof.
  intros Hb Hne. unfold CDPSocket.processCDPRuntimeBinding. rewrite Hb.
  destruct (String.eqb (name ev) (CDPSocket.binding_name (_namespace skb))) eqn:Heq;
    [|reflexivity].
  apply String.eqb_eq in Heq. contradiction.
Qed.

(** A notification under the bridge's own binding name records the
    execution context and hands the payload to the codec. *)
Lemma process_match (w : world) (s : nat) (sk : Socket) (ev : BindingCalledEvent) :
  sockets w !! s = Some sk ->
  name ev = CDPSocket.binding_name (_namespace sk) ->
  CDPSocket.processCDPRuntimeBinding E s ev w =
    let w1 := CDPSocket.set_socket s
                (mkSocket (_cdpClient sk) (_namespace sk) (Some (executionContextId ev))
                   (_listeners sk)) w in
    match JSON_parse E (payload ev) with
    | Some data => enqueue (AfterDecode s (decode E data)) w1
    | None => unhandled_rejection w1
    end.
Proof.
  intros Hs Hn. unfold CDPSocket.processCDPRuntimeBinding. rewrite Hs, Hn.
  now rewrite String.eqb_refl.
Qed.

(** What the handler of bridge [s] does to another bridge [b]: nothing to
    the object, and no inbound job for it. *)
Lemma process_other (w : world) (s b : nat) (ev : BindingCalledEvent) :
  s <> b ->
  sockets (CDPSocket.processCDPRuntimeBinding E s ev w) !! b = sockets w !! b /\
  List.filter (inbound_of b) (jobs (CDPSocket.processCDPRuntimeBinding E s ev w))
    = List.filter (inbound_of b) (jobs w).
Proof.
  intros Hne. unfold CDPSocket.processCDPRuntimeBinding.
  destruct (sockets w !! s) as [sk|] eqn:Hs; [|auto].
  destruct (negb _); [auto|].
  destruct (JSON_parse E (payload ev)) as [data|]; simpl.
  - split; [now apply list_lookup_insert_ne|].
    rewrite List.filter_app. simpl.
    destruct (Nat.eqb_spec s b); [contradiction|]. now rewrite app_nil_r.
  - split; [now apply list_lookup_insert_ne | reflexivity].
Qed.

Lemma notify_mismatch_list (subs : list nat) (w : world) (b : nat) (skb : Socket)
      (ev : BindingCalledEvent) :
  sockets w !! b = Some skb ->
  name ev <> CDPSocket.binding_name (_namespace skb) ->
  let w' := fold_left (fun w0 s => CDPSocket.processCDPRuntimeBinding E s ev w0) subs w in
  sockets w' !! b = Some skb /\
  List.filter (inbound_of b) (jobs w') = List.filter (inbound_of b) (jobs w).
Proof.
  revert w. induction subs as [|s subs IH]; intros w Hb Hne; simpl; [auto|].
  destruct (decide (s = b)) as [->|Hsb].
  - rewrite (process_mismatch w b skb ev Hb Hne). now apply IH.
  - destruct (process_other w s b ev Hsb) as [Hsock Hjobs].
    rewrite <- Hjobs. apply IH; [|exact Hne]. now rewrite Hsock.
Qed.

(** A bridge made by [init]: the binding registered last on its client is
    the one its handler filters on, and the handler is subscribed. *)
Lemma init_registers_binding (c : nat) (namespace : string) (w0 w' : world) (s : nat) :
  CDPSocket.init c namespace w0 = (Some s, w') ->
  sockets w' !! s = Some (mkSocket (Some c) namespace None [])
  /\ exists cl : Client,
       clients w' !! c = Some cl
       /\ last (sent cl) = Some (Runtime_addBinding (CDPSocket.binding_name namespace))
       /\ last (subscribers cl) = Some s.
Proof.
  unfold CDPSocket.init, CDPClient.send.
  destruct (clients w0 !! c) as [cl0|] eqn:Hc0; [|discriminate].
  assert (Hlt : c < length (clients w0)) by now apply lookup_lt_Some in Hc0.
  destruct (responsive cl0) eqn:Hresp; [|discriminate].
  simpl. rewrite list_lookup_insert_eq by exact Hlt. simpl.
  unfold CDPClient.on. simpl.
  rewrite list_lookup_insert_eq by (rewrite length_insert; exact Hlt).
  intros [= <- <-]. simpl. split.
  - rewrite lookup_app_r by lia. now rewrite Nat.sub_diag.
  - eexists. split.
    + apply list_lookup_insert_eq. rewrite !length_insert. exact Hlt.
    + simpl. split; apply last_snoc.
Qed.

End BridgeFacts.

(** C1. A bridge for namespace N ignores every 'binding invoked'
    notification whose name is not ["cypressSendToServer-" + N]: its
    handler leaves the whole store as it was, and a notification that the
    client delivers to all subscribed handlers leaves the bridge object and
    the inbound jobs waiting for it as they were.  So the handler changes
    something only under the bridge's own binding name, which is the
    binding [init] registered for it, and a notification addressed to the
    binding name of a bridge on another namespace is ignored. *)
Theorem inbound_filtered_by_binding_name
        (E : Env) (w : world) (b : nat) (skb : Socket) :
  sockets w !! b = Some skb ->
  (forall ev : BindingCalledEvent,
      name ev <> CDPSocket.binding_name (_namespace skb) ->
      CDPSocket.processCDPRuntimeBinding E b ev w = w)
  /\ (forall ev : BindingCalledEvent,
      CDPSocket.processCDPRuntimeBinding E b ev w <> w ->
      name ev = "cypressSendToServer-" +:+ _namespace skb)
  /\ (forall (a : nat) (ska : Socket) (ev : BindingCalledEvent),
      sockets w !! a = Some ska ->
      _namespace ska <> _namespace skb ->
      name ev = CDPSocket.binding_name (_namespace ska) ->
      CDPSocket.processCDPRuntimeBinding E b ev w = w)
  /\ (forall (c : nat) (ev : BindingCalledEvent),
      name ev <> CDPSocket.binding_name (_namespace skb) ->
      sockets (CDPSocket.notify E c ev w) !! b = Some skb /\
      List.filter (inbound_of b) (jobs (CDPSocket.notify E c ev w))
        = List.filter (inbound_of b) (jobs w))
  /\ (forall (c : nat) (w0 : world),
      CDPSocket.init c (_namespace skb) w0 = (Some b, w) ->
      exists cl : Client,
        clients w !! c = Some cl
        /\ last (sent cl) = Some (Runtime_addBinding ("cypressSendToServer-" +:+ _namespace skb))).
Proof.
  intros Hb. split; [|split; [|split; [|split]]].
  - intros ev Hne. now apply (process_mismatch E w b skb).
  - intros ev Hchg.
    destruct (string_dec (name ev) (CDPSocket.binding_name (_namespace skb))) as [Heq|Hne];
      [exact Heq|].
    exfalso. apply Hchg. now apply (process_mismatch E w b skb).
  - intros a ska ev Ha Hns Hname. apply (process_mismatch E w b skb ev Hb).
    rewrite Hname. intros Heq. apply binding_name_inj in Heq. contradiction.
  - intros c ev Hne. unfold CDPSocket.notify.
    destruct (clients w !! c) as [cl|]; [|auto].
    now apply (notify_mismatch_list E (subscribers cl) w b skb ev).
  - intros c w0 Hinit.
    destruct (init_registers_binding c _ w0 w b Hinit) as (_ & cl & Hcl & Hsent & _).
    exists cl. auto.
Qed.

Lemma inbound_filtered_by_binding_name_witness :
  CDPSocket.processCDPRuntimeBinding Sample.env 1
    (mkBindingCalled "cypressSendToServer-/a" Sample.ping_json 3) Sample.two_bridges
  = Sample.two_bridges.
Proof.
  apply (proj1 (inbound_filtered_by_binding_name Sample.env Sample.two_bridges 1
                  (mkSocket (Some 0) "/b" None []) eq_refl)).
  simpl. discriminate.
Defined.

(** ** Subscriptions and client references *)

Section LinksFrame.

Context (E : Env).

Lemma links_set_socket (w : world) (s : nat) (sk sk' : Socket) :
  sockets w !! s = Some sk -> _cdpClient sk' = _cdpClient sk ->
  links (CDPSocket.set_socket s sk' w) = links w.
Proof.
  intros Hs Hc. unfold links. simpl. f_equal.
  rewrite list_fmap_insert, Hc. apply list_insert_id.
  now rewrite list_lookup_fmap, Hs.
Qed.

Lemma links_set_client (w : world) (c : nat) (cl cl' : Client) :
  clients w !! c = Some cl -> subscribers cl' = subscribers cl ->
  links (set_clients (<[c := cl']> (clients w)) w) = links w.
Proof.
  intros Hc Hsub. unfold links. simpl. f_equal.
  rewrite list_fmap_insert, Hsub. apply list_insert_id.
  now rewrite list_lookup_fmap, Hc.
Qed.

Lemma links_send (c : nat) (cmd : command) (w : world) :
  links (snd (CDPClient.send c cmd w)) = links w.
Proof.
  unfold CDPClient.send. destruct (clients w !! c) as [cl|] eqn:Hc; [|reflexivity].
  simpl. now apply (links_set_client w c cl).
Qed.

Lemma links_set_responsive (c : nat) (b : bool) (w : world) :
  links (CDPClient.set_responsive c b w) = links w.
Proof.
  unfold CDPClient.set_responsive. destruct (clients w !! c) as [cl|] eqn:Hc; [|reflexivity].
  now apply (links_set_client w c cl).
Qed.

Lemma links_add_listener (s : nat) (l : listener) (w : world) :
  links (CDPSocket.add_listener s l w) = links w.
Proof.
  unfold CDPSocket.add_listener. destruct (sockets w !! s) as [sk|] eqn:Hs; [|reflexivity].
  now apply (links_set_socket w s sk).
Qed.

Lemma links_emit (s : nat) (event : string) (args : list value) (w : world) :
  links (snd (CDPSocket.emit E s event args w)) = links w.
Proof.
  unfold CDPSocket.emit. destruct (sockets w !! s); [|reflexivity].
  cbv zeta. destruct (CDPSocket.split_callback args) as [[f|] args']; simpl; [|reflexivity].
  unfold CDPSocket.once.
  change (links (enqueue ?j ?w0)) with (links w0).
  now rewrite links_add_listener.
Qed.

Lemma links_invoke (f : func) (args : list value) (w : world) :
  links (CDPSocket.invoke E f args w) = links w.
Proof. destruct f; simpl; [reflexivity | apply links_emit]. Qed.

Lemma links_super_emit (s : nat) (event : string) (args : list value) (w w' : world) :
  CDPSocket.super_emit E s event args w = Some w' -> links w' = links w.
Proof.
  unfold CDPSocket.super_emit. destruct (sockets w !! s) as [sk|] eqn:Hs; [|discriminate].
  destruct (List.filter _ (_listeners sk)) as [|l fired].
  - destruct (String.eqb event "error"); [discriminate|]. now intros [= <-].
  - intros Heq. injection Heq as <-.
    rewrite <- (links_set_socket w s sk
                  (mkSocket (_cdpClient sk) (_namespace sk) (_executionContextId sk)
                     (List.filter (CDPSocket.survives event) (_listeners sk))) Hs eq_refl).
    apply (fold_left_preserves links
             (fun w0 l0 => CDPSocket.invoke E (l_fn l0) args w0) (l :: fired)).
    intros; apply links_invoke.
Qed.

Lemma links_after_decode (s : nat) (decoded : value) (w : world) :
  links (CDPSocket.after_decode E s decoded w) = links w.
Proof.
  unfold CDPSocket.after_decode.
  repeat (break_match; try reflexivity).
  eapply links_super_emit; eassumption.
Qed.

Lemma links_after_encode (s : nat) (encoded : value) (w : world) :
  links (CDPSocket.after_encode E s encoded w) = links w.
Proof.
  unfold CDPSocket.after_encode, CDPSocket.catch_ignore.
  repeat (break_match; try reflexivity). apply links_send.
Qed.

Lemma links_run_job (j : job) (w : world) : links (CDPSocket.run_job E j w) = links w.
Proof.
  destruct j as [s [v|] | s [v|]]; simpl;
    [apply links_after_encode | reflexivity | apply links_after_decode | reflexivity].
Qed.

Lemma links_tick (w : world) : links (CDPSocket.tick E w) = links w.
Proof.
  unfold CDPSocket.tick. destruct (jobs w); [reflexivity|].
  now rewrite links_run_job.
Qed.

Lemma links_process (s : nat) (ev : BindingCalledEvent) (w : world) :
  links (CDPSocket.processCDPRuntimeBinding E s ev w) = links w.
Proof.
  unfold CDPSocket.processCDPRuntimeBinding.
  destruct (sockets w !! s) as [sk|] eqn:Hs; [|reflexivity].
  destruct (negb _); [reflexivity|].
  destruct (JSON_parse E (payload ev));
    [change (links (enqueue ?j ?w0)) with (links w0)
    |change (links (unhandled_rejection ?w0)) with (links w0)];
    now apply (links_set_socket w s sk).
Qed.

Lemma links_notify (c : nat) (ev : BindingCalledEvent) (w : world) :
  links (CDPSocket.notify E c ev w) = links w.
Proof.
  unfold CDPSocket.notify. destruct (clients w !! c); [|reflexivity].
  apply (fold_left_preserves links). intros; apply links_process.
Qed.

Lemma links_of (w w' : world) (r : nat) (namespace : string) (x : jsref) :
  CDPSocketServer.of_ r namespace w = Some (x, w') -> links w' = links w.
Proof.
  unfold CDPSocketServer.of_. destruct (servers w !! r) as [sv|]; [|discriminate].
  cbv zeta. destruct (_namespaceMap sv !! _); [intros [= _ <-]; reflexivity|].
  destruct (Js.inherited _); intros [= _ <-]; reflexivity.
Qed.

Lemma links_server_emit (r : nat) (event : string) (args : list value) (w : world) :
  links (snd (CDPSocketServer.emit E r event args w)) = links w.
Proof.
  unfold CDPSocketServer.emit. repeat (break_match; try reflexivity). apply links_emit.
Qed.

(** The two invariants depend on the links only. *)
Lemma lookup_links_client (w : world) (c : nat) (cl : Client) :
  clients w !! c = Some cl -> (links w).1 !! c = Some (subscribers cl).
Proof. intros H. unfold links. simpl. now rewrite list_lookup_fmap, H. Qed.

Lemma links_lookup_client (w : world) (c : nat) (subs : list nat) :
  (links w).1 !! c = Some subs ->
  exists cl, clients w !! c = Some cl /\ subscribers cl = subs.
Proof.
  unfold links. simpl. rewrite list_lookup_fmap. intros H.
  apply fmap_Some in H as [cl [Hc ->]]. eauto.
Qed.

Lemma lookup_links_socket (w : world) (s : nat) (sk : Socket) :
  sockets w !! s = Some sk -> (links w).2 !! s = Some (_cdpClient sk).
Proof. intros H. unfold links. simpl. now rewrite list_lookup_fmap, H. Qed.

Lemma links_lookup_socket (w : world) (s : nat) (o : option nat) :
  (links w).2 !! s = Some o ->
  exists sk, sockets w !! s = Some sk /\ _cdpClient sk = o.
Proof.
  unfold links. simpl. rewrite list_lookup_fmap. intros H.
  apply fmap_Some in H as [sk [Hs ->]]. eauto.
Qed.

Lemma subscriptions_ok_links (w w' : world) :
  links w' = links w -> subscriptions_ok w -> subscriptions_ok w'.
Proof.
  intros Hl Hok c cl' Hc'.
  apply lookup_links_client in Hc'. rewrite Hl in Hc'.
  apply links_lookup_client in Hc' as [cl [Hc Hsub]].
  destruct (Hok c cl Hc) as [Hnd Hmem]. rewrite <- Hsub. split; [exact Hnd|].
  intros s Hin. destruct (Hmem s Hin) as [sk [Hs Hsc]].
  apply lookup_links_socket in Hs. rewrite <- Hl in Hs.
  apply links_lookup_socket in Hs as [sk' [Hs' Hsc']]. exists sk'. split; congruence.
Qed.

Lemma released_links (w w' : world) (s : nat) :
  links w' = links w -> released s w -> released s w'.
Proof.
  intros Hl [sk [Hs Hn]].
  apply lookup_links_socket in Hs. rewrite <- Hl in Hs.
  apply links_lookup_socket in Hs as [sk' [Hs' Hsc']]. exists sk'. split; congruence.
Qed.

Lemma released_unsubscribed (w : world) (s : nat) :
  subscriptions_ok w -> released s w -> unsubscribed s w.
Proof.
  intros Hok [sk [Hs Hn]] c cl Hc Hin.
  destruct (Hok c cl Hc) as [_ Hmem]. destruct (Hmem s Hin) as [sk' [Hs' Hc']].
  congruence.
Qed.

End LinksFrame.

Section Subscriptions.

Context (E : Env).

Lemma remove_first_subseteq (s x : nat) (l : list nat) :
  x ∈ CDPClient.remove_first s l -> x ∈ l.
Proof.
  induction l as [|y l IH]; simpl; [auto|].
  destruct (Nat.eqb y s); intros H; [now right|].
  apply elem_of_cons in H as [->|H]; [left | right; auto].
Qed.

Lemma remove_first_NoDup (s : nat) (l : list nat) :
  NoDup l -> NoDup (CDPClient.remove_first s l) /\ s ∉ CDPClient.remove_first s l.
Proof.
  induction l as [|y l IH]; simpl; intros Hnd.
  - split; [constructor | apply not_elem_of_nil].
  - apply NoDup_cons in Hnd as [Hy Hnd]. destruct (Nat.eqb_spec y s) as [->|Hne].
    + auto.
    + destruct (IH Hnd) as [Hnd' Hs]. split.
      * apply NoDup_cons. split; [|exact Hnd'].
        intros Hin. apply Hy. eapply remove_first_subseteq, Hin.
      * intros Hin. apply elem_of_cons in Hin as [Heq|Hin]; [congruence | auto].
Qed.

Lemma subscriptions_ok_empty : subscriptions_ok empty_world.
Proof. intros c cl Hc. destruct c; discriminate Hc. Qed.

Lemma subscriptions_ok_create (b : bool) (w : world) :
  subscriptions_ok w -> subscriptions_ok (snd (CDPClient.create b w)).
Proof.
  intros Hok c cl Hc. simpl in Hc.
  apply lookup_app_Some in Hc as [Hc | [_ Hc]].
  - exact (Hok c cl Hc).
  - apply list_lookup_singleton_Some in Hc as [_ <-]. simpl.
    split; [constructor|]. intros s Hin. now apply elem_of_nil in Hin.
Qed.

Lemma subscriptions_ok_new (c : nat) (namespace : string) (w : world) :
  subscriptions_ok w -> subscriptions_ok (snd (CDPSocket.new c namespace w)).
Proof.
  intros Hok c0 cl0 Hc0. unfold CDPSocket.new, CDPClient.on in Hc0 |- *. simpl in Hc0 |- *.
  assert (Hold : forall c1 cl1 s, clients w !! c1 = Some cl1 -> s ∈ subscribers cl1 ->
            s < length (sockets w) /\
            exists sk, (sockets w ++ [mkSocket (Some c) namespace None []]) !! s = Some sk
                       /\ _cdpClient sk = Some c1).
  { intros c1 cl1 s Hc1 Hin. destruct (Hok c1 cl1 Hc1) as [_ Hmem].
    destruct (Hmem s Hin) as [sk [Hs Hsc]].
    assert (Hlt : s < length (sockets w)) by now apply lookup_lt_Some in Hs.
    split; [exact Hlt|]. exists sk. now rewrite lookup_app_l. }
  destruct (clients w !! c) as [cl|] eqn:Hc; simpl in Hc0 |- *.
  - destruct (decide (c = c0)) as [->|Hne].
    + rewrite list_lookup_insert_eq in Hc0 by now apply lookup_lt_Some in Hc.
      injection Hc0 as <-. simpl. destruct (Hok c0 cl Hc) as [Hnd _]. split.
      * apply NoDup_app. split; [exact Hnd|]. split; [|apply NoDup_singleton].
        intros s Hin Hin'. apply list_elem_of_singleton in Hin'. subst s.
        destruct (Hold c0 cl _ Hc Hin) as [Hlt _]. lia.
      * intros s Hin. apply elem_of_app in Hin as [Hin|Hin].
        -- now destruct (Hold c0 cl s Hc Hin).
        -- apply list_elem_of_singleton in Hin. subst s. eexists.
           rewrite lookup_app_r by lia. rewrite Nat.sub_diag. simpl. auto.
    + rewrite list_lookup_insert_ne in Hc0 by exact Hne.
      destruct (Hok c0 cl0 Hc0) as [Hnd _]. split; [exact Hnd|].
      intros s Hin. now destruct (Hold c0 cl0 s Hc0 Hin).
  - destruct (Hok c0 cl0 Hc0) as [Hnd _]. split; [exact Hnd|].
    intros s Hin. now destruct (Hold c0 cl0 s Hc0 Hin).
Qed.

Lemma subscriptions_ok_init (c : nat) (namespace : string) (w : world) :
  subscriptions_ok w -> subscriptions_ok (snd (CDPSocket.init c namespace w)).
Proof.
  intros Hok. unfold CDPSocket.init.
  pose proof (links_send c Runtime_enable w) as H1.
  destruct (CDPClient.send c Runtime_enable w) as [o1 w1]. simpl in H1.
  pose proof (subscriptions_ok_links w w1 H1 Hok) as Hok1.
  destruct o1; [|exact Hok1].
  pose proof (links_send c (Runtime_addBinding (CDPSocket.binding_name namespace)) w1) as H2.
  destruct (CDPClient.send c _ w1) as [o2 w2]. simpl in H2.
  pose proof (subscriptions_ok_links w1 w2 H2 Hok1) as Hok2.
  destruct o2; [|exact Hok2].
  pose proof (subscriptions_ok_new c namespace w2 Hok2) as Hok3.
  now destruct (CDPSocket.new c namespace w2).
Qed.

Lemma subscriptions_ok_close (s : nat) (w : world) :
  subscriptions_ok w -> subscriptions_ok (CDPSocket.close s w).
Proof.
  intros Hok. unfold CDPSocket.close.
  destruct (sockets w !! s) as [sk|] eqn:Hs; [|exact Hok].
  destruct (_cdpClient sk) as [c|] eqn:Hsc.
  2:{ apply (subscriptions_ok_links w); [|exact Hok].
      apply (links_set_socket w s sk); [exact Hs | now rewrite Hsc]. }
  intros c0 cl0 Hc0. unfold CDPClient.off in Hc0 |- *.
  assert (Hlt : s < length (sockets w)) by now apply lookup_lt_Some in Hs.
  (* the subscriptions of [c0] before, which do not mention [s] afterwards *)
  assert (Hbefore : exists cl1, clients w !! c0 = Some cl1 /\ NoDup (subscribers cl0) /\
            forall x, x ∈ subscribers cl0 -> x ∈ subscribers cl1 /\ x <> s).
  { destruct (clients w !! c) as [cl|] eqn:Hc; simpl in Hc0.
    - destruct (decide (c = c0)) as [->|Hne].
      + rewrite list_lookup_insert_eq in Hc0 by now apply lookup_lt_Some in Hc.
        injection Hc0 as <-. simpl. exists cl. split; [exact Hc|].
        destruct (Hok c0 cl Hc) as [Hnd _].
        destruct (remove_first_NoDup s _ Hnd) as [Hnd' Hnot]. split; [exact Hnd'|].
        intros x Hin. split; [eapply remove_first_subseteq, Hin|].
        intros ->. contradiction.
      + rewrite list_lookup_insert_ne in Hc0 by exact Hne.
        exists cl0. split; [exact Hc0|]. destruct (Hok c0 cl0 Hc0) as [Hnd Hmem].
        split; [exact Hnd|]. intros x Hin. split; [exact Hin|]. intros ->.
        destruct (Hmem s Hin) as [sk' [Hs' Hsc']]. congruence.
    - exists cl0. split; [exact Hc0|]. destruct (Hok c0 cl0 Hc0) as [Hnd Hmem].
      split; [exact Hnd|]. intros x Hin. split; [exact Hin|]. intros ->.
      destruct (Hmem s Hin) as [sk' [Hs' Hsc']]. congruence. }
  destruct Hbefore as [cl1 [Hc1 [Hnd Hsub]]]. split; [exact Hnd|].
  intros x Hin. destruct (Hsub x Hin) as [Hin1 Hxs].
  destruct (Hok c0 cl1 Hc1) as [_ Hmem]. destruct (Hmem x Hin1) as [skx [Hx Hxc]].
  exists skx. split; [|exact Hxc].
  destruct (clients w !! c); simpl; rewrite list_lookup_insert_ne by congruence; exact Hx.
Qed.

Lemma links_set_server (r : nat) (sv : Server) (w : world) :
  links (CDPSocketServer.set_server r sv w) = links w.
Proof. reflexivity. Qed.

Lemma subscriptions_ok_close_node (r : nat) (w : world) :
  subscriptions_ok w -> subscriptions_ok (CDPSocketServer.close_node r w).
Proof.
  intros Hok. unfold CDPSocketServer.close_node.
  destruct (servers w !! r) as [sv|]; [|exact Hok].
  destruct (_cdpSocket sv) as [s|]; [|exact Hok].
  apply (subscriptions_ok_links (CDPSocket.close s w)); [reflexivity|].
  now apply subscriptions_ok_close.
Qed.

Lemma subscriptions_ok_attach (r c : nat) (w : world) :
  subscriptions_ok w -> subscriptions_ok (CDPSocketServer.attach_node r c w).
Proof.
  intros Hok. unfold CDPSocketServer.attach_node.
  destruct (servers w !! r) as [sv|]; [|exact Hok].
  pose proof (subscriptions_ok_init c (_fullNamespace sv) w Hok) as Hi.
  destruct (CDPSocket.init c (_fullNamespace sv) w) as [[s|] w1]; simpl in Hi; [|exact Hi].
  now apply (subscriptions_ok_links w1).
Qed.

Lemma subscriptions_ok_run_op (o : op) (w : world) :
  subscriptions_ok w -> subscriptions_ok (run_op E o w).
Proof.
  intros Hok.
  assert (Hsame : forall w', links w' = links w -> subscriptions_ok w')
    by (intros w' Heq; now apply (subscriptions_ok_links w)).
  destruct o; simpl.
  - now apply subscriptions_ok_create.
  - apply Hsame, links_set_responsive.
  - now apply Hsame.
  - destruct (CDPSocketServer.of_ r namespace w) as [[x w']|] eqn:Hof; [|exact Hok].
    apply Hsame. eapply links_of, Hof.
  - exact Hok.
  - now apply subscriptions_ok_attach.
  - apply Hsame, links_server_emit.
  - now apply subscriptions_ok_close_node.
  - now apply subscriptions_ok_init.
  - exact Hok.
  - apply Hsame, links_add_listener.
  - apply Hsame, links_add_listener.
  - apply Hsame, links_emit.
  - now apply subscriptions_ok_close.
  - now apply subscriptions_ok_close.
  - apply Hsame, links_notify.
  - apply Hsame, links_invoke.
  - apply Hsame, links_tick.
Qed.

Lemma subscriptions_ok_run (ops : list op) (w : world) :
  subscriptions_ok w -> subscriptions_ok (run E ops w).
Proof.
  revert w. induction ops as [|o ops IH]; intros w Hok; [exact Hok|].
  simpl. apply IH. now apply subscriptions_ok_run_op.
Qed.

(** A bridge that holds no client never gets one back. *)
Lemma released_new (c : nat) (namespace : string) (s : nat) (w : world) :
  released s w -> released s (snd (CDPSocket.new c namespace w)).
Proof.
  intros [sk [Hs Hn]]. exists sk. split; [|exact Hn].
  unfold CDPSocket.new, CDPClient.on. simpl.
  assert (Hlt : s < length (sockets w)) by now apply lookup_lt_Some in Hs.
  destruct (clients w !! c); simpl; now rewrite lookup_app_l.
Qed.

Lemma released_init (c : nat) (namespace : string) (s : nat) (w : world) :
  released s w -> released s (snd (CDPSocket.init c namespace w)).
Proof.
  intros Hrel. unfold CDPSocket.init.
  pose proof (links_send c Runtime_enable w) as H1.
  destruct (CDPClient.send c Runtime_enable w) as [o1 w1]. simpl in H1.
  pose proof (released_links w w1 s H1 Hrel) as Hrel1.
  destruct o1; [|exact Hrel1].
  pose proof (links_send c (Runtime_addBinding (CDPSocket.binding_name namespace)) w1) as H2.
  destruct (CDPClient.send c _ w1) as [o2 w2]. simpl in H2.
  pose proof (released_links w1 w2 s H2 Hrel1) as Hrel2.
  destruct o2; [|exact Hrel2].
  pose proof (released_new c namespace s w2 Hrel2) as Hrel3.
  now destruct (CDPSocket.new c namespace w2).
Qed.

Lemma close_releases (s : nat) (sk : Socket) (w : world) :
  sockets w !! s = Some sk -> released s (CDPSocket.close s w).
Proof.
  intros Hs. unfold CDPSocket.close. rewrite Hs.
  assert (Hlt : s < length (sockets w)) by now apply lookup_lt_Some in Hs.
  exists (mkSocket None (_namespace sk) (_executionContextId sk) (_listeners sk)).
  split; [|reflexivity].
  destruct (_cdpClient sk) as [c|]; [unfold CDPClient.off; destruct (clients w !! c)|];
    simpl; now apply list_lookup_insert_eq.
Qed.

Lemma released_close (s' s : nat) (w : world) :
  released s w -> released s (CDPSocket.close s' w).
Proof.
  intros Hrel. destruct (decide (s' = s)) as [->|Hne].
  - destruct Hrel as [sk [Hs _]]. now apply (close_releases s sk).
  - destruct Hrel as [sk [Hs Hn]]. exists sk. split; [|exact Hn].
    unfold CDPSocket.close. destruct (sockets w !! s') as [sk'|]; [|exact Hs].
    destruct (_cdpClient sk') as [c|]; [unfold CDPClient.off; destruct (clients w !! c)|];
      simpl; now rewrite list_lookup_insert_ne.
Qed.

Lemma released_run_op (o : op) (s : nat) (w : world) :
  released s w -> released s (run_op E o w).
Proof.
  intros Hrel.
  assert (Hsame : forall w', links w' = links w -> released s w')
    by (intros w' Heq; now apply (released_links w)).
  destruct o; simpl.
  - exact Hrel.
  - apply Hsame, links_set_responsive.
  - now apply Hsame.
  - destruct (CDPSocketServer.of_ r namespace w) as [[x w']|] eqn:Hof; [|exact Hrel].
    apply Hsame. eapply links_of, Hof.
  - exact Hrel.
  - unfold CDPSocketServer.attach_node. destruct (servers w !! r) as [sv|]; [|exact Hrel].
    pose proof (released_init c (_fullNamespace sv) s w Hrel) as Hi.
    destruct (CDPSocket.init c (_fullNamespace sv) w) as [[s1|] w1]; simpl in Hi; [|exact Hi].
    now apply (released_links w1).
  - apply Hsame, links_server_emit.
  - unfold CDPSocketServer.close_node. destruct (servers w !! r) as [sv|]; [|exact Hrel].
    destruct (_cdpSocket sv) as [s1|]; [|exact Hrel].
    apply (released_links (CDPSocket.close s1 w)); [reflexivity|].
    now apply released_close.
  - now apply released_init.
  - exact Hrel.
  - apply Hsame, links_add_listener.
  - apply Hsame, links_add_listener.
  - apply Hsame, links_emit.
  - now apply released_close.
  - now apply released_close.
  - apply Hsame, links_notify.
  - apply Hsame, links_invoke.
  - apply Hsame, links_tick.
Qed.

Lemma released_run (ops : list op) (s : nat) (w : world) :
  released s w -> released s (run E ops w).
Proof.
  revert w. induction ops as [|o ops IH]; intros w Hrel; [exact Hrel|].
  simpl. apply IH. now apply released_run_op.
Qed.

(** A notification delivered by a client enqueues no inbound job for a
    bridge that is not subscribed. *)
Lemma notify_unsubscribed_list (subs : list nat) (w : world) (b : nat)
      (ev : BindingCalledEvent) :
  b ∉ subs ->
  List.filter (inbound_of b)
    (jobs (fold_left (fun w0 s => CDPSocket.processCDPRuntimeBinding E s ev w0) subs w))
  = List.filter (inbound_of b) (jobs w).
Proof.
  revert w. induction subs as [|s subs IH]; intros w Hnot; simpl; [reflexivity|].
  apply not_elem_of_cons in Hnot as [Hne Hnot].
  rewrite (IH _ Hnot). apply process_other. congruence.
Qed.

Lemma notify_unsubscribed (w : world) (b c : nat) (ev : BindingCalledEvent) :
  unsubscribed b w ->
  List.filter (inbound_of b) (jobs (CDPSocket.notify E c ev w))
  = List.filter (inbound_of b) (jobs w).
Proof.
  intros Hun. unfold CDPSocket.notify.
  destruct (clients w !! c) as [cl|] eqn:Hc; [|reflexivity].
  apply notify_unsubscribed_list. now apply (Hun c cl).
Qed.

End Subscriptions.

Lemma reachable_subscriptions_ok (E : Env) (w : world) :
  reachable E w -> subscriptions_ok w.
Proof. intros [ops ->]. apply subscriptions_ok_run, subscriptions_ok_empty. Qed.

(** C4, as the code has it, for a bridge of a reachable store.
    [connected] is true exactly when the bridge holds a client;
    [disconnect] is [close]; after [close] the bridge reports not
    connected, is subscribed to no client and keeps its local listeners as
    they were; and whatever happens afterwards, it stays disconnected and
    unsubscribed, and no notification delivered by any client produces an
    inbound job, hence a local dispatch, for it. *)
Theorem close_disconnects_and_unsubscribes
        (E : Env) (w : world) (s : nat) (sk : Socket) :
  reachable E w ->
  sockets w !! s = Some sk ->
  (CDPSocket.connected s w = true <-> exists c : nat, _cdpClient sk = Some c)
  /\ CDPSocket.disconnect s w = CDPSocket.close s w
  /\ CDPSocket.connected s (CDPSocket.close s w) = false
  /\ unsubscribed s (CDPSocket.close s w)
  /\ sockets (CDPSocket.close s w) !! s
       = Some (mkSocket None (_namespace sk) (_executionContextId sk) (_listeners sk))
  /\ forall (ops : list op) (c : nat) (ev : BindingCalledEvent),
       let w' := run E ops (CDPSocket.close s w) in
       CDPSocket.connected s w' = false
       /\ unsubscribed s w'
       /\ List.filter (inbound_of s) (jobs (CDPSocket.notify E c ev w'))
            = List.filter (inbound_of s) (jobs w').
Proof.
  intros Hreach Hs. pose proof (reachable_subscriptions_ok E w Hreach) as Hok.
  pose proof (close_releases s sk w Hs) as Hrel.
  pose proof (subscriptions_ok_close s w Hok) as Hok'.
  assert (Hconn : forall w0, released s w0 -> CDPSocket.connected s w0 = false).
  { intros w0 [sk0 [Hs0 Hn0]]. unfold CDPSocket.connected. now rewrite Hs0, Hn0. }
  split; [|split; [|split; [|split; [|split]]]].
  - unfold CDPSocket.connected. rewrite Hs. destruct (_cdpClient sk) as [c|].
    + split; [eauto | reflexivity].
    + split; [discriminate | intros [c Hc]; discriminate].
  - reflexivity.
  - now apply Hconn.
  - now apply released_unsubscribed.
  - unfold CDPSocket.close. rewrite Hs.
    assert (Hlt : s < length (sockets w)) by now apply lookup_lt_Some in Hs.
    destruct (_cdpClient sk) as [c|]; [unfold CDPClient.off; destruct (clients w !! c)|];
      simpl; now apply list_lookup_insert_eq.
  - intros ops c ev w'.
    pose proof (released_run E ops s _ Hrel) as Hrel'.
    pose proof (subscriptions_ok_run E ops _ Hok') as Hok''.
    pose proof (released_unsubscribed _ s Hok'' Hrel') as Hun.
    split; [now apply Hconn|]. split; [exact Hun|].
    now apply notify_unsubscribed.
Qed.

Lemma close_disconnects_and_unsubscribes_witness :
  CDPSocket.connected 0 (CDPSocket.close 0 Sample.listening_world) = false.
Proof.
  apply (close_disconnects_and_unsubscribes Sample.env Sample.listening_world 0
           (mkSocket (Some 0) "/default" None [mkListener "greet" (UserFn 1) false])).
  - exists [OpNewClient true; OpInit 0 "/default"; OpOn 0 "greet" (UserFn 1)]. reflexivity.
  - reflexivity.
Defined.

(** C4 as stated fails: a bridge with a listener for ["greet"] still has
    it after [close]. *)
Lemma close_keeps_local_listeners :
  (_listeners <$> (sockets (CDPSocket.close 0 Sample.listening_world) !! 0))
    = Some [mkListener "greet" (UserFn 1) false]
  /\ (_listeners <$> (sockets (CDPSocket.close 0 Sample.listening_world) !! 0)) <> Some [].
Proof. split; [reflexivity | discriminate]. Qed.

(** ** Outbound events and acknowledgements *)

Section EmitFacts.

Context (E : Env).




Lemma emit_unfold (w : world) (s : nat) (sk : Socket) (event : string) (args : list value) :
  sockets w !! s = Some sk ->
  CDPSocket.emit E s event args w =
    (true,
     let callbackEvent := event +:+ "-" +:+ randomUUID E (uuids_drawn w) in
     enqueue
       (AfterEncode s
          (encode E (envelope event callbackEvent (snd (CDPSocket.split_callback args)))
             (_namespace sk)))
       match fst (CDPSocket.split_callback args) with
       | Some f => CDPSocket.once s callbackEvent f (draw_uuid w)
       | None => draw_uuid w
       end).
Proof.
  intros Hs. unfold CDPSocket.emit. rewrite Hs. cbv zeta.
  now destruct (CDPSocket.split_callback args) as [[f|] args'].
Qed.

Lemma once_unfold (w : world) (s : nat) (sk : Socket) (event : string) (f : func) :
  sockets w !! s = Some sk ->
  CDPSocket.once s event f w =
    CDPSocket.set_socket s
      (mkSocket (_cdpClient sk) (_namespace sk) (_executionContextId sk)
         (_listeners sk ++ [mkListener event f true])) w.
Proof. intros Hs. unfold CDPSocket.once, CDPSocket.add_listener. now rewrite Hs. Qed.




(** The continuation of [encode] on a connected bridge sends exactly one
    [Runtime.evaluate]. *)
Lemma after_encode_sends (w : world) (s c : nat) (sk : Socket) (cl : Client)
      (encoded : value) (json : string) :
  sockets w !! s = Some sk ->
  _cdpClient sk = Some c ->
  clients w !! c = Some cl ->
  JSON_stringify E encoded = Some json ->
  CDPSocket.after_encode E s encoded w =
    set_clients
      (<[c := mkClient (subscribers cl)
                (sent cl ++ [Runtime_evaluate
                               (CDPSocket.evaluate_expression (_namespace sk)
                                  (Js.escape_payload json))
                               (_executionContextId sk)])
                (responsive cl)]> (clients w)) w.
Proof.
  intros Hs Hc Hcl Hj. unfold CDPSocket.after_encode, CDPSocket.catch_ignore, CDPClient.send.
  now rewrite Hs, Hj, Hc, Hcl.
Qed.


Lemma filter_other_events (event : string) (ls : list listener) :
  Forall (fun l => l_event l <> event) ls ->
  List.filter (CDPSocket.listens_to event) ls = []
  /\ List.filter (CDPSocket.survives event) ls = ls.
Proof.
  induction 1 as [|l ls Hl _ [IH1 IH2]]; [auto|].
  simpl. unfold CDPSocket.listens_to, CDPSocket.survives in *.
  destruct (String.eqb_spec (l_event l) event) as [Heq|_]; [contradiction|].
  simpl. now rewrite IH1, IH2.
Qed.




End EmitFacts.



Example ping_is_evaluated_and_decoded :
  let w2 := CDPSocket.tick Sample.env
              (snd (CDPSocket.emit Sample.env 0 "ping" [VNum 1; VNum 2]
                      Sample.connected_world)) in
  exists expression,
    (sent <$> (clients w2 !! 0)) =
      Some [Runtime_enable; Runtime_addBinding "cypressSendToServer-/default";
            Runtime_evaluate expression None]
    /\ CDPSocket.page_decodes Sample.env "/default" expression
       = Some (envelope "ping" "ping-u" [VNum 1; VNum 2]).
Proof. eexists. split; reflexivity. Qed.



Section AckFacts.

Context (E : Env).

(** The dispatch of an event with exactly one listener, a persistent one
    supplied by the application: it stays registered and is called once. *)
Lemma super_emit_user_listener (w : world) (s : nat) (sk : Socket) (event : string)
      (id : nat) (pre post : list listener) (args : list value) :
  sockets w !! s = Some sk ->
  _listeners sk = pre ++ mkListener event (UserFn id) false :: post ->
  Forall (fun l => l_event l <> event) pre ->
  Forall (fun l => l_event l <> event) post ->
  exists w' : world,
    CDPSocket.super_emit E s event args w = Some w'
    /\ calls w' = calls w ++ [(id, args)]
    /\ sockets w' = sockets w /\ jobs w' = jobs w /\ clients w' = clients w.
Proof.
  intros Hs Hl Hpre Hpost. unfold CDPSocket.super_emit. rewrite Hs, Hl.
  destruct (filter_other_events event pre Hpre) as [Hp1 Hp2].
  destruct (filter_other_events event post Hpost) as [Hq1 Hq2].
  rewrite !List.filter_app. simpl.
  unfold CDPSocket.listens_to at 2. unfold CDPSocket.survives at 2. simpl.
  rewrite String.eqb_refl. simpl. rewrite Hp1, Hp2, Hq1, Hq2. simpl.
  eexists. split; [reflexivity|]. simpl.
  split; [reflexivity|]. split; [|auto].
  apply list_insert_id. rewrite Hs. f_equal. destruct sk. simpl in *. now subst.
Qed.

End AckFacts.







(** * Further properties of the bridge *)

Section BridgeMore.

Context (E : Env).

Lemma remove_first_other (s b : nat) (l : list nat) :
  b <> s -> b ∈ CDPClient.remove_first s l <-> b ∈ l.
Proof.
  intros Hne. induction l as [|x l IH]; simpl; [reflexivity|].
  destruct (Nat.eqb_spec x s) as [->|Hxs].
  - rewrite elem_of_cons. split; [auto|]. intros [Heq|Hin]; [contradiction | exact Hin].
  - rewrite !elem_of_cons, IH. reflexivity.
Qed.

(** What [close] leaves alone. *)
Lemma close_frame (s : nat) (w : world) :
  servers (CDPSocket.close s w) = servers w
  /\ jobs (CDPSocket.close s w) = jobs w
  /\ calls (CDPSocket.close s w) = calls w
  /\ rejections (CDPSocket.close s w) = rejections w
  /\ uuids_drawn (CDPSocket.close s w) = uuids_drawn w
  /\ length (sockets (CDPSocket.close s w)) = length (sockets w).
Proof.
  unfold CDPSocket.close. destruct (sockets w !! s) as [sk|]; [|auto 10].
  destruct (_cdpClient sk) as [c|]; [unfold CDPClient.off; destruct (clients w !! c)|];
    simpl; rewrite length_insert; auto 10.
Qed.

Lemma close_socket (s : nat) (sk : Socket) (w : world) :
  sockets w !! s = Some sk ->
  sockets (CDPSocket.close s w) !! s
    = Some (mkSocket None (_namespace sk) (_executionContextId sk) (_listeners sk)).
Proof.
  intros Hs. unfold CDPSocket.close. rewrite Hs.
  assert (Hlt : s < length (sockets w)) by now apply lookup_lt_Some in Hs.
  destruct (_cdpClient sk) as [c|]; [unfold CDPClient.off; destruct (clients w !! c)|];
    simpl; now apply list_lookup_insert_eq.
Qed.

Lemma close_other_socket (s b : nat) (w : world) :
  b <> s -> sockets (CDPSocket.close s w) !! b = sockets w !! b.
Proof.
  intros Hne. unfold CDPSocket.close. destruct (sockets w !! s) as [sk|]; [|reflexivity].
  destruct (_cdpClient sk) as [c|]; [unfold CDPClient.off; destruct (clients w !! c)|];
    simpl; now apply list_lookup_insert_ne.
Qed.

Lemma close_clients (s : nat) (w : world) (c : nat) (cl : Client) :
  clients w !! c = Some cl ->
  exists cl' : Client,
    clients (CDPSocket.close s w) !! c = Some cl'
    /\ sent cl' = sent cl /\ responsive cl' = responsive cl
    /\ forall b : nat, b <> s -> b ∈ subscribers cl' <-> b ∈ subscribers cl.
Proof.
  intros Hc. unfold CDPSocket.close. destruct (sockets w !! s) as [sk|].
  2:{ exists cl. auto. }
  destruct (_cdpClient sk) as [c0|]; simpl.
  2:{ exists cl. auto. }
  unfold CDPClient.off. destruct (clients w !! c0) as [cl0|] eqn:Hc0; simpl.
  2:{ exists cl. auto. }
  destruct (decide (c0 = c)) as [->|Hne].
  - rewrite list_lookup_insert_eq by now apply lookup_lt_Some in Hc.
    rewrite Hc in Hc0. injection Hc0 as <-. eexists. split; [reflexivity|]. simpl.
    split; [reflexivity|]. split; [reflexivity|]. intros b Hb. now apply remove_first_other.
  - rewrite list_lookup_insert_ne by exact Hne. exists cl. auto.
Qed.

End BridgeMore.

(** X1. Closing a bridge twice is closing it once. *)
Theorem close_idempotent (s : nat) (w : world) :
  CDPSocket.close s (CDPSocket.close s w) = CDPSocket.close s w.
Proof.
  destruct (sockets w !! s) as [sk|] eqn:Hs.
  - pose proof (close_socket s sk w Hs) as Hs1.
    unfold CDPSocket.close at 1. rewrite Hs1. simpl.
    unfold CDPSocket.set_socket, set_sockets.
    rewrite list_insert_id by exact Hs1. now destruct (CDPSocket.close s w).
  - assert (Hid : CDPSocket.close s w = w) by (unfold CDPSocket.close; now rewrite Hs).
    now rewrite !Hid.
Qed.

(** X2. Closing a bridge touches nothing but this bridge and its own
    subscription: every other bridge object and every other subscription,
    on every client, stay as they were, no command is sent to the browser,
    and the registry, the job queue and the bridge's own listeners are
    kept. *)
Theorem close_leaves_the_rest (s : nat) (w : world) :
  servers (CDPSocket.close s w) = servers w
  /\ jobs (CDPSocket.close s w) = jobs w
  /\ (forall b : nat, b <> s -> sockets (CDPSocket.close s w) !! b = sockets w !! b)
  /\ (forall sk : Socket, sockets w !! s = Some sk ->
        _listeners <$> (sockets (CDPSocket.close s w) !! s) = Some (_listeners sk))
  /\ length (clients (CDPSocket.close s w)) = length (clients w)
  /\ (forall (c : nat) (cl : Client),
        clients w !! c = Some cl ->
        exists cl' : Client,
          clients (CDPSocket.close s w) !! c = Some cl'
          /\ sent cl' = sent cl
          /\ forall b : nat, b <> s -> b ∈ subscribers cl' <-> b ∈ subscribers cl).
Proof.
  destruct (close_frame s w) as (Hsv & Hj & _).
  split; [exact Hsv|]. split; [exact Hj|].
  split; [intros b Hb; now apply close_other_socket|].
  split; [intros sk Hs; now rewrite (close_socket s sk w Hs)|].
  split.
  - unfold CDPSocket.close. destruct (sockets w !! s) as [sk|]; [|reflexivity].
    destruct (_cdpClient sk) as [c|]; [unfold CDPClient.off; destruct (clients w !! c)|];
      simpl; try rewrite length_insert; reflexivity.
  - intros c cl Hc. destruct (close_clients s w c cl Hc) as (cl' & Hc' & Hsent & _ & Hsub).
    exists cl'. auto.
Qed.

Section EmitMore.

Context (E : Env).

(** The store after [emit], spelled out. *)
Lemma emit_store (w : world) (s : nat) (sk : Socket) (event : string) (args : list value) :
  sockets w !! s = Some sk ->
  let ackId := event +:+ "-" +:+ randomUUID E (uuids_drawn w) in
  let w1 := snd (CDPSocket.emit E s event args w) in
  sockets w1 =
    <[s := mkSocket (_cdpClient sk) (_namespace sk) (_executionContextId sk)
             (_listeners sk ++
              match fst (CDPSocket.split_callback args) with
              | Some f => [mkListener ackId f true]
              | None => []
              end)]> (sockets w)
  /\ jobs w1 =
       jobs w ++
       [AfterEncode s
          (encode E (envelope event ackId (snd (CDPSocket.split_callback args)))
             (_namespace sk))]
  /\ clients w1 = clients w /\ calls w1 = calls w /\ rejections w1 = rejections w
  /\ servers w1 = servers w /\ uuids_drawn w1 = S (uuids_drawn w).
Proof.
  intros Hs ackId w1. unfold w1. rewrite (emit_unfold E w s sk event args Hs). cbv zeta.
  assert (Hs0 : sockets (draw_uuid w) !! s = Some sk) by exact Hs.
  destruct (fst (CDPSocket.split_callback args)) as [f|].
  - rewrite (once_unfold _ s sk _ f Hs0). simpl. auto 10.
  - simpl. rewrite app_nil_r. split; [|auto 10].
    symmetry. apply list_insert_id. rewrite Hs. now destruct sk.
Qed.




End EmitMore.




(** X4. Closing a bridge does not cancel an inbound message that is being
    decoded: when the notification was handled before [close], the
    continuation that runs after [close] still calls the listener. *)
Theorem close_does_not_cancel_pending_dispatch
        (E : Env) (w : world) (s : nat) (sk : Socket) (ev : BindingCalledEvent)
        (data : value) (event ackEventId : string) (args : list value)
        (id : nat) (pre post : list listener) :
  sockets w !! s = Some sk ->
  jobs w = [] ->
  name ev = CDPSocket.binding_name (_namespace sk) ->
  JSON_parse E (payload ev) = Some data ->
  decode E data = Some (envelope event ackEventId args) ->
  _listeners sk = pre ++ mkListener event (UserFn id) false :: post ->
  Forall (fun l => l_event l <> event) pre ->
  Forall (fun l => l_event l <> event) post ->
  let w3 := CDPSocket.tick E
              (CDPSocket.close s (CDPSocket.processCDPRuntimeBinding E s ev w)) in
  CDPSocket.connected s w3 = false
  /\ calls w3 = calls w ++ [(id, args ++ [VFun (AckFn s ackEventId)])].
Proof.
  intros Hs Hjobs Hname Hparse Hdec Hl Hpre Hpost w3.
  set (w1 := CDPSocket.processCDPRuntimeBinding E s ev w).
  assert (Hw1 : w1 =
    enqueue (AfterDecode s (Some (envelope event ackEventId args)))
      (CDPSocket.set_socket s
         (mkSocket (_cdpClient sk) (_namespace sk) (Some (executionContextId ev))
            (_listeners sk)) w)).
  { unfold w1. rewrite (process_match E w s sk ev Hs Hname). cbv zeta.
    now rewrite Hparse, Hdec. }
  assert (Hs1 : sockets w1 !! s =
            Some (mkSocket (_cdpClient sk) (_namespace sk) (Some (executionContextId ev))
                    (_listeners sk))).
  { rewrite Hw1. simpl. apply list_lookup_insert_eq. now apply lookup_lt_Some in Hs. }
  pose proof (close_socket s _ w1 Hs1) as Hs2. simpl in Hs2.
  destruct (close_frame s w1) as (_ & Hj2 & Hc2 & _).
  assert (Hj1 : jobs w1 = [AfterDecode s (Some (envelope event ackEventId args))])
    by (rewrite Hw1; simpl; now rewrite Hjobs).
  assert (Hcalls1 : calls w1 = calls w) by now rewrite Hw1.
  unfold w3, CDPSocket.tick. fold w1. rewrite Hj2, Hj1.
  set (w2 := set_jobs [] (CDPSocket.close s w1)).
  assert (Hs2' : sockets w2 !! s =
            Some (mkSocket None (_namespace sk) (Some (executionContextId ev))
                    (_listeners sk))) by exact Hs2.
  destruct (super_emit_user_listener E w2 s _ event id pre post
              (args ++ [VFun (AckFn s ackEventId)]) Hs2' Hl Hpre Hpost)
    as (w' & Hemit & Hcalls & Hsock & _).
  simpl. unfold CDPSocket.after_decode. rewrite Hemit. split.
  - unfold CDPSocket.connected. now rewrite Hsock, Hs2'.
  - rewrite Hcalls. simpl. now rewrite Hc2, Hcalls1.
Qed.

Lemma close_does_not_cancel_pending_dispatch_witness :
  calls (CDPSocket.tick Sample.env
           (CDPSocket.close 0
              (CDPSocket.processCDPRuntimeBinding Sample.env 0 Scenes.ping_notification
                 Scenes.ping_listener_world)))
  = [(1, [VNum 1; VNum 2; VFun (AckFn 0 "ping-u")])].
Proof.
  apply (close_does_not_cancel_pending_dispatch Sample.env Scenes.ping_listener_world 0
           (mkSocket (Some 0) "/default" None [mkListener "ping" (UserFn 1) false])
           Scenes.ping_notification Sample.ping "ping" "ping-u" [VNum 1; VNum 2] 1 [] []);
    try reflexivity; constructor.
Defined.





(** X6. An accepted notification whose payload cannot be parsed, or whose
    parsed payload the codec rejects, dispatches nothing and leaves one
    rejection unhandled; the bridge has nevertheless already taken the
    notification's execution context as its target. *)
Theorem undecodable_inbound_is_dropped
        (E : Env) (w : world) (s : nat) (sk : Socket) (ev : BindingCalledEvent) :
  sockets w !! s = Some sk ->
  name ev = CDPSocket.binding_name (_namespace sk) ->
  jobs w = [] ->
  match JSON_parse E (payload ev) with
  | Some data => decode E data = None
  | None => True
  end ->
  let w2 := CDPSocket.tick E (CDPSocket.processCDPRuntimeBinding E s ev w) in
  calls w2 = calls w
  /\ jobs w2 = []
  /\ clients w2 = clients w
  /\ rejections w2 = S (rejections w)
  /\ sockets w2 =
       <[s := mkSocket (_cdpClient sk) (_namespace sk) (Some (executionContextId ev))
                (_listeners sk)]> (sockets w).
Proof.
  intros Hs Hname Hjobs Hbad w2. unfold w2.
  rewrite (process_match E w s sk ev Hs Hname). cbv zeta.
  destruct (JSON_parse E (payload ev)) as [data|].
  - rewrite Hbad. unfold CDPSocket.tick. simpl. rewrite Hjobs. simpl. auto.
  - unfold CDPSocket.tick. simpl. rewrite Hjobs. simpl. auto.
Qed.

Lemma undecodable_inbound_is_dropped_witness :
  rejections (CDPSocket.tick Sample.env
                (CDPSocket.processCDPRuntimeBinding Sample.env 0
                   Scenes.garbage_notification Scenes.ping_listener_world))
  = 1.
Proof.
  apply (undecodable_inbound_is_dropped Sample.env Scenes.ping_listener_world 0
           (mkSocket (Some 0) "/default" None [mkListener "ping" (UserFn 1) false])
           Scenes.garbage_notification);
    try reflexivity; try exact I.
Defined.







Section NotifyMore.

Context (E : Env).

Lemma notify_other_sockets (subs : list nat) (w : world) (b : nat)
      (ev : BindingCalledEvent) :
  b ∉ subs ->
  sockets (fold_left (fun w0 s => CDPSocket.processCDPRuntimeBinding E s ev w0) subs w) !! b
  = sockets w !! b.
Proof.
  revert w. induction subs as [|s subs IH]; intros w Hnot; simpl; [reflexivity|].
  apply not_elem_of_cons in Hnot as [Hne Hnot].
  rewrite (IH _ Hnot). apply process_other. congruence.
Qed.

(** A notification under the binding name of a subscribed bridge queues
    exactly one dispatch for it. *)
Lemma notify_match_list (subs : list nat) (w : world) (b : nat) (skb : Socket)
      (ev : BindingCalledEvent) (data : value) :
  NoDup subs -> b ∈ subs ->
  sockets w !! b = Some skb ->
  name ev = CDPSocket.binding_name (_namespace skb) ->
  JSON_parse E (payload ev) = Some data ->
  let w' := fold_left (fun w0 s => CDPSocket.processCDPRuntimeBinding E s ev w0) subs w in
  List.filter (inbound_of b) (jobs w')
    = List.filter (inbound_of b) (jobs w) ++ [AfterDecode b (decode E data)]
  /\ sockets w' !! b =
       Some (mkSocket (_cdpClient skb) (_namespace skb) (Some (executionContextId ev))
               (_listeners skb)).
Proof.
  revert w. induction subs as [|x subs IH]; intros w Hnd Hin Hb Hname Hparse w'.
  { now apply elem_of_nil in Hin. }
  apply NoDup_cons in Hnd as [Hx Hnd]. unfold w'. simpl.
  destruct (decide (x = b)) as [->|Hxb].
  - rewrite (notify_unsubscribed_list E subs _ b ev Hx).
    rewrite (notify_other_sockets subs _ b ev Hx).
    rewrite (process_match E w b skb ev Hb Hname). cbv zeta. rewrite Hparse. simpl.
    rewrite List.filter_app. simpl. rewrite Nat.eqb_refl. split; [reflexivity|].
    apply list_lookup_insert_eq. now apply lookup_lt_Some in Hb.
  - apply elem_of_cons in Hin as [Heq|Hin]; [congruence|].
    destruct (process_other E w x b ev Hxb) as [Hsock Hjobs].
    rewrite <- Hjobs. apply IH; auto. now rewrite Hsock.
Qed.

End NotifyMore.

(** X9. When the client delivers a notification under the binding name of
    a subscribed bridge, exactly one dispatch is queued for this bridge,
    with what the codec makes of the parsed payload, and the bridge takes
    the notification's execution context as its target. *)
Theorem accepted_notification_queues_one_dispatch
        (E : Env) (w : world) (c b : nat) (cl : Client) (skb : Socket)
        (ev : BindingCalledEvent) (data : value) :
  reachable E w ->
  clients w !! c = Some cl ->
  b ∈ subscribers cl ->
  sockets w !! b = Some skb ->
  name ev = CDPSocket.binding_name (_namespace skb) ->
  JSON_parse E (payload ev) = Some data ->
  let w' := CDPSocket.notify E c ev w in
  List.filter (inbound_of b) (jobs w')
    = List.filter (inbound_of b) (jobs w) ++ [AfterDecode b (decode E data)]
  /\ sockets w' !! b =
       Some (mkSocket (_cdpClient skb) (_namespace skb) (Some (executionContextId ev))
               (_listeners skb)).
Proof.
  intros Hreach Hc Hin Hb Hname Hparse w'. unfold w', CDPSocket.notify. rewrite Hc.
  destruct (reachable_subscriptions_ok E w Hreach c cl Hc) as [Hnd _].
  now apply notify_match_list.
Qed.

Lemma accepted_notification_queues_one_dispatch_witness :
  jobs (CDPSocket.notify Sample.env 0
          (mkBindingCalled "cypressSendToServer-/a" Sample.ping_json 3) Sample.two_bridges)
  = [AfterDecode 0 (Some Sample.ping)].
Proof.
  apply (accepted_notification_queues_one_dispatch Sample.env Sample.two_bridges 0 0
           (mkClient [0; 1]
              [Runtime_enable; Runtime_addBinding "cypressSendToServer-/a";
               Runtime_enable; Runtime_addBinding "cypressSendToServer-/b"] true)
           (mkSocket (Some 0) "/a" None [])
           (mkBindingCalled "cypressSendToServer-/a" Sample.ping_json 3) Sample.ping).
  - exists [OpNewClient true; OpInit 0 "/a"; OpInit 0 "/b"]. reflexivity.
  - reflexivity.
  - apply list_elem_of_here.
  - reflexivity.
  - reflexivity.
  - reflexivity.
Defined.

(** * Further properties of the registry *)

Section AttachMore.

Context (E : Env).

(** [init] on a client that answers. *)
Lemma init_resolved (c : nat) (cl : Client) (namespace : string) (w : world) :
  clients w !! c = Some cl ->
  responsive cl = true ->
  exists w' : world,
    CDPSocket.init c namespace w = (Some (length (sockets w)), w')
    /\ sockets w' = sockets w ++ [mkSocket (Some c) namespace None []]
    /\ clients w' =
         <[c := mkClient (subscribers cl ++ [length (sockets w)])
                  (sent cl ++ [Runtime_enable;
                               Runtime_addBinding (CDPSocket.binding_name namespace)])
                  true]> (clients w)
    /\ servers w' = servers w /\ jobs w' = jobs w /\ calls w' = calls w
    /\ rejections w' = rejections w /\ uuids_drawn w' = uuids_drawn w.
Proof.
  intros Hc Hresp. unfold CDPSocket.init, CDPClient.send. rewrite Hc, Hresp.
  assert (Hlt : c < length (clients w)) by now apply lookup_lt_Some in Hc.
  simpl. rewrite list_lookup_insert_eq by exact Hlt. simpl.
  unfold CDPClient.on. simpl.
  rewrite list_lookup_insert_eq by (rewrite length_insert; exact Hlt). simpl.
  eexists. split; [reflexivity|]. simpl. split; [reflexivity|]. split; [|auto 10].
  rewrite !list_insert_insert_eq, <- app_assoc. reflexivity.
Qed.

(** [init] on a client that does not answer: the first command is sent,
    and that is all. *)
Lemma init_rejected (c : nat) (cl : Client) (namespace : string) (w : world) :
  clients w !! c = Some cl ->
  responsive cl = false ->
  CDPSocket.init c namespace w =
    (None,
     set_clients
       (<[c := mkClient (subscribers cl) (sent cl ++ [Runtime_enable]) false]> (clients w)) w).
Proof.
  intros Hc Hresp. unfold CDPSocket.init, CDPClient.send. now rewrite Hc, Hresp.
Qed.

End AttachMore.

(** X10. After a registry node without children was attached to a client
    that answers, the node holds a new, connected bridge on its full
    namespace, and an event emitted on the node reaches the page: the
    client has been sent [Runtime.enable], [Runtime.addBinding] for the
    node's binding name and one [Runtime.evaluate] addressed to the node's
    page-side socket. *)
Theorem attach_then_emit_reaches_the_page
        (E : Env) (w : world) (r c : nat) (sv : Server) (cl : Client)
        (event : string) (args : list value) (encoded : value) (json : string) :
  servers w !! r = Some sv ->
  _namespaceMap sv = ∅ ->
  clients w !! c = Some cl ->
  responsive cl = true ->
  jobs w = [] ->
  encode E
    (envelope event (event +:+ "-" +:+ randomUUID E (uuids_drawn w))
       (snd (CDPSocket.split_callback args))) (_fullNamespace sv) = Some encoded ->
  JSON_stringify E encoded = Some json ->
  let s := length (sockets w) in
  let w1 := CDPSocketServer.attach_node r c w in
  let w3 := CDPSocket.tick E (snd (CDPSocketServer.emit E r event args w1)) in
  _cdpSocket <$> (servers w1 !! r) = Some (Some s)
  /\ sockets w1 !! s = Some (mkSocket (Some c) (_fullNamespace sv) None [])
  /\ CDPSocket.connected s w1 = true
  /\ sent <$> (clients w3 !! c) =
       Some (sent cl ++
             [Runtime_enable;
              Runtime_addBinding ("cypressSendToServer-" +:+ _fullNamespace sv);
              Runtime_evaluate
                (CDPSocket.evaluate_expression (_fullNamespace sv) (Js.escape_payload json))
                None]).
Proof.
  intros Hr _ Hc Hresp Hjobs Henc Hjson s w1 w3.
  destruct (init_resolved c cl (_fullNamespace sv) w Hc Hresp)
    as (wi & Hinit & Hsock & Hcl & Hsv & Hj & _ & _ & Hdraw).
  assert (Hrlt : r < length (servers w)) by now apply lookup_lt_Some in Hr.
  assert (Hclt : c < length (clients w)) by now apply lookup_lt_Some in Hc.
  assert (Hw1 : w1 = CDPSocketServer.set_server r
                       (mkServer (Some s) (_fullNamespace sv) (_path sv) (_namespaceMap sv)) wi).
  { unfold w1, CDPSocketServer.attach_node. now rewrite Hr, Hinit. }
  assert (Hr1 : servers w1 !! r =
            Some (mkServer (Some s) (_fullNamespace sv) (_path sv) (_namespaceMap sv))).
  { rewrite Hw1. simpl. apply list_lookup_insert_eq. now rewrite Hsv. }
  assert (Hs1 : sockets w1 !! s = Some (mkSocket (Some c) (_fullNamespace sv) None [])).
  { rewrite Hw1. simpl. rewrite Hsock. rewrite lookup_app_r by (unfold s; lia).
    unfold s. now rewrite Nat.sub_diag. }
  split; [now rewrite Hr1|]. split; [exact Hs1|].
  split; [unfold CDPSocket.connected; now rewrite Hs1|].
  assert (Hemit : snd (CDPSocketServer.emit E r event args w1)
                  = snd (CDPSocket.emit E s event args w1)).
  { unfold CDPSocketServer.emit. now rewrite Hr1. }
  destruct (emit_store E w1 s _ event args Hs1) as (Hsock2 & Hj2 & Hcl2 & _).
  unfold w3. rewrite Hemit.
  set (w2 := snd (CDPSocket.emit E s event args w1)) in *.
  assert (Hdraw1 : uuids_drawn w1 = uuids_drawn w) by (rewrite Hw1; exact Hdraw).
  assert (Hjobs1 : jobs w1 = []) by (rewrite Hw1; simpl; now rewrite Hj).
  rewrite Hdraw1, Hjobs1 in Hj2. simpl in Hj2. rewrite Henc in Hj2.
  unfold CDPSocket.tick. rewrite Hj2. simpl.
  assert (Hs2 : sockets (set_jobs [] w2) !! s
                = Some (mkSocket (Some c) (_fullNamespace sv) None
                          ([] ++ match fst (CDPSocket.split_callback args) with
                                 | Some f =>
                                     [mkListener
                                        (event +:+ "-" +:+ randomUUID E (uuids_drawn w1)) f true]
                                 | None => []
                                 end))).
  { simpl. rewrite Hsock2. apply list_lookup_insert_eq. now apply lookup_lt_Some in Hs1. }
  assert (Hcl2' : clients (set_jobs [] w2) !! c =
            Some (mkClient (subscribers cl ++ [length (sockets w)])
                    (sent cl ++ [Runtime_enable;
                                 Runtime_addBinding (CDPSocket.binding_name (_fullNamespace sv))])
                    true)).
  { simpl. rewrite Hcl2, Hw1. simpl. rewrite Hcl. now apply list_lookup_insert_eq. }
  rewrite (after_encode_sends E _ s c _ _ encoded json Hs2 eq_refl Hcl2' Hjson). simpl.
  rewrite list_lookup_insert_eq.
  - simpl. now rewrite <- app_assoc.
  - rewrite Hcl2, Hw1. simpl. rewrite Hcl, length_insert. exact Hclt.
Qed.

Lemma attach_then_emit_reaches_the_page_witness :
  exists expression : string,
    sent <$> (clients
                (CDPSocket.tick Sample.env
                   (snd (CDPSocketServer.emit Sample.env 0 "ping" [VNum 1; VNum 2]
                           (CDPSocketServer.attach_node 0 0 Scenes.registry_world)))) !! 0)
    = Some [Runtime_enable; Runtime_addBinding "cypressSendToServer-/__socket/default";
            Runtime_evaluate expression None].
Proof.
  eexists.
  apply (attach_then_emit_reaches_the_page Sample.env Scenes.registry_world 0 0
           (mkServer None "/__socket/default" "/__socket" ∅) (mkClient [] [] true)
           "ping" [VNum 1; VNum 2] Sample.ping Sample.ping_json);
    reflexivity.
Defined.

(** X11. Attaching a node to a client that does not answer sends
    [Runtime.enable] and nothing more: no binding is registered, no bridge
    is made or subscribed, and the node keeps the bridge it had, if any. *)
Theorem attach_to_silent_client_changes_nothing
        (w : world) (r c : nat) (sv : Server) (cl : Client) :
  servers w !! r = Some sv ->
  clients w !! c = Some cl ->
  responsive cl = false ->
  let w1 := CDPSocketServer.attach_node r c w in
  servers w1 = servers w
  /\ sockets w1 = sockets w
  /\ jobs w1 = jobs w
  /\ clients w1 =
       <[c := mkClient (subscribers cl) (sent cl ++ [Runtime_enable]) false]> (clients w).
Proof.
  intros Hr Hc Hresp w1. unfold w1, CDPSocketServer.attach_node.
  rewrite Hr, (init_rejected c cl _ w Hc Hresp). simpl. auto.
Qed.

Lemma attach_to_silent_client_changes_nothing_witness :
  sockets (CDPSocketServer.attach_node 0 0 Scenes.silent_registry_world)
  = sockets Scenes.silent_registry_world.
Proof.
  apply (attach_to_silent_client_changes_nothing Scenes.silent_registry_world 0 0
           (mkServer None "/__socket/default" "/__socket" ∅) (mkClient [] [] false));
    reflexivity.
Defined.

Section AttachTwice.

(** [attachCDPClient] for a node, on a client that answers, spelled out. *)
Lemma attach_resolved (w : world) (r c : nat) (sv : Server) (cl : Client) :
  servers w !! r = Some sv ->
  clients w !! c = Some cl ->
  responsive cl = true ->
  let s := length (sockets w) in
  let w1 := CDPSocketServer.attach_node r c w in
  servers w1 =
    <[r := mkServer (Some s) (_fullNamespace sv) (_path sv) (_namespaceMap sv)]> (servers w)
  /\ sockets w1 = sockets w ++ [mkSocket (Some c) (_fullNamespace sv) None []]
  /\ clients w1 =
       <[c := mkClient (subscribers cl ++ [s])
                (sent cl ++ [Runtime_enable;
                             Runtime_addBinding (CDPSocket.binding_name (_fullNamespace sv))])
                true]> (clients w)
  /\ jobs w1 = jobs w.
Proof.
  intros Hr Hc Hresp s w1.
  destruct (init_resolved c cl (_fullNamespace sv) w Hc Hresp)
    as (wi & Hinit & Hsock & Hcl & Hsv & Hj & _).
  unfold w1, CDPSocketServer.attach_node. rewrite Hr, Hinit. simpl.
  rewrite Hsv, Hsock, Hcl, Hj. auto.
Qed.

Lemma close_node_unfold (w : world) (r s : nat) (sv : Server) :
  servers w !! r = Some sv ->
  _cdpSocket sv = Some s ->
  CDPSocketServer.close_node r w =
    CDPSocketServer.set_server r
      (mkServer None (_fullNamespace sv) (_path sv) (_namespaceMap sv)) (CDPSocket.close s w).
Proof. intros Hr Hs. unfold CDPSocketServer.close_node. now rewrite Hr, Hs. Qed.

End AttachTwice.

(** X12. Attaching a node without children a second time gives it a
    second bridge and leaves the first one connected and subscribed;
    closing the node afterwards closes the second bridge only, so the
    first keeps receiving the client's notifications. *)
Theorem second_attach_leaves_first_bridge_subscribed
        (w : world) (r c : nat) (sv : Server) (cl : Client) :
  servers w !! r = Some sv ->
  _namespaceMap sv = ∅ ->
  clients w !! c = Some cl ->
  responsive cl = true ->
  let s1 := length (sockets w) in
  let s2 := S (length (sockets w)) in
  let w2 := CDPSocketServer.attach_node r c (CDPSocketServer.attach_node r c w) in
  let w3 := CDPSocketServer.close_node r w2 in
  _cdpSocket <$> (servers w2 !! r) = Some (Some s2)
  /\ sockets w2 !! s1 = Some (mkSocket (Some c) (_fullNamespace sv) None [])
  /\ sockets w2 !! s2 = Some (mkSocket (Some c) (_fullNamespace sv) None [])
  /\ subscribers <$> (clients w2 !! c) = Some (subscribers cl ++ [s1; s2])
  /\ _cdpSocket <$> (servers w3 !! r) = Some None
  /\ CDPSocket.connected s2 w3 = false
  /\ CDPSocket.connected s1 w3 = true
  /\ exists cl3 : Client, clients w3 !! c = Some cl3 /\ s1 ∈ subscribers cl3.
Proof.
  intros Hr _ Hc Hresp s1 s2 w2 w3.
  assert (Hrlt : r < length (servers w)) by now apply lookup_lt_Some in Hr.
  assert (Hclt : c < length (clients w)) by now apply lookup_lt_Some in Hc.
  set (w1 := CDPSocketServer.attach_node r c w) in *.
  destruct (attach_resolved w r c sv cl Hr Hc Hresp) as (Hsv1 & Hsock1 & Hcl1 & _).
  fold w1 s1 in Hsv1, Hsock1, Hcl1.
  assert (Hr1 : servers w1 !! r =
            Some (mkServer (Some s1) (_fullNamespace sv) (_path sv) (_namespaceMap sv)))
    by (rewrite Hsv1; now apply list_lookup_insert_eq).
  assert (Hc1 : clients w1 !! c =
            Some (mkClient (subscribers cl ++ [s1])
                    (sent cl ++ [Runtime_enable;
                                 Runtime_addBinding
                                   (CDPSocket.binding_name (_fullNamespace sv))]) true))
    by (rewrite Hcl1; now apply list_lookup_insert_eq).
  destruct (attach_resolved w1 r c _ _ Hr1 Hc1 eq_refl) as (Hsv2 & Hsock2 & Hcl2 & _).
  fold w2 in Hsv2, Hsock2, Hcl2. simpl in Hsv2, Hsock2, Hcl2.
  assert (Hlen1 : length (sockets w1) = s2)
    by (rewrite Hsock1, length_app; simpl; unfold s2; lia).
  rewrite Hlen1 in Hsv2, Hcl2.
  assert (Hr2 : servers w2 !! r =
            Some (mkServer (Some s2) (_fullNamespace sv) (_path sv) (_namespaceMap sv))).
  { rewrite Hsv2. apply list_lookup_insert_eq. now rewrite Hsv1, length_insert. }
  assert (Hs1 : sockets w2 !! s1 = Some (mkSocket (Some c) (_fullNamespace sv) None [])).
  { rewrite Hsock2, Hsock1, <- app_assoc. rewrite lookup_app_r by (unfold s1; lia).
    unfold s1. now rewrite Nat.sub_diag. }
  assert (Hs2 : sockets w2 !! s2 = Some (mkSocket (Some c) (_fullNamespace sv) None [])).
  { rewrite Hsock2. rewrite lookup_app_r by lia. now rewrite Hlen1, Nat.sub_diag. }
  assert (Hc2 : clients w2 !! c =
            Some (mkClient ((subscribers cl ++ [s1]) ++ [s2])
                    ((sent cl ++ [Runtime_enable;
                                  Runtime_addBinding
                                    (CDPSocket.binding_name (_fullNamespace sv))])
                     ++ [Runtime_enable;
                         Runtime_addBinding (CDPSocket.binding_name (_fullNamespace sv))])
                    true)).
  { rewrite Hcl2. apply list_lookup_insert_eq. now rewrite Hcl1, length_insert. }
  split; [now rewrite Hr2|]. split; [exact Hs1|]. split; [exact Hs2|].
  split; [rewrite Hc2; simpl; now rewrite <- app_assoc|].
  assert (Hw3 : w3 = CDPSocketServer.set_server r
                       (mkServer None (_fullNamespace sv) (_path sv) (_namespaceMap sv))
                       (CDPSocket.close s2 w2))
    by (unfold w3; now rewrite (close_node_unfold w2 r s2 _ Hr2 eq_refl)).
  destruct (close_frame s2 w2) as (Hsvc & _).
  assert (Hne : s1 <> s2) by (unfold s1, s2; lia).
  split.
  { rewrite Hw3. simpl. rewrite list_lookup_insert_eq; [reflexivity|].
    rewrite Hsvc, Hsv2, length_insert, Hsv1, length_insert. exact Hrlt. }
  split.
  { rewrite Hw3. unfold CDPSocket.connected. simpl.
    now rewrite (close_socket s2 _ w2 Hs2). }
  split.
  { rewrite Hw3. unfold CDPSocket.connected. simpl.
    now rewrite (close_other_socket s2 s1 w2 Hne), Hs1. }
  destruct (close_clients s2 w2 c _ Hc2) as (cl3 & Hc3 & _ & _ & Hsub).
  exists cl3. rewrite Hw3. split; [exact Hc3|].
  apply (Hsub s1 Hne). simpl. rewrite !elem_of_app. left. right. apply list_elem_of_here.
Qed.

Lemma second_attach_leaves_first_bridge_subscribed_witness :
  CDPSocket.connected 0
    (CDPSocketServer.close_node 0
       (CDPSocketServer.attach_node 0 0
          (CDPSocketServer.attach_node 0 0 Scenes.registry_world))) = true.
Proof.
  apply (second_attach_leaves_first_bridge_subscribed Scenes.registry_world 0 0
           (mkServer None "/__socket/default" "/__socket" ∅) (mkClient [] [] true));
    reflexivity.
Defined.

(** X13. A namespace that [of] creates (the node did not hold the key,
    and the key names no inherited member) has no bridge, whether or not
    its parent is attached: until it is attached itself, every event
    emitted on it is dropped.  The parent keeps its bridge. *)
Theorem new_namespace_is_not_connected
        (E : Env) (w : world) (r : nat) (sv : Server) (namespace : string) :
  servers w !! r = Some sv ->
  _namespaceMap sv !! (_path sv +:+ namespace) = None ->
  Js.inherited (_path sv +:+ namespace) = false ->
  exists (c : nat) (w1 : world),
    CDPSocketServer.of_ r namespace w = Some (Node c, w1)
    /\ _cdpSocket <$> (servers w1 !! c) = Some None
    /\ _cdpSocket <$> (servers w1 !! r) = Some (_cdpSocket sv)
    /\ sockets w1 = sockets w /\ clients w1 = clients w
    /\ forall (event : string) (args : list value),
         CDPSocketServer.emit E c event args w1 = (true, w1).
Proof.
  intros Hr Hn Hi. rewrite (of_fresh w r sv namespace Hr Hn Hi).
  assert (Hrlt : r < length (servers w)) by now apply lookup_lt_Some in Hr.
  set (w1 := CDPSocketServer.set_server r _ _).
  exists (length (servers w)), w1. split; [reflexivity|].
  assert (Hc : servers w1 !! length (servers w)
               = Some (mkServer None (_path sv +:+ namespace) (_path sv) ∅)).
  { unfold w1. simpl. rewrite list_lookup_insert_ne by lia.
    rewrite lookup_app_r by lia. now rewrite Nat.sub_diag. }
  split; [now rewrite Hc|].
  split.
  { unfold w1. simpl. rewrite list_lookup_insert_eq; [reflexivity|].
    rewrite length_app. simpl. lia. }
  split; [reflexivity|]. split; [reflexivity|].
  intros event args. unfold CDPSocketServer.emit. now rewrite Hc.
Qed.

Lemma new_namespace_is_not_connected_witness :
  exists (c : nat) (w1 : world),
    CDPSocketServer.of_ 0 "/data-context"
      (CDPSocketServer.attach_node 0 0 Scenes.registry_world) = Some (Node c, w1)
    /\ CDPSocketServer.emit Sample.env c "ping" [VNum 1] w1 = (true, w1).
Proof.
  destruct (new_namespace_is_not_connected Sample.env
              (CDPSocketServer.attach_node 0 0 Scenes.registry_world) 0
              (mkServer (Some 0) "/__socket/default" "/__socket" ∅) "/data-context"
              eq_refl eq_refl eq_refl)
    as (c & w1 & Hof & _ & _ & _ & _ & Hemit).
  exists c, w1. split; [exact Hof | apply Hemit].
Defined.

(** X14. Two different suffixes whose keys name no inherited member give
    two different children of a node, with different full namespaces and
    therefore different binding names. *)
Theorem different_suffixes_give_different_children
        (E : Env) (w : world) (r : nat) (sv : Server) (a b : string) :
  reachable E w ->
  servers w !! r = Some sv ->
  Js.inherited (_path sv +:+ a) = false ->
  Js.inherited (_path sv +:+ b) = false ->
  a <> b ->
  exists (x y : nat) (w1 w2 : world),
    CDPSocketServer.of_ r a w = Some (Node x, w1)
    /\ CDPSocketServer.of_ r b w1 = Some (Node y, w2)
    /\ x <> y
    /\ CDPSocketServer.fullNamespace_of x w2 = Some (_path sv +:+ a)
    /\ CDPSocketServer.fullNamespace_of y w2 = Some (_path sv +:+ b)
    /\ CDPSocket.binding_name (_path sv +:+ a) <> CDPSocket.binding_name (_path sv +:+ b).
Proof.
  intros Hreach Hr Hia Hib Hab. pose proof (reachable_registry_ok E w Hreach) as Hok.
  destruct (of_child w r sv a Hok Hr Hia)
    as (x & w1 & sv1 & chx & Hofa & Hok1 & Hg1 & Hr1 & Hp1 & _ & Hx & _ & Hfx & _).
  assert (Hib1 : Js.inherited (_path sv1 +:+ b) = false) by now rewrite Hp1.
  destruct (of_child w1 r sv1 b Hok1 Hr1 Hib1)
    as (y & w2 & sv2 & chy & Hofb & _ & Hg2 & _ & _ & _ & Hy & _ & Hfy & _).
  destruct (Hg2 x chx Hx) as (chx2 & Hx2 & _ & Hfx2 & _).
  assert (Hkeys : _path sv +:+ a <> _path sv +:+ b)
    by (intros Heq; apply append_inj_l in Heq; contradiction).
  exists x, y, w1, w2. split; [exact Hofa|]. split; [exact Hofb|].
  assert (Hnx : CDPSocketServer.fullNamespace_of x w2 = Some (_path sv +:+ a))
    by (unfold CDPSocketServer.fullNamespace_of; rewrite Hx2; simpl; congruence).
  assert (Hny : CDPSocketServer.fullNamespace_of y w2 = Some (_path sv +:+ b))
    by (unfold CDPSocketServer.fullNamespace_of; rewrite Hy; simpl; congruence).
  split; [|split; [exact Hnx|split; [exact Hny|]]].
  - intros ->. rewrite Hnx in Hny. injection Hny as Heq. contradiction.
  - intros Heq. apply binding_name_inj in Heq. contradiction.
Qed.

Lemma different_suffixes_give_different_children_witness :
  exists (x y : nat) (w1 w2 : world),
    CDPSocketServer.of_ 0 "/a" Scenes.registry_world = Some (Node x, w1)
    /\ CDPSocketServer.of_ 0 "/b" w1 = Some (Node y, w2)
    /\ x <> y.
Proof.
  destruct (different_suffixes_give_different_children Sample.env Scenes.registry_world 0
              (mkServer None "/__socket/default" "/__socket" ∅) "/a" "/b")
    as (x & y & w1 & w2 & Ha & Hb & Hne & _).
  - exists [OpNewClient true; OpNewServer (Some "/__socket") None]. reflexivity.
  - reflexivity.
  - reflexivity.
  - reflexivity.
  - discriminate.
  - exists x, y, w1, w2. auto.
Defined.

(** X26. On every registry node of a reachable store and for every suffix
    whose key names no inherited member, [of] returns a child node,
    created by the call when the node did not hold it yet, whose full
    namespace is the node's path followed by the suffix; a second call
    returns the same child and changes nothing, and so does every later
    call, whatever happened to the store in between. *)
Theorem of_returns_the_same_child
        (E : Env) (w : world) (r : nat) (sv : Server) (s : string) :
  reachable E w ->
  servers w !! r = Some sv ->
  Js.inherited (_path sv +:+ s) = false ->
  exists (c : nat) (w1 : world),
    CDPSocketServer.of_ r s w = Some (Node c, w1)
    /\ (_namespaceMap sv !! (_path sv +:+ s) = None ->
        servers w !! c = None /\ length (servers w1) = S (length (servers w)))
    /\ CDPSocketServer.fullNamespace_of c w1 = Some (_path sv +:+ s)
    /\ CDPSocketServer.of_ r s w1 = Some (Node c, w1)
    /\ forall ops : list op,
         CDPSocketServer.of_ r s (run E ops w1) = Some (Node c, run E ops w1).
Proof.
  intros Hreach Hr Hi. pose proof (reachable_registry_ok E w Hreach) as Hok.
  destruct (of_child w r sv s Hok Hr Hi)
    as (c & w1 & sv1 & ch1 & Hof1 & Hok1 & Hg1 & Hr1 & Hp1 & Hm1 & Hc1 & _ & Hf1 & Hnew).
  assert (Hlater : forall ops : list op,
            CDPSocketServer.of_ r s (run E ops w1) = Some (Node c, run E ops w1)).
  { intros ops. destruct (grows_run E ops w1 r sv1 Hr1) as (sv2 & Hr2 & Hp2 & _ & Hm2).
    apply (of_existing _ r sv2 s c Hr2). rewrite Hp2, Hp1. now apply Hm2. }
  exists c, w1. split; [exact Hof1|]. split; [|split; [|split]].
  - intros Hn. destruct (Hnew Hn) as [-> Hlen]. split; [|exact Hlen].
    apply lookup_ge_None. lia.
  - unfold CDPSocketServer.fullNamespace_of. now rewrite Hc1, <- Hf1.
  - exact (Hlater []).
  - exact Hlater.
Qed.

Lemma of_returns_the_same_child_witness :
  exists (c : nat) (w1 : world),
    CDPSocketServer.of_ 0 "/data-context"
      (snd (CDPSocketServer.new (Some "/__socket") None empty_world)) = Some (Node c, w1)
    /\ CDPSocketServer.of_ 0 "/data-context" w1 = Some (Node c, w1).
Proof.
  destruct (of_returns_the_same_child Sample.env
              (snd (CDPSocketServer.new (Some "/__socket") None empty_world)) 0
              (mkServer None "/__socket/default" "/__socket" ∅) "/data-context"
              (ex_intro _ [OpNewServer (Some "/__socket") None] eq_refl) eq_refl eq_refl)
    as (c & w1 & Hof & _ & _ & Hagain & _).
  exists c, w1. split; [exact Hof | exact Hagain].
Defined.

(** X27. Nested calls do not compose namespaces: on every registry node
    of a reachable store and for suffixes [a] and [b] whose keys name no
    inherited member, the node [r.of(a).of(b)] and the node [r.of(b)] have
    the same full namespace, the node's path followed by [b], and so the
    bridges attached to them register the same binding name; the child
    made by [of(a)] has the node's path, not the node's full namespace, as
    its own path. *)
Theorem nested_of_keeps_the_parent_path
        (E : Env) (w : world) (r : nat) (sv : Server) (a b : string) :
  reachable E w ->
  servers w !! r = Some sv ->
  Js.inherited (_path sv +:+ a) = false ->
  Js.inherited (_path sv +:+ b) = false ->
  exists (ca x y : nat) (w0 w1 w2 : world) (child : Server),
    CDPSocketServer.of_ r a w = Some (Node ca, w0) /\
    servers w0 !! ca = Some child /\ _path child = _path sv /\
    CDPSocketServer.of_of r a b w = Some (Returns (Node x, w1)) /\
    CDPSocketServer.of_ r b w1 = Some (Node y, w2) /\
    CDPSocketServer.fullNamespace_of x w2 = Some (_path sv +:+ b) /\
    CDPSocketServer.fullNamespace_of y w2 = Some (_path sv +:+ b) /\
    (CDPSocket.binding_name <$> CDPSocketServer.fullNamespace_of x w2)
      = (CDPSocket.binding_name <$> CDPSocketServer.fullNamespace_of y w2).
Proof.
  intros Hreach Hr Hia Hib. pose proof (reachable_registry_ok E w Hreach) as Hok.
  destruct (of_child w r sv a Hok Hr Hia)
    as (ca & w0 & sv0 & child & Hofa & _ & _ & _ & _ & _ & Hca & Hpc & _ & _).
  destruct (of_of_child w r sv a b Hok Hr Hia Hib)
    as (x & w1 & chx & Hofof & Hok1 & Hg1 & Hx & _ & Hfx).
  destruct (Hg1 r sv Hr) as (sv1 & Hr1 & Hp1 & _ & _).
  assert (Hib1 : Js.inherited (_path sv1 +:+ b) = false) by now rewrite Hp1.
  destruct (of_child w1 r sv1 b Hok1 Hr1 Hib1)
    as (y & w2 & sv2 & chy & Hof & _ & Hg2 & _ & _ & _ & Hy & _ & Hfy & _).
  destruct (Hg2 x chx Hx) as (chx2 & Hx2 & _ & Hfx2 & _).
  assert (Hnx : CDPSocketServer.fullNamespace_of x w2 = Some (_path sv +:+ b))
    by (unfold CDPSocketServer.fullNamespace_of; rewrite Hx2; simpl; congruence).
  assert (Hny : CDPSocketServer.fullNamespace_of y w2 = Some (_path sv +:+ b))
    by (unfold CDPSocketServer.fullNamespace_of; rewrite Hy; simpl; congruence).
  exists ca, x, y, w0, w1, w2, child.
  split; [exact Hofa|]. split; [exact Hca|]. split; [exact Hpc|].
  split; [exact Hofof|]. split; [exact Hof|].
  split; [exact Hnx|]. split; [exact Hny|]. now rewrite Hnx, Hny.
Qed.

Lemma nested_of_keeps_the_parent_path_witness :
  exists (x y : nat) (w1 w2 : world),
    CDPSocketServer.of_of 0 "/a" "/b"
      (snd (CDPSocketServer.new (Some "/__socket") None empty_world))
      = Some (Returns (Node x, w1)) /\
    CDPSocketServer.of_ 0 "/b" w1 = Some (Node y, w2) /\
    CDPSocketServer.fullNamespace_of x w2 = Some "/__socket/b" /\
    CDPSocketServer.fullNamespace_of y w2 = Some "/__socket/b".
Proof.
  destruct (nested_of_keeps_the_parent_path Sample.env
              (snd (CDPSocketServer.new (Some "/__socket") None empty_world)) 0
              (mkServer None "/__socket/default" "/__socket" ∅) "/a" "/b"
              (ex_intro _ [OpNewServer (Some "/__socket") None] eq_refl) eq_refl
              eq_refl eq_refl)
    as (ca & x & y & w0 & w1 & w2 & child & _ & _ & _ & Hofof & Hof & Hx & Hy & _).
  exists x, y, w1, w2. auto.
Defined.

(** * The registry's [close] over the tree of nodes *)

Section OnlyCloses.

Lemma only_closes_refl (w : world) : only_closes w w.
Proof.
  split; [reflexivity|]. split; [intros d sv Hd; exists sv; auto 10|].
  split; [reflexivity|]. split; [intros b sk Hb; exists sk; auto 10|].
  split; [reflexivity|]. split; [|auto].
  intros c cl Hc. exists cl. auto.
Qed.

Lemma remove_first_sublist (s : nat) (l : list nat) :
  CDPClient.remove_first s l `sublist_of` l.
Proof.
  induction l as [|x l IH]; simpl; [reflexivity|].
  destruct (Nat.eqb x s); [now apply sublist_cons | now apply sublist_skip].
Qed.

Lemma only_closes_idle (w w' : world) (s : nat) :
  only_closes w w' ->
  (forall sk : Socket, sockets w !! s = Some sk -> _cdpClient sk = None) ->
  forall sk' : Socket, sockets w' !! s = Some sk' -> _cdpClient sk' = None.
Proof.
  intros (_ & _ & Hlen & Hsock & _) Hidle sk' Hs'.
  destruct (sockets w !! s) as [sk|] eqn:Hs.
  - destruct (Hsock s sk Hs) as (sk2 & Hs2 & _ & _ & _ & [Heq|Hnone]).
    + rewrite Hs' in Hs2. injection Hs2 as <-. rewrite Heq. now apply Hidle.
    + congruence.
  - apply lookup_lt_Some in Hs'. apply lookup_ge_None in Hs. lia.
Qed.

Lemma only_closes_trans (w1 w2 w3 : world) :
  only_closes w1 w2 -> only_closes w2 w3 -> only_closes w1 w3.
Proof.
  intros H12 H23.
  pose proof H12 as (Hl1 & Hsv1 & Hl2 & Hsk1 & Hl3 & Hcl1 & Hj1 & Hc1 & Hr1 & Hu1).
  pose proof H23 as (Hl1' & Hsv2 & Hl2' & Hsk2 & Hl3' & Hcl2 & Hj2 & Hc2 & Hr2 & Hu2).
  split; [congruence|]. split.
  { intros d sv Hd. destruct (Hsv1 d sv Hd) as (sv2 & Hd2 & Hp2 & Hf2 & Hm2 & Hs2).
    destruct (Hsv2 d sv2 Hd2) as (sv3 & Hd3 & Hp3 & Hf3 & Hm3 & Hs3).
    exists sv3. split; [exact Hd3|]. split; [congruence|]. split; [congruence|].
    split; [congruence|].
    destruct Hs3 as [Heq3|[Hn3 Hrel3]].
    - destruct Hs2 as [Heq2|[Hn2 Hrel2]].
      + left. congruence.
      + right. split; [congruence|]. intros s sk' Hs.
        apply (only_closes_idle w2 w3 s H23). intros sk. now apply Hrel2.
    - right. split; [exact Hn3|]. intros s sk' Hs.
      destruct Hs2 as [Heq2|[Hn2 Hrel2]].
      + apply Hrel3. congruence.
      + apply (only_closes_idle w2 w3 s H23). intros sk. now apply Hrel2. }
  split; [congruence|]. split.
  { intros b sk Hb. destruct (Hsk1 b sk Hb) as (sk2 & Hb2 & Hn2 & He2 & Hls2 & Hc2').
    destruct (Hsk2 b sk2 Hb2) as (sk3 & Hb3 & Hn3 & He3 & Hls3 & Hc3').
    exists sk3. split; [exact Hb3|]. split; [congruence|]. split; [congruence|].
    split; [congruence|].
    destruct Hc3' as [Heq3|Hnone3]; [|now right].
    destruct Hc2' as [Heq2|Hnone2]; [left | right]; congruence. }
  split; [congruence|]. split.
  { intros c cl Hc. destruct (Hcl1 c cl Hc) as (cl2 & Hc2' & Hs2 & Hr2' & Hsub2).
    destruct (Hcl2 c cl2 Hc2') as (cl3 & Hc3' & Hs3 & Hr3' & Hsub3).
    exists cl3. split; [exact Hc3'|]. split; [congruence|]. split; [congruence|].
    now transitivity (subscribers cl2). }
  repeat split; congruence.
Qed.

(** Closing a bridge only closes. *)
Lemma close_only_closes (s : nat) (w : world) : only_closes w (CDPSocket.close s w).
Proof.
  destruct (close_frame s w) as (Hsv & Hj & Hca & Hr & Hu & Hlen).
  split; [now rewrite Hsv|]. split.
  { intros d sv Hd. exists sv. rewrite Hsv. auto 10. }
  split; [exact Hlen|]. split.
  { intros b sk Hb. destruct (decide (b = s)) as [->|Hne].
    - eexists. split; [apply (close_socket s sk w Hb)|]. simpl. auto.
    - exists sk. rewrite (close_other_socket s b w Hne). auto 10. }
  split.
  { unfold CDPSocket.close. destruct (sockets w !! s) as [sk|]; [|reflexivity].
    destruct (_cdpClient sk) as [c|]; [unfold CDPClient.off; destruct (clients w !! c)|];
      simpl; try rewrite length_insert; reflexivity. }
  split; [|auto].
  intros c cl Hc. unfold CDPSocket.close.
  destruct (sockets w !! s) as [sk|]; [|exists cl; auto].
  destruct (_cdpClient sk) as [c0|]; simpl; [|exists cl; auto].
  unfold CDPClient.off. destruct (clients w !! c0) as [cl0|] eqn:Hc0; simpl; [|exists cl; auto].
  destruct (decide (c0 = c)) as [->|Hcc].
  - rewrite list_lookup_insert_eq by now apply lookup_lt_Some in Hc.
    rewrite Hc in Hc0. injection Hc0 as <-.
    eexists. split; [reflexivity|]. simpl. split; [reflexivity|]. split; [reflexivity|].
    apply remove_first_sublist.
  - rewrite list_lookup_insert_ne by exact Hcc. exists cl. auto.
Qed.

(** Replacing a node by one without bridge, whose bridge holds no client,
    only closes. *)
Lemma drop_bridge_only_closes (r : nat) (sv : Server) (w : world) :
  servers w !! r = Some sv ->
  (forall (s : nat) (sk : Socket),
     _cdpSocket sv = Some s -> sockets w !! s = Some sk -> _cdpClient sk = None) ->
  only_closes w
    (CDPSocketServer.set_server r
       (mkServer None (_fullNamespace sv) (_path sv) (_namespaceMap sv)) w).
Proof.
  intros Hr Hrel. assert (Hlt : r < length (servers w)) by now apply lookup_lt_Some in Hr.
  split; [simpl; now rewrite length_insert|]. split.
  { intros d sv0 Hd. simpl. destruct (decide (r = d)) as [->|Hne].
    - rewrite list_lookup_insert_eq by exact Hlt. rewrite Hr in Hd. injection Hd as <-.
      eexists. split; [reflexivity|]. simpl. auto 10.
    - rewrite list_lookup_insert_ne by exact Hne. exists sv0. auto 10. }
  split; [reflexivity|]. split; [intros b sk Hb; exists sk; auto 10|].
  split; [reflexivity|]. split; [intros c cl Hc; exists cl; auto 10|]. auto.
Qed.

Lemma close_node_only_closes (r : nat) (w : world) :
  only_closes w (CDPSocketServer.close_node r w).
Proof.
  unfold CDPSocketServer.close_node.
  destruct (servers w !! r) as [sv|] eqn:Hr; [|apply only_closes_refl].
  destruct (_cdpSocket sv) as [s|] eqn:Hs.
  - eapply only_closes_trans; [apply (close_only_closes s w)|].
    destruct (close_frame s w) as (Hsv & _).
    assert (Hr' : servers (CDPSocket.close s w) !! r = Some sv) by now rewrite Hsv.
    apply (drop_bridge_only_closes r sv _ Hr').
    intros s0 sk' Hs0 Hsk'. rewrite Hs in Hs0. injection Hs0 as <-.
    destruct (sockets w !! s) as [sk|] eqn:Hsk.
    + rewrite (close_socket s sk w Hsk) in Hsk'. now injection Hsk' as <-.
    + apply lookup_lt_Some in Hsk'. apply lookup_ge_None in Hsk.
      destruct (close_frame s w) as (_ & _ & _ & _ & _ & Hlen). lia.
  - apply (drop_bridge_only_closes r sv w Hr). intros s0 sk' Hs0. congruence.
Qed.

End OnlyCloses.

Section CloseTree.

Variable values : gmap string nat -> list nat.
Hypothesis values_spec : Registry.lists_values values.

Lemma values_elem (m : gmap string nat) (c : nat) :
  c ∈ values m <-> exists key : string, m !! key = Some c.
Proof.
  rewrite (values_spec m). rewrite list_elem_of_fmap. split.
  - intros ([key c'] & -> & Hin). exists key. now apply elem_of_map_to_list in Hin.
  - intros [key Hkey]. exists (key, c). split; [reflexivity|]. now apply elem_of_map_to_list.
Qed.

Lemma fold_close_ind (P : world -> Prop) (step : nat -> world -> world)
    (cs : list nat) (w : world) :
  P w -> (forall (c : nat) (w' : world), c ∈ cs -> P w' -> P (step c w')) ->
  P (fold_left (fun w' c => step c w') cs w).
Proof.
  revert w. induction cs as [|c cs IH]; intros w Hw Hstep; simpl; [exact Hw|].
  apply IH.
  - apply Hstep; [left | exact Hw].
  - intros c' w' Hin. apply Hstep. now right.
Qed.

Lemma fold_close_reaches (Q P : world -> Prop) (step : nat -> world -> world)
    (cs : list nat) (c : nat) (w : world) :
  c ∈ cs -> Q w ->
  (forall (c' : nat) (w' : world), Q w' -> Q (step c' w')) ->
  (forall w' : world, Q w' -> P (step c w')) ->
  (forall (c' : nat) (w' : world), P w' -> P (step c' w')) ->
  P (fold_left (fun w' c' => step c' w') cs w).
Proof.
  intros Hin HQ HQstep Hc HPstep. revert w HQ.
  induction cs as [|c0 cs IH]; intros w HQ; [now apply elem_of_nil in Hin|].
  simpl. destruct (decide (c = c0)) as [<-|Hne].
  - apply fold_close_ind; [now apply Hc | intros; now apply HPstep].
  - apply elem_of_cons in Hin as [Heq|Hin]; [contradiction|].
    apply (IH Hin). now apply HQstep.
Qed.

Lemma close_tree_unfold (fuel r : nat) (sv : Server) (w : world) :
  servers w !! r = Some sv ->
  Registry.close_tree values (S fuel) r w
  = fold_left (fun w' c => Registry.close_tree values fuel c w')
      (values (_namespaceMap sv)) (CDPSocketServer.close_node r w).
Proof. intros Hr. simpl. now rewrite Hr. Qed.

Lemma close_tree_only_closes (fuel r : nat) (w : world) :
  only_closes w (Registry.close_tree values fuel r w).
Proof.
  revert r w. induction fuel as [|fuel IH]; intros r w; simpl; [apply only_closes_refl|].
  destruct (servers w !! r) as [sv|]; [|apply only_closes_refl].
  apply (fold_close_ind (only_closes w)); [apply close_node_only_closes|].
  intros c w' _ Hw'. eapply only_closes_trans; [exact Hw' | apply IH].
Qed.

Lemma only_closes_maps (w w' : world) : only_closes w w' -> maps w' = maps w.
Proof.
  intros (Hlen & Hsv & _). unfold maps. apply list_eq. intros d.
  rewrite !list_lookup_fmap. destruct (servers w !! d) as [sv|] eqn:Hd.
  - destruct (Hsv d sv Hd) as (sv' & -> & _ & _ & Hmap & _). simpl. now rewrite Hmap.
  - apply lookup_ge_None in Hd. rewrite <- Hlen in Hd. apply lookup_ge_None in Hd.
    now rewrite Hd.
Qed.

Lemma maps_lookup (w : world) (r : nat) (sv : Server) :
  servers w !! r = Some sv -> maps w !! r = Some (_namespaceMap sv).
Proof. intros Hr. unfold maps. now rewrite list_lookup_fmap, Hr. Qed.

Lemma lookup_maps (w : world) (r : nat) (m : gmap string nat) :
  maps w !! r = Some m ->
  exists sv : Server, servers w !! r = Some sv /\ _namespaceMap sv = m.
Proof.
  unfold maps. rewrite list_lookup_fmap. destruct (servers w !! r) as [sv|]; [|discriminate].
  intros [= <-]. now exists sv.
Qed.

Lemma descends_maps (w w' : world) (n r d : nat) :
  maps w' = maps w -> descends w n r d -> descends w' n r d.
Proof.
  intros Hm Hd. induction Hd as [r sv Hr | n r sv key c d Hr Hkey _ IH].
  - apply maps_lookup in Hr. rewrite <- Hm in Hr.
    destruct (lookup_maps _ _ _ Hr) as (sv' & Hr' & _). now apply (descends_self w' r sv').
  - apply maps_lookup in Hr. rewrite <- Hm in Hr.
    destruct (lookup_maps _ _ _ Hr) as (sv' & Hr' & Hmap).
    apply (descends_child w' n r sv' key c d Hr'); [now rewrite Hmap | exact IH].
Qed.

Lemma tree_ok_maps (w w' : world) : maps w' = maps w -> tree_ok w -> tree_ok w'.
Proof.
  intros Hm Hok r sv key c Hr Hkey.
  assert (Hlen : length (servers w') = length (servers w)).
  { unfold maps in Hm. apply (f_equal length) in Hm. now rewrite !length_fmap in Hm. }
  apply maps_lookup in Hr. rewrite Hm in Hr. destruct (lookup_maps _ _ _ Hr) as (sv0 & Hr0 & Hmap).
  rewrite Hlen. apply (Hok r sv0 key c Hr0). now rewrite Hmap.
Qed.

Lemma descends_root (w : world) (n r d : nat) :
  descends w n r d -> exists sv : Server, servers w !! r = Some sv.
Proof. intros Hd. destruct Hd; eauto. Qed.

Lemma descends_depth (w : world) (n r d : nat) :
  tree_ok w -> descends w n r d -> r + n <= d /\ d < length (servers w).
Proof.
  intros Hok Hd. induction Hd as [r sv Hr | n r sv key c d Hr Hkey _ IH].
  - apply lookup_lt_Some in Hr. lia.
  - destruct (Hok r sv key c Hr Hkey). lia.
Qed.

(** After the recursion every node it could reach has no bridge. *)
Lemma subtree_closed (fuel r : nat) (w : world) (n d : nat) :
  descends w n r d -> n < fuel ->
  exists sv' : Server,
    servers (Registry.close_tree values fuel r w) !! d = Some sv' /\ _cdpSocket sv' = None.
Proof.
  set (P := fun (d : nat) (w' : world) =>
              exists sv' : Server, servers w' !! d = Some sv' /\ _cdpSocket sv' = None).
  assert (HP : forall d w1 w2, only_closes w1 w2 -> P d w1 -> P d w2).
  { intros d0 w1 w2 (_ & Hsv & _) (sv1 & Hd1 & Hn1).
    destruct (Hsv d0 sv1 Hd1) as (sv2 & Hd2 & _ & _ & _ & [Heq|[Hn2 _]]);
      exists sv2; split; congruence. }
  revert r w n d. induction fuel as [|fuel IH]; intros r w n d Hd Hn; [lia|].
  destruct (descends_root w n r d Hd) as [sv Hr]. rewrite (close_tree_unfold fuel r sv w Hr).
  fold (P d (fold_left (fun w' c => Registry.close_tree values fuel c w')
               (values (_namespaceMap sv)) (CDPSocketServer.close_node r w))).
  assert (Hnode : only_closes w (CDPSocketServer.close_node r w))
    by apply close_node_only_closes.
  inversion Hd as [r0 sv0 Hr0 | n' r0 sv0 key c d0 Hr0 Hkey Hcd]; subst.
  - apply fold_close_ind.
    + unfold P, CDPSocketServer.close_node. rewrite Hr.
      exists (mkServer None (_fullNamespace sv) (_path sv) (_namespaceMap sv)).
      split; [|reflexivity]. simpl. apply list_lookup_insert_eq.
      destruct (_cdpSocket sv) as [s|]; [rewrite servers_close|]; now apply lookup_lt_Some in Hr.
    + intros c w' _. apply HP, close_tree_only_closes.
  - rewrite Hr in Hr0. injection Hr0 as <-.
    apply (fold_close_reaches (fun w' => maps w' = maps w) (P d) _ _ c).
    + apply values_elem. now exists key.
    + now apply only_closes_maps.
    + intros c' w' Hm. rewrite <- Hm. apply only_closes_maps, close_tree_only_closes.
    + intros w' Hm. apply (IH c w' n' d); [now apply (descends_maps w w') | lia].
    + intros c' w'. apply HP, close_tree_only_closes.
Qed.

(** A node outside the subtree is not touched. *)
Lemma close_node_other (r d : nat) (w : world) :
  d <> r -> servers (CDPSocketServer.close_node r w) !! d = servers w !! d.
Proof.
  intros Hne. unfold CDPSocketServer.close_node.
  destruct (servers w !! r) as [sv|]; [|reflexivity]. simpl.
  rewrite list_lookup_insert_ne by congruence.
  destruct (_cdpSocket sv) as [s|]; [now rewrite servers_close | reflexivity].
Qed.

Lemma outside_kept (fuel r : nat) (w : world) (d : nat) :
  ~ in_subtree w r d ->
  servers (Registry.close_tree values fuel r w) !! d = servers w !! d.
Proof.
  revert r w. induction fuel as [|fuel IH]; intros r w Hout; [reflexivity|].
  destruct (servers w !! r) as [sv|] eqn:Hr; [|simpl; now rewrite Hr].
  rewrite (close_tree_unfold fuel r sv w Hr).
  assert (Hne : d <> r).
  { intros ->. apply Hout. exists 0. now apply (descends_self w r sv). }
  apply (fold_close_ind
           (fun w' => maps w' = maps w /\ servers w' !! d = servers w !! d)).
  - split; [apply only_closes_maps, close_node_only_closes | now apply close_node_other].
  - intros c w' Hin [Hm Hsame]. split.
    + rewrite <- Hm. apply only_closes_maps, close_tree_only_closes.
    + rewrite <- Hsame. apply IH. intros [n Hcd]. apply Hout. exists (S n).
      apply values_elem in Hin as [key Hkey].
      apply (descends_child w n r sv key c d Hr Hkey). now apply (descends_maps w' w).
Qed.

(** Without a bridge anywhere below, the recursion changes nothing. *)
Lemma close_node_noop (r : nat) (sv : Server) (w : world) :
  servers w !! r = Some sv -> _cdpSocket sv = None -> CDPSocketServer.close_node r w = w.
Proof.
  intros Hr Hn. unfold CDPSocketServer.close_node. rewrite Hr, Hn.
  destruct sv as [so fn p m]; simpl in *; subst so.
  unfold CDPSocketServer.set_server. rewrite list_insert_id by exact Hr.
  now destruct w.
Qed.

Lemma close_tree_noop (fuel r : nat) (w : world) :
  (forall (n d : nat) (sv : Server),
     descends w n r d -> servers w !! d = Some sv -> _cdpSocket sv = None) ->
  Registry.close_tree values fuel r w = w.
Proof.
  revert r. induction fuel as [|fuel IH]; intros r Hnone; [reflexivity|].
  destruct (servers w !! r) as [sv|] eqn:Hr; [|simpl; now rewrite Hr].
  rewrite (close_tree_unfold fuel r sv w Hr).
  rewrite (close_node_noop r sv w Hr) by now apply (Hnone 0 r sv (descends_self w r sv Hr)).
  apply (fold_close_ind (fun w' => w' = w)); [reflexivity|].
  intros c w' Hin ->. apply IH. intros n d sv' Hcd.
  apply values_elem in Hin as [key Hkey].
  apply (Hnone (S n) d sv'). now apply (descends_child w n r sv key c d Hr Hkey).
Qed.

End CloseTree.

(** * What every reachable store satisfies: a forest of nodes, one holder per bridge *)

Section Forest.

Variable E : Env.

Lemma forest_nil : forest [].
Proof.
  split.
  - intros r key c (m & Hr & _). destruct r; discriminate Hr.
  - intros r1 r2 k1 k2 c (m & Hr & _). destruct r1; discriminate Hr.
Qed.

Lemma entry_app_empty (ms : list (gmap string nat)) (r : nat) (key : string) (c : nat) :
  entry (ms ++ [∅]) r key c -> entry ms r key c.
Proof.
  intros (m & Hr & Hkey). apply lookup_app_Some in Hr as [Hr | [_ Hr]].
  - now exists m.
  - apply list_lookup_singleton_Some in Hr as [_ <-]. rewrite lookup_empty in Hkey. discriminate.
Qed.

Lemma entry_insert (ms : list (gmap string nat)) (r : nat) (m : gmap string nat)
    (key : string) (r0 : nat) (k0 : string) (c : nat) :
  ms !! r = Some m ->
  entry (<[r := <[key := length ms]> m]> (ms ++ [∅])) r0 k0 c ->
  entry ms r0 k0 c \/ (r0 = r /\ k0 = key /\ c = length ms).
Proof.
  intros Hr (m0 & Hr0 & Hk0).
  assert (Hlt : r < length ms) by now apply lookup_lt_Some in Hr.
  destruct (decide (r = r0)) as [<-|Hne].
  - rewrite list_lookup_insert_eq in Hr0 by (rewrite length_app; simpl; lia).
    injection Hr0 as <-. destruct (decide (key = k0)) as [<-|Hk].
    + rewrite lookup_insert_eq in Hk0. injection Hk0 as <-. now right.
    + rewrite lookup_insert_ne in Hk0 by exact Hk. left. now exists m.
  - rewrite list_lookup_insert_ne in Hr0 by exact Hne. left.
    apply entry_app_empty. now exists m0.
Qed.

Lemma forest_app_empty (ms : list (gmap string nat)) : forest ms -> forest (ms ++ [∅]).
Proof.
  intros [Hlt Huniq]. split.
  - intros r key c He. apply entry_app_empty in He. rewrite length_app. simpl.
    destruct (Hlt r key c He). lia.
  - intros r1 r2 k1 k2 c He1 He2. apply entry_app_empty in He1, He2. now apply (Huniq r1 r2 k1 k2 c).
Qed.

Lemma forest_insert (ms : list (gmap string nat)) (r : nat) (m : gmap string nat)
    (key : string) :
  forest ms -> ms !! r = Some m ->
  forest (<[r := <[key := length ms]> m]> (ms ++ [∅])).
Proof.
  intros [Hlt Huniq] Hr. assert (Hrlt : r < length ms) by now apply lookup_lt_Some in Hr.
  split.
  - intros r0 k0 c He. rewrite length_insert, length_app. simpl.
    apply (entry_insert ms r m key r0 k0 c Hr) in He as [He | (-> & -> & ->)]; [|lia].
    destruct (Hlt r0 k0 c He). lia.
  - intros r1 r2 k1 k2 c He1 He2.
    apply (entry_insert ms r m key r1 k1 c Hr) in He1 as [He1 | (-> & -> & ->)];
      apply (entry_insert ms r m key r2 k2 _ Hr) in He2 as [He2 | (-> & -> & Hc)].
    + now apply (Huniq r1 r2 k1 k2 c).
    + subst c. destruct (Hlt r1 k1 _ He1). lia.
    + destruct (Hlt r2 k2 _ He2). lia.
    + auto.
Qed.

Lemma maps_servers (w w' : world) : servers w' = servers w -> maps w' = maps w.
Proof. unfold maps. now intros ->. Qed.

Lemma maps_set_server (r : nat) (sv sv' : Server) (w : world) :
  servers w !! r = Some sv -> _namespaceMap sv' = _namespaceMap sv ->
  maps (CDPSocketServer.set_server r sv' w) = maps w.
Proof.
  intros Hr Hm. unfold maps. simpl. rewrite list_fmap_insert, Hm.
  apply list_insert_id. now rewrite list_lookup_fmap, Hr.
Qed.

Lemma maps_attach (r c : nat) (w : world) : maps (CDPSocketServer.attach_node r c w) = maps w.
Proof.
  unfold CDPSocketServer.attach_node.
  destruct (servers w !! r) as [sv|] eqn:Hr; [|reflexivity].
  pose proof (servers_init c (_fullNamespace sv) w) as Hs.
  destruct (CDPSocket.init c (_fullNamespace sv) w) as [[s|] w1]; simpl in Hs.
  - rewrite (maps_set_server r sv _ w1); [now apply maps_servers | now rewrite Hs | reflexivity].
  - now apply maps_servers.
Qed.

Lemma forest_of (w w' : world) (r : nat) (namespace : string) (x : jsref) :
  forest (maps w) -> CDPSocketServer.of_ r namespace w = Some (x, w') -> forest (maps w').
Proof.
  intros Hok Hof. unfold CDPSocketServer.of_ in Hof.
  destruct (servers w !! r) as [sv|] eqn:Hr; [|discriminate]. cbv zeta in Hof.
  destruct (_namespaceMap sv !! (_path sv +:+ namespace)) as [y|] eqn:Hn.
  { injection Hof as _ <-. exact Hok. }
  destruct (Js.inherited (_path sv +:+ namespace)).
  { injection Hof as _ <-. exact Hok. }
  simpl in Hof. injection Hof as _ <-.
  unfold maps. simpl. rewrite list_fmap_insert, fmap_app. simpl.
  replace (length (servers w)) with (length (maps w)) by (unfold maps; apply length_fmap).
  apply forest_insert; [exact Hok | now apply maps_lookup].
Qed.

Lemma forest_run_op (o : op) (w : world) : forest (maps w) -> forest (maps (run_op E o w)).
Proof.
  intros Hok.
  assert (Hsame : forall w', servers w' = servers w -> forest (maps w'))
    by (intros w' Heq; now rewrite (maps_servers w w' Heq)).
  destruct o; simpl.
  - now apply Hsame.
  - apply Hsame, servers_set_responsive.
  - unfold maps. simpl. rewrite fmap_app. simpl. now apply forest_app_empty.
  - destruct (CDPSocketServer.of_ r namespace w) as [[x w']|] eqn:Hof; [|exact Hok].
    now apply (forest_of w w' r namespace x).
  - exact Hok.
  - now rewrite maps_attach.
  - apply Hsame. unfold CDPSocketServer.emit. repeat (break_match; try reflexivity).
    apply servers_emit.
  - now rewrite (only_closes_maps _ _ (close_node_only_closes r w)).
  - apply Hsame, servers_init.
  - exact Hok.
  - apply Hsame, servers_add_listener.
  - apply Hsame, servers_add_listener.
  - apply Hsame, servers_emit.
  - apply Hsame, servers_close.
  - apply Hsame, servers_close.
  - apply Hsame, servers_notify.
  - apply Hsame, servers_invoke.
  - apply Hsame, servers_tick.
Qed.

Lemma forest_run (ops : list op) (w : world) : forest (maps w) -> forest (maps (run E ops w)).
Proof.
  revert w. induction ops as [|o ops IH]; intros w Hok; [exact Hok|].
  simpl. apply IH. now apply forest_run_op.
Qed.

Lemma reachable_forest (w : world) : reachable E w -> forest (maps w).
Proof. intros [ops ->]. apply forest_run. exact forest_nil. Qed.

Lemma forest_tree_ok (w : world) : forest (maps w) -> tree_ok w.
Proof.
  intros [Hlt _] r sv key c Hr Hkey.
  replace (length (servers w)) with (length (maps w)) by (unfold maps; apply length_fmap).
  apply (Hlt r key c). exists (_namespaceMap sv). split; [now apply maps_lookup | exact Hkey].
Qed.

Lemma forest_single_parent (w : world) : forest (maps w) -> single_parent w.
Proof.
  intros [_ Huniq] r1 r2 sv1 sv2 k1 k2 c Hr1 Hk1 Hr2 Hk2.
  apply (Huniq r1 r2 k1 k2 c).
  - exists (_namespaceMap sv1). split; [now apply maps_lookup | exact Hk1].
  - exists (_namespaceMap sv2). split; [now apply maps_lookup | exact Hk2].
Qed.

End Forest.

Section Holders.

Variable E : Env.

Lemma sockets_send (c : nat) (cmd : command) (w : world) :
  sockets (snd (CDPClient.send c cmd w)) = sockets w.
Proof. unfold CDPClient.send. now destruct (clients w !! c). Qed.

Lemma sockets_client_on (c s : nat) (w : world) : sockets (CDPClient.on c s w) = sockets w.
Proof. unfold CDPClient.on. now destruct (clients w !! c). Qed.

(** [init] makes at most one bridge, the next one of the store. *)
Lemma init_sockets (c : nat) (namespace : string) (w : world) :
  length (sockets w) <= length (sockets (snd (CDPSocket.init c namespace w)))
  /\ forall s : nat,
       fst (CDPSocket.init c namespace w) = Some s ->
       s = length (sockets w)
       /\ length (sockets (snd (CDPSocket.init c namespace w))) = S (length (sockets w)).
Proof.
  unfold CDPSocket.init.
  destruct (CDPClient.send c Runtime_enable w) as [o1 w1] eqn:H1.
  assert (Hs1 : sockets w1 = sockets w)
    by (change w1 with (snd (o1, w1)); rewrite <- H1; apply sockets_send).
  destruct o1; [|simpl; rewrite Hs1; split; [lia | discriminate]].
  destruct (CDPClient.send c _ w1) as [o2 w2] eqn:H2.
  assert (Hs2 : sockets w2 = sockets w1)
    by (change w2 with (snd (o2, w2)); rewrite <- H2; apply sockets_send).
  destruct o2; [|simpl; rewrite Hs2, Hs1; split; [lia | discriminate]].
  unfold CDPSocket.new. simpl. rewrite sockets_client_on. simpl.
  rewrite length_app, Hs2, Hs1. simpl. split; [lia|]. intros s [= <-]. lia.
Qed.

Lemma links_sockets_length (w w' : world) :
  links w' = links w -> length (sockets w') = length (sockets w).
Proof.
  unfold links. intros [= _ Hs]. apply (f_equal length) in Hs. now rewrite !length_fmap in Hs.
Qed.

Lemma bridges_ok_same (w w' : world) :
  servers w' = servers w -> length (sockets w) <= length (sockets w') ->
  bridges_ok w -> bridges_ok w'.
Proof.
  intros Hsv Hlen [Hlt Huniq]. unfold bridges_ok, holds. rewrite Hsv. split.
  - intros r s Hh. specialize (Hlt r s Hh). lia.
  - exact Huniq.
Qed.

Lemma only_closes_holds (w w' : world) (r s : nat) :
  only_closes w w' -> holds w' r s -> holds w r s.
Proof.
  intros (Hlen & Hsv & _) (sv' & Hr' & Hs').
  destruct (servers w !! r) as [sv|] eqn:Hr.
  - destruct (Hsv r sv Hr) as (sv2 & Hr2 & _ & _ & _ & [Heq|[Hn _]]).
    + exists sv. split; [exact Hr | congruence].
    + congruence.
  - apply lookup_lt_Some in Hr'. apply lookup_ge_None in Hr. lia.
Qed.

Lemma bridges_ok_only_closes (w w' : world) :
  only_closes w w' -> bridges_ok w -> bridges_ok w'.
Proof.
  intros Hoc [Hlt Huniq]. pose proof Hoc as (_ & _ & Hlen & _). split.
  - intros r s Hh. rewrite Hlen. apply (Hlt r s). now apply (only_closes_holds w w').
  - intros r1 r2 s H1 H2. apply (Huniq r1 r2 s); now apply (only_closes_holds w w').
Qed.

Lemma bridges_ok_empty : bridges_ok empty_world.
Proof.
  split.
  - intros r s (sv & Hr & _). destruct r; discriminate Hr.
  - intros r1 r2 s (sv & Hr & _). destruct r1; discriminate Hr.
Qed.

Lemma holds_new_node (w : world) (sv0 : Server) (r s : nat) :
  _cdpSocket sv0 = None ->
  holds (set_servers (servers w ++ [sv0]) w) r s -> holds w r s.
Proof.
  intros Hn (sv & Hr & Hs). simpl in Hr. apply lookup_app_Some in Hr as [Hr | [_ Hr]].
  - now exists sv.
  - apply list_lookup_singleton_Some in Hr as [_ <-]. congruence.
Qed.

Lemma bridges_ok_of (w w' : world) (r : nat) (namespace : string) (x : jsref) :
  bridges_ok w -> CDPSocketServer.of_ r namespace w = Some (x, w') -> bridges_ok w'.
Proof.
  intros Hok Hof. unfold CDPSocketServer.of_ in Hof.
  destruct (servers w !! r) as [sv|] eqn:Hr; [|discriminate]. cbv zeta in Hof.
  destruct (_namespaceMap sv !! (_path sv +:+ namespace)) as [y|] eqn:Hn.
  { injection Hof as _ <-. exact Hok. }
  destruct (Js.inherited (_path sv +:+ namespace)).
  { injection Hof as _ <-. exact Hok. }
  simpl in Hof. injection Hof as _ <-.
  assert (Hlt : r < length (servers w)) by now apply lookup_lt_Some in Hr.
  assert (Hback : forall r0 s, holds (CDPSocketServer.set_server r
            (mkServer (_cdpSocket sv) (_fullNamespace sv) (_path sv)
               (<[_path sv +:+ namespace := length (servers w)]> (_namespaceMap sv)))
            (set_servers
               (servers w ++ [mkServer None (_path sv +:+ namespace) (_path sv) ∅]) w)) r0 s
          -> holds w r0 s).
  { intros r0 s (sv0 & Hr0 & Hs0). simpl in Hr0.
    destruct (decide (r = r0)) as [<-|Hne].
    - rewrite list_lookup_insert_eq in Hr0 by (rewrite length_app; simpl; lia).
      injection Hr0 as <-. now exists sv.
    - rewrite list_lookup_insert_ne in Hr0 by exact Hne.
      apply (holds_new_node w (mkServer None (_path sv +:+ namespace) (_path sv) ∅));
        [reflexivity|]. now exists sv0. }
  destruct Hok as [Hex Huniq]. split.
  - intros r0 s Hh. now apply (Hex r0 s), Hback.
  - intros r1 r2 s H1 H2. apply (Huniq r1 r2 s); now apply Hback.
Qed.

Lemma bridges_ok_attach (r c : nat) (w : world) :
  bridges_ok w -> bridges_ok (CDPSocketServer.attach_node r c w).
Proof.
  intros Hok. unfold CDPSocketServer.attach_node.
  destruct (servers w !! r) as [sv|] eqn:Hr; [|exact Hok].
  pose proof (servers_init c (_fullNamespace sv) w) as Hsv.
  destruct (init_sockets c (_fullNamespace sv) w) as [Hle Hnew].
  destruct (CDPSocket.init c (_fullNamespace sv) w) as [[s|] w1]; simpl in *.
  2:{ now apply (bridges_ok_same w). }
  destruct (Hnew s eq_refl) as [-> Hlen]. clear Hnew.
  assert (Hlt : r < length (servers w)) by now apply lookup_lt_Some in Hr.
  destruct Hok as [Hex Huniq].
  assert (Hcases : forall r0 s, holds (CDPSocketServer.set_server r
            (mkServer (Some (length (sockets w))) (_fullNamespace sv) (_path sv)
               (_namespaceMap sv)) w1) r0 s ->
          (r0 = r /\ s = length (sockets w)) \/ (r0 <> r /\ holds w r0 s)).
  { intros r0 s (sv0 & Hr0 & Hs0). simpl in Hr0. rewrite Hsv in Hr0.
    destruct (decide (r = r0)) as [<-|Hne].
    - rewrite list_lookup_insert_eq in Hr0 by exact Hlt. injection Hr0 as <-.
      simpl in Hs0. injection Hs0 as <-. now left.
    - rewrite list_lookup_insert_ne in Hr0 by exact Hne. right. split; [congruence|].
      now exists sv0. }
  split.
  - intros r0 s Hh. simpl. rewrite Hlen.
    apply Hcases in Hh as [[_ ->] | [_ Hh]]; [lia|]. specialize (Hex r0 s Hh). lia.
  - intros r1 r2 s H1 H2.
    apply Hcases in H1 as [[-> ->] | [Hn1 H1]]; apply Hcases in H2 as [[-> Hs2] | [Hn2 H2]].
    + reflexivity.
    + specialize (Hex r2 _ H2). lia.
    + subst s. specialize (Hex r1 _ H1). lia.
    + now apply (Huniq r1 r2 s).
Qed.

Lemma bridges_ok_run_op (o : op) (w : world) : bridges_ok w -> bridges_ok (run_op E o w).
Proof.
  intros Hok.
  assert (Hsame : forall w', servers w' = servers w -> links w' = links w -> bridges_ok w').
  { intros w' Hsv Hl. apply (bridges_ok_same w); [exact Hsv | | exact Hok].
    rewrite (links_sockets_length w w' Hl). lia. }
  destruct o; simpl.
  - now apply (bridges_ok_same w).
  - apply Hsame; [apply servers_set_responsive | apply links_set_responsive].
  - destruct Hok as [Hex Huniq]. split.
    + intros r s Hh. apply (Hex r s). now apply holds_new_node in Hh.
    + intros r1 r2 s H1 H2. apply holds_new_node in H1, H2; try reflexivity.
      now apply (Huniq r1 r2 s).
  - destruct (CDPSocketServer.of_ r namespace w) as [[x w']|] eqn:Hof; [|exact Hok].
    now apply (bridges_ok_of w w' r namespace x).
  - exact Hok.
  - now apply bridges_ok_attach.
  - apply Hsame; [|apply links_server_emit].
    unfold CDPSocketServer.emit. repeat (break_match; try reflexivity). apply servers_emit.
  - apply (bridges_ok_only_closes w); [apply close_node_only_closes | exact Hok].
  - apply (bridges_ok_same w); [apply servers_init | apply init_sockets | exact Hok].
  - exact Hok.
  - apply Hsame; [apply servers_add_listener | apply links_add_listener].
  - apply Hsame; [apply servers_add_listener | apply links_add_listener].
  - apply Hsame; [apply servers_emit | apply links_emit].
  - apply (bridges_ok_only_closes w); [apply close_only_closes | exact Hok].
  - apply (bridges_ok_only_closes w); [apply close_only_closes | exact Hok].
  - apply Hsame; [apply servers_notify | apply links_notify].
  - apply Hsame; [apply servers_invoke | apply links_invoke].
  - apply Hsame; [apply servers_tick | apply links_tick].
Qed.

Lemma bridges_ok_run (ops : list op) (w : world) : bridges_ok w -> bridges_ok (run E ops w).
Proof.
  revert w. induction ops as [|o ops IH]; intros w Hok; [exact Hok|].
  simpl. apply IH. now apply bridges_ok_run_op.
Qed.

Lemma reachable_bridges_ok (w : world) : reachable E w -> bridges_ok w.
Proof. intros [ops ->]. apply bridges_ok_run. exact bridges_ok_empty. Qed.

End Holders.

Section KeepsBridge.

Variable values : gmap string nat -> list nat.
Hypothesis values_spec : Registry.lists_values values.

Lemma keeps_bridge_refl (b : nat) (w : world) : keeps_bridge b w w.
Proof. split; [reflexivity|]. intros c cl Hc. now exists cl. Qed.

Lemma keeps_bridge_trans (b : nat) (w1 w2 w3 : world) :
  keeps_bridge b w1 w2 -> keeps_bridge b w2 w3 -> keeps_bridge b w1 w3.
Proof.
  intros [Hs1 Hc1] [Hs2 Hc2]. split; [congruence|].
  intros c cl Hc. destruct (Hc1 c cl Hc) as (cl2 & Hcl2 & Hiff2).
  destruct (Hc2 c cl2 Hcl2) as (cl3 & Hcl3 & Hiff3).
  exists cl3. split; [exact Hcl3|]. now rewrite Hiff3.
Qed.

Lemma close_keeps_bridge (s b : nat) (w : world) :
  b <> s -> keeps_bridge b w (CDPSocket.close s w).
Proof.
  intros Hne. split; [now apply close_other_socket|].
  intros c cl Hc. destruct (close_clients s w c cl Hc) as (cl' & Hc' & _ & _ & Hsub).
  exists cl'. split; [exact Hc' | now apply Hsub].
Qed.

Lemma close_node_keeps_bridge (r b : nat) (w : world) :
  ~ holds w r b -> keeps_bridge b w (CDPSocketServer.close_node r w).
Proof.
  intros Hnot. unfold CDPSocketServer.close_node.
  destruct (servers w !! r) as [sv|] eqn:Hr; [|apply keeps_bridge_refl].
  destruct (_cdpSocket sv) as [s|] eqn:Hs; [|exact (keeps_bridge_refl b w)].
  assert (Hne : b <> s) by (intros ->; apply Hnot; now exists sv).
  exact (close_keeps_bridge s b w Hne).
Qed.

(** A bridge that no node of the subtree holds goes through the recursion
    as it is. *)
Lemma close_tree_keeps_bridge (fuel r : nat) (w : world) (b : nat) :
  (forall d : nat, in_subtree w r d -> ~ holds w d b) ->
  keeps_bridge b w (Registry.close_tree values fuel r w).
Proof.
  revert r w. induction fuel as [|fuel IH]; intros r w Hfree; [apply keeps_bridge_refl|].
  destruct (servers w !! r) as [sv|] eqn:Hr; [|simpl; rewrite Hr; apply keeps_bridge_refl].
  rewrite (close_tree_unfold values fuel r sv w Hr).
  apply (fold_close_ind (fun w' => only_closes w w' /\ keeps_bridge b w w')).
  - split; [apply close_node_only_closes|]. apply close_node_keeps_bridge.
    apply Hfree. exists 0. now apply (descends_self w r sv).
  - intros c w' Hin [Hoc Hkeep]. split.
    + eapply only_closes_trans; [exact Hoc | apply close_tree_only_closes].
    + eapply keeps_bridge_trans; [exact Hkeep|]. apply IH.
      intros d [n Hcd] Hh. apply (Hfree d).
      * exists (S n). apply (values_elem values values_spec) in Hin as [key Hkey].
        apply (descends_child w n r sv key c d Hr Hkey).
        apply (descends_maps w' w); [|exact Hcd]. symmetry. now apply only_closes_maps.
      * now apply (only_closes_holds w w').
Qed.

End KeepsBridge.

Section CloseFacts.

Variable values : gmap string nat -> list nat.
Hypothesis values_spec : Registry.lists_values values.

Lemma subscriptions_ok_close_tree (fuel r : nat) (w : world) :
  subscriptions_ok w -> subscriptions_ok (Registry.close_tree values fuel r w).
Proof.
  revert r w. induction fuel as [|fuel IH]; intros r w Hok; [exact Hok|].
  simpl. destruct (servers w !! r) as [sv|]; [|exact Hok].
  apply fold_close_ind; [now apply subscriptions_ok_close_node|].
  intros c w' _. apply IH.
Qed.


(** More fuel than the store has nodes changes nothing. *)
Lemma close_tree_enough_fuel (f1 f2 r : nat) (w : world) :
  tree_ok w ->
  length (servers w) <= r + f1 -> length (servers w) <= r + f2 ->
  Registry.close_tree values f1 r w = Registry.close_tree values f2 r w.
Proof.
  revert f2 r w. induction f1 as [|f1 IH]; intros f2 r w Hok H1 H2.
  - assert (Hr : servers w !! r = None) by (apply lookup_ge_None; lia).
    destruct f2; simpl; [reflexivity | now rewrite Hr].
  - destruct f2 as [|f2].
    + assert (Hr : servers w !! r = None) by (apply lookup_ge_None; lia).
      simpl. now rewrite Hr.
    + simpl. destruct (servers w !! r) as [sv|] eqn:Hr; [|reflexivity].
      assert (Hch : forall c, c ∈ values (_namespaceMap sv) -> r < c).
      { intros c Hin. apply (values_elem values values_spec) in Hin as [key Hkey].
        now destruct (Hok r sv key c Hr Hkey). }
      pose proof (close_node_only_closes r w) as Hoc.
      revert Hch Hoc. generalize (CDPSocketServer.close_node r w).
      generalize (values (_namespaceMap sv)). intros cs.
      induction cs as [|c cs IHcs]; intros w0 Hch Hoc; [reflexivity|].
      simpl. assert (Hrc : r < c) by (apply Hch; left).
      pose proof Hoc as (Hlen & _).
      rewrite (IH f2 c w0).
      * apply IHcs; [intros c' Hin; apply Hch; now right|].
        eapply only_closes_trans; [exact Hoc | apply close_tree_only_closes].
      * apply (tree_ok_maps w w0); [now apply only_closes_maps | exact Hok].
      * lia.
      * lia.
Qed.

End CloseFacts.

(** What [close] leaves of a node of the subtree and of its bridge, in a
    store that satisfies the invariants. *)
Lemma subtree_after_close
        (values : gmap string nat -> list nat) (w : world) (r d : nat) (sv : Server) :
  Registry.lists_values values ->
  tree_ok w -> bridges_ok w -> subscriptions_ok w ->
  in_subtree w r d ->
  servers w !! d = Some sv ->
  let w' := Registry.close values r w in
  servers w' !! d = Some (mkServer None (_fullNamespace sv) (_path sv) (_namespaceMap sv))
  /\ forall s : nat, _cdpSocket sv = Some s -> released s w' /\ unsubscribed s w'.
Proof.
  intros Hvalues Htree [Hex _] Hsubs [n Hd] Hsv w'.
  destruct (descends_depth w n r d Htree Hd) as [Hdepth Hlt].
  destruct (subtree_closed values Hvalues (length (servers w)) r w n d Hd ltac:(lia))
    as (sv' & Hd' & Hnone).
  fold (Registry.close values r w) in Hd'. fold w' in Hd'.
  pose proof (close_tree_only_closes values (length (servers w)) r w) as Hoc.
  fold (Registry.close values r w) in Hoc. fold w' in Hoc.
  pose proof Hoc as (_ & Hnodes & Hslen & Hsocks & _).
  destruct (Hnodes d sv Hsv) as (sv2 & Hd2 & Hp & Hf & Hm & Hbridge).
  rewrite Hd' in Hd2. injection Hd2 as <-.
  split.
  { rewrite Hd'. f_equal. destruct sv' as [so fn p m]. simpl in *. congruence. }
  intros s Hs.
  assert (Hrel : released s w').
  { assert (Hs_lt : s < length (sockets w)) by (apply (Hex d s); now exists sv).
    apply lookup_lt_is_Some in Hs_lt as [sk Hsk].
    destruct (Hsocks s sk Hsk) as (sk' & Hsk' & _).
    exists sk'. split; [exact Hsk'|].
    destruct Hbridge as [Heq|[_ Hidle]]; [congruence|]. now apply (Hidle s sk'). }
  split; [exact Hrel|]. apply released_unsubscribed; [|exact Hrel].
  now apply subscriptions_ok_close_tree.
Qed.

(** X15. [close] on a registry node reaches the whole subtree: afterwards
    every node in it has no bridge and is otherwise as before, and the
    bridge it held holds no client and is subscribed to none. *)
Theorem registry_close_releases_subtree
        (E : Env) (values : gmap string nat -> list nat) (w : world) (r d : nat)
        (sv : Server) :
  Registry.lists_values values ->
  reachable E w ->
  in_subtree w r d ->
  servers w !! d = Some sv ->
  let w' := Registry.close values r w in
  servers w' !! d = Some (mkServer None (_fullNamespace sv) (_path sv) (_namespaceMap sv))
  /\ forall s : nat, _cdpSocket sv = Some s -> released s w' /\ unsubscribed s w'.
Proof.
  intros Hvalues Hreach Hin Hsv.
  apply subtree_after_close; try assumption.
  - apply forest_tree_ok, (reachable_forest E w Hreach).
  - exact (reachable_bridges_ok E w Hreach).
  - exact (reachable_subscriptions_ok E w Hreach).
Qed.

Lemma registry_close_releases_subtree_witness :
  let w' := Registry.close Registry.children 1 Scenes.tree_world in
  servers w' !! 3 = Some (mkServer None "/s/c" "/s" ∅)
  /\ forall s : nat, Some 3 = Some s -> released s w' /\ unsubscribed s w'.
Proof.
  apply (registry_close_releases_subtree Sample.env Registry.children Scenes.tree_world 1 3
           (mkServer (Some 3) "/s/c" "/s" ∅)).
  - intros m. apply merge_sort_Permutation.
  - exists Scenes.tree_ops. reflexivity.
  - exists 1.
    apply (descends_child Scenes.tree_world 0 1
             (mkServer (Some 1) "/s/a" "/s" (<["/s/c" := 3]> ∅)) "/s/c" 3 3).
    + reflexivity.
    + reflexivity.
    + apply (descends_self Scenes.tree_world 3 (mkServer (Some 3) "/s/c" "/s" ∅)). reflexivity.
  - reflexivity.
Defined.

(** X16. [close] on a registry node stays inside the subtree: a node that
    is not in it is left as it is, and the bridge it holds keeps its
    client, its state and its subscription. *)
Theorem registry_close_spares_the_rest
        (E : Env) (values : gmap string nat -> list nat) (w : world) (r d : nat) :
  Registry.lists_values values ->
  reachable E w ->
  ~ in_subtree w r d ->
  let w' := Registry.close values r w in
  servers w' !! d = servers w !! d
  /\ forall (sv : Server) (s : nat),
       servers w !! d = Some sv -> _cdpSocket sv = Some s ->
       sockets w' !! s = sockets w !! s
       /\ forall (c : nat) (cl : Client),
            clients w !! c = Some cl ->
            exists cl' : Client,
              clients w' !! c = Some cl' /\ (s ∈ subscribers cl' <-> s ∈ subscribers cl).
Proof.
  intros Hvalues Hreach Hout w'. split.
  { now apply outside_kept. }
  intros sv s Hsv Hs.
  destruct (reachable_bridges_ok E w Hreach) as [_ Huniq].
  apply (close_tree_keeps_bridge values Hvalues (length (servers w)) r w s).
  intros d' Hin Hh. apply Hout.
  assert (Hd : d' = d) by (apply (Huniq d' d s Hh); now exists sv).
  now rewrite <- Hd.
Qed.

Lemma registry_close_spares_the_rest_witness :
  let w' := Registry.close Registry.children 1 Scenes.tree_world in
  servers w' !! 2 = servers Scenes.tree_world !! 2
  /\ sockets w' !! 2 = sockets Scenes.tree_world !! 2.
Proof.
  assert (Hnode1 : servers Scenes.tree_world !! 1
                   = Some (mkServer (Some 1) "/s/a" "/s" (<["/s/c" := 3]> ∅)))
    by reflexivity.
  assert (Hnode3 : servers Scenes.tree_world !! 3 = Some (mkServer (Some 3) "/s/c" "/s" ∅))
    by reflexivity.
  assert (Hout : ~ in_subtree Scenes.tree_world 1 2).
  { intros [n Hd].
    inversion Hd as [r0 sv0 Hr0 | n' r0 sv0 key c d0 Hr0 Hkey Hcd]; subst.
    rewrite Hnode1 in Hr0. injection Hr0 as <-. simpl in Hkey.
    apply (lookup_insert_Some (M := gmap string)) in Hkey as [[_ <-] | [_ Hkey]].
    - inversion Hcd as [r1 sv1 Hr1 | n1 r1 sv1 key1 c1 d1 Hr1 Hkey1 Hcd1]; subst.
      rewrite Hnode3 in Hr1. injection Hr1 as <-. simpl in Hkey1.
      rewrite lookup_empty in Hkey1. discriminate.
    - rewrite lookup_empty in Hkey. discriminate. }
  destruct (registry_close_spares_the_rest Sample.env Registry.children Scenes.tree_world 1 2
              (fun m => merge_sort_Permutation Nat.le _)
              (ex_intro _ Scenes.tree_ops eq_refl) Hout) as [Hnode Hbridge].
  split; [exact Hnode|].
  exact (proj1 (Hbridge (mkServer (Some 2) "/s/b" "/s" ∅) 2 eq_refl eq_refl)).
Defined.


(** X18. The registry's [close] is idempotent: a second [close] on the
    same node changes nothing. *)
Theorem registry_close_idempotent
        (E : Env) (values : gmap string nat -> list nat) (w : world) (r : nat) :
  Registry.lists_values values ->
  reachable E w ->
  Registry.close values r (Registry.close values r w) = Registry.close values r w.
Proof.
  intros Hvalues Hreach.
  pose proof (forest_tree_ok w (reachable_forest E w Hreach)) as Htree.
  pose proof (close_tree_only_closes values (length (servers w)) r w) as Hoc.
  fold (Registry.close values r w) in Hoc.
  pose proof (only_closes_maps _ _ Hoc) as Hmaps.
  unfold Registry.close at 1. apply (close_tree_noop values Hvalues).
  intros n d sv Hd Hsv.
  apply (descends_maps _ w) in Hd; [|now symmetry].
  destruct (descends_depth w n r d Htree Hd) as [Hdepth Hlt].
  destruct (subtree_closed values Hvalues (length (servers w)) r w n d Hd ltac:(lia))
    as (sv' & Hd' & Hnone).
  fold (Registry.close values r w) in Hd'. congruence.
Qed.

Lemma registry_close_idempotent_witness :
  Registry.close Registry.children 0 (Registry.close Registry.children 0 Scenes.tree_world)
  = Registry.close Registry.children 0 Scenes.tree_world.
Proof.
  apply (registry_close_idempotent Sample.env Registry.children Scenes.tree_world 0).
  - intros m. apply merge_sort_Permutation.
  - exists Scenes.tree_ops. reflexivity.
Defined.

(** X19. [disconnectSockets] does what [close] does, whatever its
    argument. *)
Theorem disconnectSockets_is_close
        (values : gmap string nat -> list nat) (w : world) (r : nat) (flag : option bool) :
  Registry.disconnectSockets values r flag w = Registry.close values r w.
Proof.
  unfold Registry.disconnectSockets, Registry.close.
  generalize (length (servers w)). intros fuel.
  revert r flag w. induction fuel as [|fuel IH]; intros r flag w; [reflexivity|].
  simpl. destruct (servers w !! r) as [sv|]; [|reflexivity].
  generalize (CDPSocketServer.close_node r w). generalize (values (_namespaceMap sv)).
  intros cs. induction cs as [|c cs IHcs]; intros w0; [reflexivity|].
  simpl. now rewrite IH, IHcs.
Qed.

(** X20. The recursion of the registry's [close] ends: in a reachable
    store its result is the same for every bound on the depth that is at
    least the number of nodes. *)
Theorem registry_close_recursion_ends
        (E : Env) (values : gmap string nat -> list nat) (w : world) (r fuel : nat) :
  Registry.lists_values values ->
  reachable E w ->
  length (servers w) <= fuel ->
  Registry.close_tree values fuel r w = Registry.close values r w.
Proof.
  intros Hvalues Hreach Hfuel. unfold Registry.close.
  apply (close_tree_enough_fuel values Hvalues); [|lia|lia].
  apply forest_tree_ok, (reachable_forest E w Hreach).
Qed.

Lemma registry_close_recursion_ends_witness :
  Registry.close_tree Registry.children 10 0 Scenes.tree_world
  = Registry.close Registry.children 0 Scenes.tree_world.
Proof.
  apply (registry_close_recursion_ends Sample.env Registry.children Scenes.tree_world 0 10).
  - intros m. apply merge_sort_Permutation.
  - exists Scenes.tree_ops. reflexivity.
  - vm_compute. lia.
Defined.

(** X21. The namespaces of a reachable store make a forest: every entry of
    a node's map is a node of the store that was created after this node,
    and no node is entered twice, under two keys or in two maps. *)
Theorem registry_is_a_forest (E : Env) (w : world) :
  reachable E w -> tree_ok w /\ single_parent w.
Proof.
  intros Hreach. pose proof (reachable_forest E w Hreach) as Hf.
  split; [now apply forest_tree_ok | now apply forest_single_parent].
Qed.

Lemma registry_is_a_forest_witness :
  tree_ok Scenes.tree_world /\ single_parent Scenes.tree_world.
Proof.
  apply (registry_is_a_forest Sample.env Scenes.tree_world).
  exists Scenes.tree_ops. reflexivity.
Defined.

(** X22. In a reachable store the bridge that a registry node holds is a
    bridge of the store, and no two nodes hold the same bridge. *)
Theorem bridges_have_one_holder (E : Env) (w : world) :
  reachable E w ->
  (forall (r : nat) (sv : Server) (s : nat),
     servers w !! r = Some sv -> _cdpSocket sv = Some s ->
     exists sk : Socket, sockets w !! s = Some sk)
  /\ (forall (r1 r2 : nat) (sv1 sv2 : Server) (s : nat),
        servers w !! r1 = Some sv1 -> _cdpSocket sv1 = Some s ->
        servers w !! r2 = Some sv2 -> _cdpSocket sv2 = Some s ->
        r1 = r2).
Proof.
  intros Hreach. destruct (reachable_bridges_ok E w Hreach) as [Hex Huniq]. split.
  - intros r sv s Hr Hs. apply lookup_lt_is_Some. apply (Hex r s). now exists sv.
  - intros r1 r2 sv1 sv2 s Hr1 Hs1 Hr2 Hs2.
    apply (Huniq r1 r2 s); [now exists sv1 | now exists sv2].
Qed.

Lemma bridges_have_one_holder_witness :
  exists sk : Socket, sockets Scenes.tree_world !! 3 = Some sk.
Proof.
  destruct (bridges_have_one_holder Sample.env Scenes.tree_world
              (ex_intro _ Scenes.tree_ops eq_refl)) as [Hex _].
  exact (Hex 3 (mkServer (Some 3) "/s/c" "/s" ∅) 3 eq_refl eq_refl).
Defined.

(** X23. Where [r.of(a)], [r.of(a).of(b)] and [r.of(b)] are registry
    nodes, the last two are two different nodes, although they have the
    same full namespace. *)
Theorem nested_and_flat_child_are_two_nodes
        (E : Env) (w w0 w1 w2 : world) (r ca x y : nat) (a b : string) :
  reachable E w ->
  CDPSocketServer.of_ r a w = Some (Node ca, w0) ->
  CDPSocketServer.of_ ca b w0 = Some (Node x, w1) ->
  CDPSocketServer.of_ r b w1 = Some (Node y, w2) ->
  x <> y
  /\ exists namespace : string,
       CDPSocketServer.fullNamespace_of x w2 = Some namespace
       /\ CDPSocketServer.fullNamespace_of y w2 = Some namespace.
Proof.
  intros Hreach Hofa Hofb Hof.
  pose proof (reachable_registry_ok E w Hreach) as Hok.
  pose proof (reachable_forest E w Hreach) as Hf.
  assert (Hr : exists sv, servers w !! r = Some sv).
  { unfold CDPSocketServer.of_ in Hofa. destruct (servers w !! r) as [sv|]; [eauto | discriminate]. }
  destruct Hr as [sv Hr].
  pose proof (reachable_own_keys_ok E w Hreach) as Hkeys.
  pose proof (of_node_not_inherited w w0 r sv a ca Hkeys Hr Hofa) as Hia.
  destruct (of_child w r sv a Hok Hr Hia)
    as (ca' & w0' & sv0 & child & Hofa' & Hok0 & Hg0 & Hr0 & Hp0 & Hka & Hca & Hpc & _ & _).
  rewrite Hofa in Hofa'. injection Hofa' as <- <-.
  pose proof (forest_of w w0 r a (Node ca) Hf Hofa) as Hf0.
  pose proof (own_keys_ok_of w w0 r a (Node ca) Hkeys Hofa) as Hkeys0.
  pose proof (of_node_not_inherited w0 w1 ca child b x Hkeys0 Hca Hofb) as Hib.
  destruct (of_child w0 ca child b Hok0 Hca Hib)
    as (x' & w1' & ca1 & chx & Hofb' & Hok1 & Hg1 & Hca1 & Hpca1 & Hkx & Hx & Hpx & Hfx & _).
  rewrite Hofb in Hofb'. injection Hofb' as <- <-.
  pose proof (forest_of w0 w1 ca b (Node x) Hf0 Hofb) as Hf1.
  pose proof (own_keys_ok_of w0 w1 ca b (Node x) Hkeys0 Hofb) as Hkeys1.
  destruct (Hg1 r sv0 Hr0) as (sv1 & Hr1 & Hp1 & _ & Hent1).
  pose proof (of_node_not_inherited w1 w2 r sv1 b y Hkeys1 Hr1 Hof) as Hib1.
  destruct (of_child w1 r sv1 b Hok1 Hr1 Hib1)
    as (y' & w2' & sv2 & chy & Hof' & Hok2 & Hg2 & Hr2 & Hp2 & Hky & Hy & Hpy & Hfy & _).
  rewrite Hof in Hof'. injection Hof' as <- <-.
  pose proof (forest_of w1 w2 r b (Node y) Hf1 Hof) as [Hlt2 Huniq2].
  destruct (Hg2 ca ca1 Hca1) as (ca2 & Hca2 & _ & _ & Hent2).
  destruct (Hg2 x chx Hx) as (chx2 & Hx2 & _ & Hfx2 & _).
  assert (Hrca : r < ca).
  { destruct Hf0 as [Hlt0 _]. apply (Hlt0 r (_path sv +:+ a) ca).
    exists (_namespaceMap sv0). split; [now apply maps_lookup | exact Hka]. }
  split.
  - intros ->.
    assert (Hex : entry (maps w2) ca (_path child +:+ b) y).
    { exists (_namespaceMap ca2). split; [now apply maps_lookup | now apply Hent2]. }
    assert (Hey : entry (maps w2) r (_path sv1 +:+ b) y).
    { exists (_namespaceMap sv2). split; [now apply maps_lookup | exact Hky]. }
    destruct (Huniq2 ca r _ _ y Hex Hey). lia.
  - exists (_path sv +:+ b). unfold CDPSocketServer.fullNamespace_of.
    rewrite Hx2, Hy. simpl. split; f_equal; congruence.
Qed.

Lemma nested_and_flat_child_are_two_nodes_witness :
  2 <> 3
  /\ exists namespace : string,
       CDPSocketServer.fullNamespace_of 2
         (run Sample.env [OpOf 0 "/a"; OpOf 1 "/b"; OpOf 0 "/b"] Scenes.registry_world)
         = Some namespace
       /\ CDPSocketServer.fullNamespace_of 3
            (run Sample.env [OpOf 0 "/a"; OpOf 1 "/b"; OpOf 0 "/b"] Scenes.registry_world)
          = Some namespace.
Proof.
  apply (nested_and_flat_child_are_two_nodes Sample.env Scenes.registry_world
           (run Sample.env [OpOf 0 "/a"] Scenes.registry_world)
           (run Sample.env [OpOf 0 "/a"; OpOf 1 "/b"] Scenes.registry_world)
           (run Sample.env [OpOf 0 "/a"; OpOf 1 "/b"; OpOf 0 "/b"] Scenes.registry_world)
           0 1 2 3 "/a" "/b").
  - exists [OpNewClient true; OpNewServer (Some "/__socket") None]. reflexivity.
  - reflexivity.
  - reflexivity.
  - reflexivity.
Defined.

(** X24. After [close] on a registry node the subtree is silent in both
    directions: an event emitted on any of its nodes is dropped, [emit]
    returning [true] all the same, and a notification of any client queues
    no dispatch for a bridge that one of its nodes held. *)
Theorem registry_close_silences_subtree
        (E : Env) (values : gmap string nat -> list nat) (w : world) (r d : nat)
        (sv : Server) :
  Registry.lists_values values ->
  reachable E w ->
  in_subtree w r d ->
  servers w !! d = Some sv ->
  let w' := Registry.close values r w in
  (forall (event : string) (args : list value),
     CDPSocketServer.emit E d event args w' = (true, w'))
  /\ (forall (s c : nat) (ev : BindingCalledEvent),
        _cdpSocket sv = Some s ->
        List.filter (inbound_of s) (jobs (CDPSocket.notify E c ev w'))
        = List.filter (inbound_of s) (jobs w)).
Proof.
  intros Hvalues Hreach Hin Hsv w'.
  destruct (subtree_after_close values w r d sv Hvalues
              (forest_tree_ok w (reachable_forest E w Hreach))
              (reachable_bridges_ok E w Hreach)
              (reachable_subscriptions_ok E w Hreach) Hin Hsv) as [Hd Hbridge].
  fold w' in Hd, Hbridge. split.
  - intros event args. unfold CDPSocketServer.emit. now rewrite Hd.
  - intros s c ev Hs. destruct (Hbridge s Hs) as [_ Hun].
    rewrite (notify_unsubscribed E w' s c ev Hun).
    destruct (close_tree_only_closes values (length (servers w)) r w)
      as (_ & _ & _ & _ & _ & _ & Hj & _).
    fold (Registry.close values r w) in Hj. fold w' in Hj. now rewrite Hj.
Qed.

Lemma registry_close_silences_subtree_witness :
  let w' := Registry.close Registry.children 0 Scenes.tree_world in
  CDPSocketServer.emit Sample.env 2 "ping" [VNum 1; VNum 2] w' = (true, w')
  /\ List.filter (inbound_of 2)
       (jobs (CDPSocket.notify Sample.env 0
                (mkBindingCalled "cypressSendToServer-/s/b" Sample.ping_json 3) w')) = [].
Proof.
  destruct (registry_close_silences_subtree Sample.env Registry.children Scenes.tree_world 0 2
              (mkServer (Some 2) "/s/b" "/s" ∅)) as [Hemit Hnotify].
  - intros m. apply merge_sort_Permutation.
  - exists Scenes.tree_ops. reflexivity.
  - exists 1.
    apply (descends_child Scenes.tree_world 0 0
             (mkServer (Some 0) "/s/default" "/s" (<["/s/b" := 2]> (<["/s/a" := 1]> ∅)))
             "/s/b" 2 2).
    + reflexivity.
    + reflexivity.
    + apply (descends_self Scenes.tree_world 2 (mkServer (Some 2) "/s/b" "/s" ∅)). reflexivity.
  - reflexivity.
  - split; [apply Hemit|].
    exact (Hnotify 2 0 (mkBindingCalled "cypressSendToServer-/s/b" Sample.ping_json 3) eq_refl).
Defined.

Section AnyOrder.




End AnyOrder.


